(** * chessops: FEN and UCI notation codecs

    A shallow embedding of [src/util.ts] and [src/fen.ts] of chessops,
    together with the properties of the notation layer.

    JavaScript strings are sequences of 16-bit code units; they are
    modelled as [list Z], one integer per code unit.  Numbers that the
    code uses as squares, counters and clocks are integers in [Z]. *)

From Stdlib Require Import ZArith Lia Ascii String DecimalString.
From stdpp Require Import base option list gmap.

Local Open Scope Z_scope.

(** ** Strings *)

Abbreviation JsString := (list Z).

(** The code unit of an ASCII character, and the string of an ASCII literal. *)
Definition ch (a : ascii) : Z := Z.of_N (N_of_ascii a).

Definition lit (s : String.string) : JsString :=
  List.map ch (list_ascii_of_string s).

(** [s[i]]: the one-unit string at index [i], [undefined] out of range. *)
Definition charAt (s : JsString) (i : Z) : option JsString :=
  if i <? 0 then None else (λ c, [c]) <$> (s !! Z.to_nat i).

(** [String.length]. *)
Definition strlen (s : JsString) : Z := Z.of_nat (length s).

(** [a + b] where either operand may be [undefined]: [undefined] is
    printed as the word, and two [undefined] operands add up to the number
    [NaN], printed when it is later joined to a string. *)
Definition strAdd (a b : option JsString) : JsString :=
  match a, b with
  | Some x, Some y => x ++ y
  | Some x, None => x ++ lit "undefined"
  | None, Some y => lit "undefined" ++ y
  | None, None => lit "NaN"
  end.

(** [s.slice(a, b)] and [s.slice(a)] for [0 <= a <= b], the only way the
    code calls them. *)
Definition slice (s : JsString) (a b : Z) : JsString :=
  take (Z.to_nat (b - a)) (drop (Z.to_nat a) s).

Definition sliceFrom (s : JsString) (a : Z) : JsString :=
  drop (Z.to_nat a) s.

(** [s.substr(start, len)] and [s.substr(start)] for [0 <= start]; a
    negative [len] gives the empty string. *)
Definition substr (s : JsString) (start len : Z) : JsString :=
  take (Z.to_nat len) (drop (Z.to_nat start) s).

Definition substrFrom (s : JsString) (start : Z) : JsString :=
  drop (Z.to_nat start) s.

(** [String.prototype.toLowerCase] on one code unit.  The Unicode default
    case conversion sends [A-Z] to [a-z] and the Kelvin sign U+212A to
    [k]; every other code unit is sent outside ASCII or left alone, so no
    other result is an ASCII letter.  The callers only compare the result
    with ASCII letters and with the input. *)
Definition lowerUnit (c : Z) : Z :=
  if (ch "A" <=? c) && (c <=? ch "Z") then c + 32
  else if c =? 8490 then ch "k"
  else c.

Definition toLowerCase (s : JsString) : JsString := lowerUnit <$> s.

(** [String.prototype.toUpperCase]; the code applies it to strings of role
    letters only, where it is the ASCII mapping. *)
Definition upperUnit (c : Z) : Z :=
  if (ch "a" <=? c) && (c <=? ch "z") then c - 32 else c.

Definition toUpperCase (s : JsString) : JsString := upperUnit <$> s.

(** [s.indexOf(c, from)] for a one-unit needle: the first index at or
    after [from] that holds [c], or [-1]. *)
Fixpoint indexOfAux (s : JsString) (c pos from : Z) : Z :=
  match s with
  | [] => -1
  | x :: s' =>
      if (from <=? pos) && (x =? c) then pos
      else indexOfAux s' c (pos + 1) from
  end.

Definition indexOf (s : JsString) (c from : Z) : Z := indexOfAux s c 0 from.

(** [s.split(sep)] for a one-unit separator. *)
Fixpoint split (sep : Z) (s : JsString) : list JsString :=
  match s with
  | [] => [[]]
  | c :: s' =>
      if c =? sep then [] :: split sep s'
      else match split sep s' with
           | h :: t => (c :: h) :: t
           | [] => [[c]]
           end
  end.

(** [parts.join(sep)]. *)
Fixpoint join (sep : JsString) (parts : list JsString) : JsString :=
  match parts with
  | [] => []
  | [p] => p
  | p :: rest => p ++ sep ++ join sep rest
  end.

(** [String(n)] for an integer [n] (below 1e21 in absolute value, where
    JavaScript prints every digit). *)
Definition numToString (n : Z) : JsString :=
  lit (NilZero.string_of_int (Z.to_int n)).

(** 32-bit conversion of the operands of [>>] and [&]. *)
Definition toInt32 (n : Z) : Z := (n + 2 ^ 31) mod 2 ^ 32 - 2 ^ 31.

(** ** Vocabulary ([types.ts]) *)

Inductive Color := White | Black.
Inductive Role := Pawn | Knight | Bishop | Rook | Queen | King.

#[global] Instance Color_eq_dec : EqDecision Color.
Proof. solve_decision. Defined.
#[global] Instance Role_eq_dec : EqDecision Role.
Proof. solve_decision. Defined.

Record Piece := mkPiece { role : Role; color : Color; promoted : bool }.

#[global] Instance Piece_eq_dec : EqDecision Piece.
Proof. solve_decision. Defined.

(** Modelled from the spec: the constants [COLORS] and [ROLES] of
    [types.ts] (every color, every role, in the order of the data model). *)
Definition COLORS : list Color := [White; Black].
Definition ROLES : list Role := [Pawn; Knight; Bishop; Rook; Queen; King].

(** A move is a normal move or a drop; [isDrop] of [types.ts] tells them
    apart, here by the constructor. *)
Inductive Move :=
  | NormalMove (from to : Z) (promotion : option Role)
  | DropMove (role : Role) (to : Z).

Definition isDrop (m : Move) : bool :=
  match m with DropMove _ _ => true | NormalMove _ _ _ => false end.

(** ** [util.ts] *)

Module Util.

Definition defined {A} (v : option A) : bool :=
  match v with Some _ => true | None => false end.

Definition opposite (color : Color) : Color :=
  if decide (color = White) then Black else White.

Definition squareRank (square : Z) : Z := Z.shiftr (toInt32 square) 3.

Definition squareFile (square : Z) : Z := Z.land (toInt32 square) 7.

Definition squareDist (a b : Z) : Z :=
  let x1 := squareFile a in let x2 := squareFile b in
  let y1 := squareRank a in let y2 := squareRank b in
  Z.max (Z.abs (x1 - x2)) (Z.abs (y1 - y2)).

Definition roleToChar (role : Role) : JsString :=
  match role with
  | Pawn => lit "p"
  | Knight => lit "n"
  | Bishop => lit "b"
  | Rook => lit "r"
  | Queen => lit "q"
  | King => lit "k"
  end.

(** The [switch] compares the whole string with each one-letter case. *)
Definition charToRole (ch : JsString) : option Role :=
  if bool_decide (ch = lit "P") || bool_decide (ch = lit "p") then Some Pawn
  else if bool_decide (ch = lit "N") || bool_decide (ch = lit "n") then Some Knight
  else if bool_decide (ch = lit "B") || bool_decide (ch = lit "b") then Some Bishop
  else if bool_decide (ch = lit "R") || bool_decide (ch = lit "r") then Some Rook
  else if bool_decide (ch = lit "Q") || bool_decide (ch = lit "q") then Some Queen
  else if bool_decide (ch = lit "K") || bool_decide (ch = lit "k") then Some King
  else None.

(** [charToRole(str[i])]: an [undefined] argument falls to [default]. *)
Definition charToRoleAt (c : option JsString) : option Role :=
  match c with Some s => charToRole s | None => None end.

Definition inRange (lo hi : ascii) (c : Z) : bool :=
  (ch lo <=? c) && (c <=? ch hi).

(** [/^[a-h][1-8]$/] matches exactly the two-unit strings of a file letter
    and a rank digit. *)
Definition parseSquare (str : JsString) : option Z :=
  match str with
  | [f; r] =>
      if inRange "a" "h" f && inRange "1" "8" r
      then Some (f - ch "a" + 8 * (r - ch "1"))
      else None
  | _ => None
  end.

Definition makeSquare (square : Z) : JsString :=
  strAdd (charAt (lit "abcdefgh") (squareFile square))
         (charAt (lit "12345678") (squareRank square)).

Definition parseUci (str : JsString) : option Move :=
  if bool_decide (charAt str 1 = Some (lit "@")) && (strlen str =? 4) then
    let role := charToRoleAt (charAt str 0) in
    let to := parseSquare (sliceFrom str 2) in
    match role, to with
    | Some role, Some to => Some (DropMove role to)
    | _, _ => None
    end
  else if (strlen str =? 4) || (strlen str =? 5) then
    let from := parseSquare (slice str 0 2) in
    let to := parseSquare (slice str 2 4) in
    let promotion :=
      if strlen str =? 5 then
        match charToRoleAt (charAt str 4) with
        | Some p => Some (Some p)
        | None => None
        end
      else Some None in
    match promotion with
    | None => None
    | Some promotion =>
        match from, to with
        | Some from, Some to => Some (NormalMove from to promotion)
        | _, _ => None
        end
    end
  else None.

Definition makeUci (move : Move) : JsString :=
  match move with
  | DropMove role to =>
      toUpperCase (roleToChar role) ++ lit "@" ++ makeSquare to
  | NormalMove from to promotion =>
      makeSquare from ++ makeSquare to ++
      match promotion with Some p => roleToChar p | None => [] end
  end.

End Util.

(** ** The second utility module of [util.ts] (on [./fp] results) *)

Module UtilFp.

(** The result type of [./fp]: [ok(value)] or [err()]. *)
Inductive Result (A : Type) := ok (a : A) | err.
Arguments ok {A} a.
Arguments err {A}.

Definition opposite (color : Color) : Color :=
  if decide (color = White) then Black else White.

Definition charToRole (c : JsString) : Result Role :=
  if bool_decide (c = lit "p") || bool_decide (c = lit "P") then ok Pawn
  else if bool_decide (c = lit "n") || bool_decide (c = lit "N") then ok Knight
  else if bool_decide (c = lit "b") || bool_decide (c = lit "B") then ok Bishop
  else if bool_decide (c = lit "r") || bool_decide (c = lit "R") then ok Rook
  else if bool_decide (c = lit "q") || bool_decide (c = lit "Q") then ok Queen
  else if bool_decide (c = lit "k") || bool_decide (c = lit "K") then ok King
  else err.

Definition defined {A} (v : option A) : bool :=
  match v with Some _ => true | None => false end.

(** The loop runs while the counter [n], decremented at each test, is
    positive: at most [n] times. *)
Fixpoint nthIndexOfLoop (n : nat) (haystack : JsString) (needle index : Z) : Z :=
  match n with
  | O => index
  | S n' =>
      if index =? -1 then index
      else nthIndexOfLoop n' haystack needle (indexOf haystack needle (index + 1))
  end.

Definition nthIndexOf (haystack : JsString) (needle : Z) (n : Z) : Z :=
  nthIndexOfLoop (Z.to_nat n) haystack needle (indexOf haystack needle 0).

Fixpoint strRepeatLoop (n : nat) (str r : JsString) : JsString :=
  match n with
  | O => r
  | S n' => strRepeatLoop n' str (r ++ str)
  end.

Definition strRepeat (str : JsString) (num : Z) : JsString :=
  strRepeatLoop (Z.to_nat num) str [].

End UtilFp.

(** ** Results ([@badrap/result]) *)

Module Result.

Inductive t (A E : Type) := ok (a : A) | err (e : E).
Arguments ok {A E} a.
Arguments err {A E} e.

Definition chain {A B E} (r : t A E) (f : A → t B E) : t B E :=
  match r with ok a => f a | err e => err e end.

Definition map {A B E} (r : t A E) (f : A → B) : t B E :=
  match r with ok a => ok (f a) | err e => err e end.

Definition isOk {A E} (r : t A E) : bool :=
  match r with ok _ => true | err _ => false end.

End Result.

(** What a call does: it returns a value, or an exception escapes it (a
    method called on [undefined] raises [TypeError]). *)
Inductive Completion (A : Type) := Returns (a : A) | Throws.
Arguments Returns {A} a.
Arguments Throws {A}.

(** [parts.shift()]: the first element, [undefined] on the empty array, and
    the array that is left. *)
Definition shift {A} (parts : list A) : option A * list A :=
  match parts with
  | [] => (None, [])
  | p :: rest => (Some p, rest)
  end.

(** ** Square sets ([squareSet.ts]) *)

(** Modelled from the spec: the class [SquareSet] is a set of squares (a
    64-bit mask in the code); its iteration orders, [first] and [last]
    range over the squares 0..63. *)
Module SquareSet.

Definition empty : gset Z := ∅.

Definition with_ (s : gset Z) (square : Z) : gset Z := {[square]} ∪ s.

Definition has (s : gset Z) (square : Z) : bool := bool_decide (square ∈ s).

Definition intersect (s other : gset Z) : gset Z := s ∩ other.

Definition fromRank (rank : Z) : gset Z :=
  list_to_set ((λ file, file + 8 * rank) <$> seqZ 0 8).

(** Ascending iteration and [reversed()], the descending one. *)
Definition ascending (s : gset Z) : list Z :=
  filter (λ square, square ∈ s) (seqZ 0 64).

Definition reversed (s : gset Z) : list Z := reverse (ascending s).

Definition first (s : gset Z) : option Z := head (ascending s).

Definition last (s : gset Z) : option Z := head (reversed s).

End SquareSet.

(** ** Boards ([board.ts]) *)

(** Modelled from the spec: the class [Board] is an assignment of squares to
    pieces with at most one piece per square; [set] overwrites, [pieces]
    is the set of squares of one color and role, and [kingOf] looks up the
    king square of a color (the one square holding a king of that color,
    nothing when there is none or more than one). *)
Module Board.

Definition empty : gmap Z Piece := ∅.

Definition get (board : gmap Z Piece) (square : Z) : option Piece :=
  board !! square.

Definition set (board : gmap Z Piece) (square : Z) (piece : Piece) : gmap Z Piece :=
  <[square := piece]> board.

Definition pieces (board : gmap Z Piece) (c : Color) (r : Role) : gset Z :=
  dom (filter (λ kv : Z * Piece, color kv.2 = c ∧ role kv.2 = r) board).

Definition kingOf (board : gmap Z Piece) (c : Color) : option Z :=
  match elements (pieces board c King) with
  | [k] => Some k
  | _ => None
  end.

End Board.

(** ** Setups ([setup.ts]) *)

(** Modelled from the spec: [MaterialSide] counts the pieces of each role
    one side holds off the board, [Material] has one per color. *)
Record MaterialSide := mkMaterialSide {
  pawn : Z; knight : Z; bishop : Z; rook : Z; queen : Z; king : Z
}.

Record Material := mkMaterial { white : MaterialSide; black : MaterialSide }.

Module Material.

Definition emptySide : MaterialSide := mkMaterialSide 0 0 0 0 0 0.

Definition empty : Material := mkMaterial emptySide emptySide.

(** [side[role]] *)
Definition count (side : MaterialSide) (r : Role) : Z :=
  match r with
  | Pawn => pawn side | Knight => knight side | Bishop => bishop side
  | Rook => rook side | Queen => queen side | King => king side
  end.

(** [side[role]++] *)
Definition incrSide (side : MaterialSide) (r : Role) : MaterialSide :=
  match r with
  | Pawn => mkMaterialSide (pawn side + 1) (knight side) (bishop side) (rook side) (queen side) (king side)
  | Knight => mkMaterialSide (pawn side) (knight side + 1) (bishop side) (rook side) (queen side) (king side)
  | Bishop => mkMaterialSide (pawn side) (knight side) (bishop side + 1) (rook side) (queen side) (king side)
  | Rook => mkMaterialSide (pawn side) (knight side) (bishop side) (rook side + 1) (queen side) (king side)
  | Queen => mkMaterialSide (pawn side) (knight side) (bishop side) (rook side) (queen side + 1) (king side)
  | King => mkMaterialSide (pawn side) (knight side) (bishop side) (rook side) (queen side) (king side + 1)
  end.

(** [pockets[color]] and [pockets[color][role]++] *)
Definition side (m : Material) (c : Color) : MaterialSide :=
  match c with White => white m | Black => black m end.

Definition incr (m : Material) (c : Color) (r : Role) : Material :=
  match c with
  | White => mkMaterial (incrSide (white m) r) (black m)
  | Black => mkMaterial (white m) (incrSide (black m) r)
  end.

End Material.

Record RemainingChecks := mkRemainingChecks { rcWhite : Z; rcBlack : Z }.

Record Setup := mkSetup {
  board : gmap Z Piece;
  pockets : option Material;
  turn : Color;
  unmovedRooks : gset Z;
  remainingChecks : option RemainingChecks;
  epSquare : option Z;
  halfmoves : Z;
  fullmoves : Z
}.

(** ** [fen.ts] *)

Module Fen.

Import Util.

Definition INITIAL_BOARD_FEN : JsString := lit "rnbqkbnr/pppppppp/8/8/8/8/PPPPPPPP/RNBQKBNR".
Definition INITIAL_FEN : JsString := INITIAL_BOARD_FEN ++ lit " w KQkq - 0 1".
Definition EMPTY_BOARD_FEN : JsString := lit "8/8/8/8/8/8/8/8".
Definition EMPTY_FEN : JsString := EMPTY_BOARD_FEN ++ lit " w - - 0 1".

Inductive InvalidFen :=
  | ERR_FEN
  | ERR_BOARD
  | ERR_POCKETS
  | ERR_TURN
  | ERR_CASTLING
  | ERR_EP_SQUARE
  | ERR_REMAINING_CHECKS
  | ERR_HALFMOVES
  | ERR_FULLMOVES.

(** [new FenError(message)] *)
Inductive FenError := mkFenError (message : InvalidFen).

Abbreviation FenResult A := (Result.t A FenError).

Definition fail {A} (e : InvalidFen) : FenResult A := Result.err (mkFenError e).

Definition isDigit (c : Z) : bool := inRange "0" "9" c.

(** [parseInt(str, 10)] on a string of decimal digits. *)
Definition parseIntDigits (str : JsString) : Z :=
  foldl (λ acc c, acc * 10 + (c - ch "0")) 0 str.

(** [/^\d{1,4}$/]: one to four decimal digits and nothing else. *)
Definition parseSmallUint (str : JsString) : option Z :=
  if (1 <=? strlen str) && (strlen str <=? 4) && forallb isDigit str
  then Some (parseIntDigits str)
  else None.

(** [parseInt(c, 10)] on one code unit: its digit value, [NaN] (here
    [None]) when it is not a decimal digit. *)
Definition parseIntUnit (c : Z) : option Z :=
  if isDigit c then Some (c - ch "0") else None.

(** A number in a condition: [NaN] (here [None]) and [0] are falsy. *)
Definition truthyNumber (n : option Z) : bool :=
  match n with Some n => negb (n =? 0) | None => false end.

Definition charToPiece (ch : JsString) : option Piece :=
  let lower := toLowerCase ch in
  match charToRole lower with
  | None => None
  | Some role =>
      Some (mkPiece role (if bool_decide (lower = ch) then Black else White) false)
  end.

Definition setPromoted (piece : Piece) : Piece :=
  mkPiece (role piece) (color piece) true.

(** The loop of [parseBoardFen] from index [i] on, as a recursion on the
    rest of the string; it yields the board, [rank] and [file] the loop
    ends with. *)
Fixpoint parseBoardFenLoop (boardPart : JsString) (board : gmap Z Piece)
    (rank file : Z) : FenResult (gmap Z Piece * Z * Z) :=
  match boardPart with
  | [] => Result.ok (board, rank, file)
  | c :: rest =>
      if (c =? ch "/") && (file =? 8) then
        parseBoardFenLoop rest board (rank - 1) 0
      else
        let step := parseIntUnit c in
        if truthyNumber step then
          parseBoardFenLoop rest board rank (file + default 0 step)
        else if (8 <=? file) || (rank <? 0) then fail ERR_BOARD
        else
          let square := file + rank * 8 in
          match charToPiece [c] with
          | None => fail ERR_BOARD
          | Some piece =>
              match rest with
              | t :: rest' =>
                  if t =? ch "~" then
                    parseBoardFenLoop rest'
                      (Board.set board square (setPromoted piece)) rank (file + 1)
                  else
                    parseBoardFenLoop rest
                      (Board.set board square piece) rank (file + 1)
              | [] =>
                  parseBoardFenLoop rest
                    (Board.set board square piece) rank (file + 1)
              end
          end
  end.

Definition parseBoardFen (boardPart : JsString) : FenResult (gmap Z Piece) :=
  match parseBoardFenLoop boardPart Board.empty 7 0 with
  | Result.err e => Result.err e
  | Result.ok (board, rank, file) =>
      if negb (rank =? 0) || negb (file =? 8) then fail ERR_BOARD
      else Result.ok board
  end.

Fixpoint parsePocketsLoop (pocketPart : JsString) (pockets : Material)
    : FenResult Material :=
  match pocketPart with
  | [] => Result.ok pockets
  | c :: rest =>
      match charToPiece [c] with
      | None => fail ERR_POCKETS
      | Some piece =>
          parsePocketsLoop rest (Material.incr pockets (color piece) (role piece))
      end
  end.

Definition parsePockets (pocketPart : JsString) : FenResult Material :=
  parsePocketsLoop pocketPart Material.empty.

Definition isCastlingUpper (c : Z) : bool :=
  (c =? ch "K") || (c =? ch "Q") || inRange "A" "H" c.

Definition isCastlingLower (c : Z) : bool :=
  (c =? ch "k") || (c =? ch "q") || inRange "a" "h" c.

(** [/^[KQABCDEFGH]{0,2}[kqabcdefgh]{0,2}$/]: the string splits into at
    most two letters of the first class followed by at most two of the
    second. *)
Definition castlingRegex (s : JsString) : bool :=
  existsb (λ n : nat,
      let upper := take n s in
      let lower := drop n s in
      forallb isCastlingUpper upper && forallb isCastlingLower lower
      && (length lower <=? 2)%nat)
    [0%nat; 1%nat; 2%nat].

(** The inner loop of [parseCastlingFen] over the candidate files. *)
Fixpoint scanFiles (board : gmap Z Piece) (c : Color) (rank : Z)
    (files : list Z) (unmovedRooks : gset Z) : gset Z :=
  match files with
  | [] => unmovedRooks
  | file :: rest =>
      let square := file + 8 * rank in
      match Board.get board square with
      | None => scanFiles board c rank rest unmovedRooks
      | Some piece =>
          if bool_decide (color piece = c) && bool_decide (role piece = King)
          then unmovedRooks
          else if bool_decide (color piece = c) && bool_decide (role piece = Rook)
          then SquareSet.with_ unmovedRooks square
          else scanFiles board c rank rest unmovedRooks
      end
  end.

Definition castlingStep (board : gmap Z Piece) (unmovedRooks : gset Z) (c : Z)
    : gset Z :=
  let lower := lowerUnit c in
  let color := if c =? lower then Black else White in
  let rank := if decide (color = White) then 0 else 7 in
  let files :=
    if lower =? ch "q" then [0; 1; 2; 3; 4; 5; 6; 7]
    else if lower =? ch "k" then [7; 6; 5; 4; 3; 2; 1; 0]
    else [lower - ch "a"] in
  scanFiles board color rank files unmovedRooks.

Definition parseCastlingFen (board : gmap Z Piece) (castlingPart : JsString)
    : FenResult (gset Z) :=
  let unmovedRooks := SquareSet.empty in
  if bool_decide (castlingPart = lit "-") then Result.ok unmovedRooks
  else if negb (castlingRegex castlingPart) then fail ERR_CASTLING
  else Result.ok (foldl (castlingStep board) unmovedRooks castlingPart).

Definition checksInRange (white black : option Z) : option (Z * Z) :=
  match white, black with
  | Some white, Some black =>
      if (3 <? white) || (3 <? black) then None else Some (white, black)
  | _, _ => None
  end.

Definition parseRemainingChecks (part : JsString) : FenResult RemainingChecks :=
  let parts := split (ch "+") part in
  match parts with
  | [p0; p1; p2] =>
      if bool_decide (p0 = []) then
        match checksInRange (parseSmallUint p1) (parseSmallUint p2) with
        | None => fail ERR_REMAINING_CHECKS
        | Some (white, black) =>
            Result.ok (mkRemainingChecks (3 - white) (3 - black))
        end
      else fail ERR_REMAINING_CHECKS
  | [p0; p1] =>
      match checksInRange (parseSmallUint p0) (parseSmallUint p1) with
      | None => fail ERR_REMAINING_CHECKS
      | Some (white, black) => Result.ok (mkRemainingChecks white black)
      end
  | _ => fail ERR_REMAINING_CHECKS
  end.

Definition endsWith (s : JsString) (c : Z) : bool :=
  bool_decide (last s = Some c).

Definition includes (s : JsString) (c : Z) : bool :=
  bool_decide (c ∈ s).

(** [parseFen]: the fields are taken off the front of [parts] one
    [shift] at a time; each early [return] of the code ends the
    computation with that error. *)
Definition parseFen (fen : JsString) : Completion (FenResult Setup) :=
  let parts := split (ch " ") fen in
  let '(boardPart, parts) := shift parts in
  match boardPart with
  | None => Throws
  | Some boardPart =>
  Returns (
    (* Board and pockets *)
    let boardAndPockets : option (FenResult (gmap Z Piece) * FenResult (option Material)) :=
      if endsWith boardPart (ch "]") then
        let pocketStart := indexOf boardPart (ch "[") 0 in
        if pocketStart =? -1 then None
        else Some
          (parseBoardFen (substr boardPart 0 pocketStart),
           Result.map
             (parsePockets
                (substr boardPart (pocketStart + 1)
                   (strlen boardPart - 1 - pocketStart - 1)))
             Some)
      else
        let pocketStart := UtilFp.nthIndexOf boardPart (ch "/") 7 in
        if pocketStart =? -1 then Some (parseBoardFen boardPart, Result.ok None)
        else Some
          (parseBoardFen (substr boardPart 0 pocketStart),
           Result.map (parsePockets (substrFrom boardPart (pocketStart + 1))) Some) in
    match boardAndPockets with
    | None => fail ERR_FEN
    | Some (board, pockets) =>
    (* Turn *)
    let '(turnPart, parts) := shift parts in
    let turn : option Color :=
      match turnPart with
      | None => Some White
      | Some turnPart =>
          if bool_decide (turnPart = lit "w") then Some White
          else if bool_decide (turnPart = lit "b") then Some Black
          else None
      end in
    match turn with
    | None => fail ERR_TURN
    | Some turn =>
    Result.chain board (λ board,
      (* Castling *)
      let '(castlingPart, parts) := shift parts in
      let unmovedRooks :=
        match castlingPart with
        | Some castlingPart => parseCastlingFen board castlingPart
        | None => Result.ok SquareSet.empty
        end in
      (* En passant square *)
      let '(epPart, parts) := shift parts in
      let epSquare : option (option Z) :=
        match epPart with
        | Some epPart =>
            if negb (bool_decide (epPart = lit "-")) then
              match parseSquare epPart with
              | Some square => Some (Some square)
              | None => None
              end
            else Some None
        | None => Some None
        end in
      match epSquare with
      | None => fail ERR_EP_SQUARE
      | Some epSquare =>
      (* Halfmoves or remaining checks *)
      let '(halfmovePart, parts) := shift parts in
      let '(earlyRemainingChecks, halfmovePart, parts) :=
        match halfmovePart with
        | Some part =>
            if includes part (ch "+") then
              let '(next, parts) := shift parts in
              (Some (parseRemainingChecks part), next, parts)
            else (None, Some part, parts)
        | None => (None, None, parts)
        end in
      let halfmoves :=
        match halfmovePart with
        | Some part => parseSmallUint part
        | None => Some 0
        end in
      match halfmoves with
      | None => fail ERR_HALFMOVES
      | Some halfmoves =>
      let '(fullmovesPart, parts) := shift parts in
      let fullmoves :=
        match fullmovesPart with
        | Some part => parseSmallUint part
        | None => Some 1
        end in
      match fullmoves with
      | None => fail ERR_FULLMOVES
      | Some fullmoves =>
      let '(remainingChecksPart, parts) := shift parts in
      let remainingChecks : option (FenResult (option RemainingChecks)) :=
        match remainingChecksPart, earlyRemainingChecks with
        | Some _, Some _ => None
        | Some part, None => Some (Result.map (parseRemainingChecks part) Some)
        | None, Some early => Some (Result.map early Some)
        | None, None => Some (Result.ok None)
        end in
      match remainingChecks with
      | None => fail ERR_REMAINING_CHECKS
      | Some remainingChecks =>
      if negb (length parts =? 0)%nat then fail ERR_FEN
      else
        Result.chain pockets (λ pockets,
          Result.chain unmovedRooks (λ unmovedRooks,
            Result.map remainingChecks (λ remainingChecks,
              {| board := board;
                 pockets := pockets;
                 turn := turn;
                 unmovedRooks := unmovedRooks;
                 remainingChecks := remainingChecks;
                 epSquare := epSquare;
                 halfmoves := halfmoves;
                 fullmoves := Z.max 1 fullmoves |})))
      end end end end)
    end end)
  end.

(** [FenOpts]; an absent option reads as [false], and [opts] itself may be
    absent. *)
Record FenOpts := mkFenOpts {
  optPromoted : bool;
  optShredder : bool;
  optEpd : bool
}.

Definition optOf (opts : option FenOpts) (field : FenOpts → bool) : bool :=
  match opts with Some o => field o | None => false end.

Definition makePiece (piece : Piece) (opts : option FenOpts) : JsString :=
  let r := roleToChar (role piece) in
  let r := if decide (color piece = White) then toUpperCase r else r in
  let r := if optOf opts optPromoted && promoted piece then r ++ lit "~" else r in
  r.

Definition parsePiece (str : JsString) : option Piece :=
  match str with
  | [] => None
  | c :: rest =>
      match charToPiece [c] with
      | None => None
      | Some piece =>
          if (strlen str =? 2) && bool_decide (charAt str 1 = Some (lit "~"))
          then Some (setPromoted piece)
          else if 1 <? strlen str then None
          else Some piece
      end
  end.

(** [if (empty) { fen += empty; empty = 0; }] *)
Definition flushEmpty (st : JsString * Z) : JsString * Z :=
  let '(fen, empty) := st in
  if negb (empty =? 0) then (fen ++ numToString empty, 0) else (fen, empty).

(** The body of the inner loop of [makeBoardFen] on the state
    [(fen, empty)]. *)
Definition makeBoardFenSquare (board : gmap Z Piece) (opts : option FenOpts)
    (rank : Z) (st : JsString * Z) (file : Z) : JsString * Z :=
  let square := file + rank * 8 in
  let st :=
    match Board.get board square with
    | None => (st.1, st.2 + 1)
    | Some piece =>
        let st := flushEmpty st in
        (st.1 ++ makePiece piece opts, st.2)
    end in
  if file =? 7 then
    let st := flushEmpty st in
    if negb (rank =? 0) then (st.1 ++ lit "/", st.2) else st
  else st.

Definition makeBoardFenRank (board : gmap Z Piece) (opts : option FenOpts)
    (st : JsString * Z) (rank : Z) : JsString * Z :=
  foldl (makeBoardFenSquare board opts rank) st [0; 1; 2; 3; 4; 5; 6; 7].

Definition makeBoardFen (board : gmap Z Piece) (opts : option FenOpts) : JsString :=
  (foldl (makeBoardFenRank board opts) ([], 0) [7; 6; 5; 4; 3; 2; 1; 0]).1.

Definition makePocket (material : MaterialSide) : JsString :=
  join [] ((λ role, UtilFp.strRepeat (roleToChar role) (Material.count material role))
           <$> ROLES).

Definition makePockets (pocket : Material) : JsString :=
  toUpperCase (makePocket (white pocket)) ++ makePocket (black pocket).

(** The letter the body of the loop of [makeCastlingFen] appends for a
    rook.  The condition [king && rook < king] is false for an absent king
    and for a king on square 0, both falsy.  [rook & 0x7] is in 0..7, so the
    file letter is always there. *)
Definition castlingLetter (shredder : bool) (c : Color) (king : option Z)
    (candidates : gset Z) (rook : Z) : JsString :=
  if negb shredder && bool_decide (Some rook = SquareSet.first candidates)
     && truthyNumber king && (rook <? default 0 king)
  then (if decide (c = White) then lit "Q" else lit "q")
  else if negb shredder && bool_decide (Some rook = SquareSet.last candidates)
     && truthyNumber king && (default 0 king <? rook)
  then (if decide (c = White) then lit "K" else lit "k")
  else default []
         (charAt (if decide (c = White) then lit "ABCDEFGH" else lit "abcdefgh")
                 (Z.land (toInt32 rook) 7)).

Definition makeCastlingFenColor (board : gmap Z Piece) (unmovedRooks : gset Z)
    (shredder : bool) (fen : JsString) (c : Color) : JsString :=
  let king := Board.kingOf board c in
  let backrank := SquareSet.fromRank (if decide (c = White) then 0 else 7) in
  let candidates := SquareSet.intersect (Board.pieces board c Rook) backrank in
  foldl (λ fen rook, fen ++ castlingLetter shredder c king candidates rook)
        fen
        (SquareSet.reversed (SquareSet.intersect unmovedRooks candidates)).

Definition makeCastlingFen (board : gmap Z Piece) (unmovedRooks : gset Z)
    (opts : option FenOpts) : JsString :=
  let shredder := optOf opts optShredder in
  let fen := foldl (makeCastlingFenColor board unmovedRooks shredder) [] COLORS in
  if bool_decide (fen = []) then lit "-" else fen.

Definition makeRemainingChecks (checks : RemainingChecks) : JsString :=
  numToString (rcWhite checks) ++ lit "+" ++ numToString (rcBlack checks).

(** [setup.turn[0]] *)
Definition turnLetter (c : Color) : JsString :=
  match c with White => lit "w" | Black => lit "b" end.

Definition makeFen (setup : Setup) (opts : option FenOpts) : JsString :=
  join (lit " ")
    ([ makeBoardFen (board setup) opts
         ++ match pockets setup with
            | Some pockets => lit "[" ++ makePockets pockets ++ lit "]"
            | None => []
            end;
       turnLetter (turn setup);
       makeCastlingFen (board setup) (unmovedRooks setup) opts;
       match epSquare setup with
       | Some square => makeSquare square
       | None => lit "-"
       end ]
     ++ match remainingChecks setup with
        | Some checks => [makeRemainingChecks checks]
        | None => []
        end
     ++ (if optOf opts optEpd then []
         else [numToString (halfmoves setup); numToString (fullmoves setup)])).

End Fen.

(** ** Statements of the notation properties *)

(** A move whose squares are on the board. *)
Definition validMove (m : Move) : Prop :=
  match m with
  | NormalMove from to _ => 0 ≤ from ≤ 63 ∧ 0 ≤ to ≤ 63
  | DropMove _ to => 0 ≤ to ≤ 63
  end.


(** The home rank of a color, and a square that holds a rook of some color
    on the home rank of that color. *)
Definition homeRank (c : Color) : Z :=
  match c with White => 0 | Black => 7 end.

Definition isHomeRook (board : gmap Z Piece) (square : Z) : Prop :=
  ∃ piece, Board.get board square = Some piece
           ∧ role piece = Rook
           ∧ Util.squareRank square = homeRank (color piece).

(** The fields a FEN may leave out after the board, written out with the
    values [parseFen] takes for them. *)
Definition defaultFields : list JsString :=
  [lit "w"; lit "-"; lit "-"; lit "0"; lit "1"].

(** ** The board field, as the notation describes it

    Ranks 8 down to 1 separated by [/]; each rank is a sequence of items
    that covers its 8 files: a digit for a run of empty squares, or a piece
    letter, followed by [~] when the piece is promoted. *)
Module BoardText.

Inductive Item :=
  | Empties (n : Z)
  | Occupied (letter : Z) (tilde : bool).

Definition width (i : Item) : Z :=
  match i with Empties n => n | Occupied _ _ => 1 end.

Definition itemText (i : Item) : JsString :=
  match i with
  | Empties n => [ch "0" + n]
  | Occupied letter tilde => letter :: (if tilde then [ch "~"] else [])
  end.

(** The piece letters of the notation. *)
Definition isPieceLetter (c : Z) : Prop := c ∈ lit "pnbrqkPNBRQK".

(** The piece a letter stands for: lower case is black, upper case white. *)
Definition pieceOfLetter (c : Z) : option Piece :=
  if c =? ch "p" then Some (mkPiece Pawn Black false)
  else if c =? ch "n" then Some (mkPiece Knight Black false)
  else if c =? ch "b" then Some (mkPiece Bishop Black false)
  else if c =? ch "r" then Some (mkPiece Rook Black false)
  else if c =? ch "q" then Some (mkPiece Queen Black false)
  else if c =? ch "k" then Some (mkPiece King Black false)
  else if c =? ch "P" then Some (mkPiece Pawn White false)
  else if c =? ch "N" then Some (mkPiece Knight White false)
  else if c =? ch "B" then Some (mkPiece Bishop White false)
  else if c =? ch "R" then Some (mkPiece Rook White false)
  else if c =? ch "Q" then Some (mkPiece Queen White false)
  else if c =? ch "K" then Some (mkPiece King White false)
  else None.

(** The Kelvin sign U+212A, which [toLowerCase] sends to [k]. *)
Definition KELVIN : Z := 8490.

(** The letters [charToPiece] reads as a piece. *)
Definition isAcceptedLetter (c : Z) : Prop := isPieceLetter c ∨ c = KELVIN.

Section Alphabet.

(** The letters allowed in the place of a piece. *)
Variable letterOk : Z → Prop.

Definition validItem (i : Item) : Prop :=
  match i with
  | Empties n => 1 ≤ n ≤ 8
  | Occupied letter _ => letterOk letter
  end.

Definition rankWidth (items : list Item) : Z :=
  foldr (λ i w, width i + w) 0 items.

Definition rankText (items : list Item) : JsString :=
  concat (itemText <$> items).

Definition boardText (ranks : list (list Item)) : JsString :=
  join (lit "/") (rankText <$> ranks).

Definition wellFormed (ranks : list (list Item)) : Prop :=
  length ranks = 8%nat
  ∧ Forall (λ items, Forall validItem items ∧ rankWidth items = 8) ranks.

End Alphabet.

(** The board a text describes: the pieces are put on the files of their
    rank from the a-file on, the first rank of the text being rank 8. *)
Definition pieceOfItem (letter : Z) (tilde : bool) : option Piece :=
  (λ p, if tilde then Fen.setPromoted p else p) <$> Fen.charToPiece [letter].

Fixpoint placeRank (items : list Item) (board : gmap Z Piece) (rank file : Z)
    : gmap Z Piece :=
  match items with
  | [] => board
  | Empties n :: rest => placeRank rest board rank (file + n)
  | Occupied letter tilde :: rest =>
      placeRank rest
        (match pieceOfItem letter tilde with
         | Some p => <[file + rank * 8 := p]> board
         | None => board
         end)
        rank (file + 1)
  end.

Fixpoint placeRanks (ranks : list (list Item)) (board : gmap Z Piece)
    (rank file : Z) : gmap Z Piece :=
  match ranks with
  | [] => board
  | items :: rest => placeRanks rest (placeRank items board rank file) (rank - 1) 0
  end.

Definition boardOf (ranks : list (list Item)) : gmap Z Piece :=
  placeRanks ranks ∅ 7 0.

End BoardText.

(** The number of occurrences of a code unit in a string. *)
Definition occurrences (c : Z) (s : JsString) : nat :=
  length (filter (λ x, x = c) s).

(** ** What [makeFen] writes

    The items [makeBoardFen] writes for a rank: the pieces on the given
    files, with the run of [empty] squares pending before them. *)
Definition roleUnit (r : Role) : Z :=
  match r with
  | Pawn => ch "p" | Knight => ch "n" | Bishop => ch "b"
  | Rook => ch "r" | Queen => ch "q" | King => ch "k"
  end.

Definition pieceLetter (p : Piece) : Z :=
  if decide (color p = White) then upperUnit (roleUnit (role p))
  else roleUnit (role p).

(** The piece as [makePiece] shows it: the promoted mark is written only
    under the [promoted] option. *)
Definition shownPiece (opts : option Fen.FenOpts) (p : Piece) : Piece :=
  mkPiece (role p) (color p) (Fen.optOf opts Fen.optPromoted && promoted p).

Definition flushItems (empty : Z) : list BoardText.Item :=
  if empty =? 0 then [] else [BoardText.Empties empty].

Fixpoint rankItems (board : gmap Z Piece) (opts : option Fen.FenOpts)
    (rank : Z) (files : list Z) (empty : Z) : list BoardText.Item :=
  match files with
  | [] => flushItems empty
  | file :: rest =>
      match board !! (file + rank * 8) with
      | None => rankItems board opts rank rest (empty + 1)
      | Some p =>
          flushItems empty
          ++ BoardText.Occupied (pieceLetter p)
               (Fen.optOf opts Fen.optPromoted && promoted p)
             :: rankItems board opts rank rest 0
      end
  end.

Definition boardItems (board : gmap Z Piece) (opts : option Fen.FenOpts)
    : list (list BoardText.Item) :=
  (λ rank, rankItems board opts rank [0; 1; 2; 3; 4; 5; 6; 7] 0)
    <$> [7; 6; 5; 4; 3; 2; 1; 0].

(** ** Setups that the notation can carry *)

(** Every pocket count is a natural number. *)
Definition nonNegative (m : Material) : Prop :=
  ∀ c r, 0 ≤ Material.count (Material.side m c) r.

(** The rooks of a color on its home rank: the candidates of
    [makeCastlingFen]. *)
Definition candidates (board : gmap Z Piece) (c : Color) : gset Z :=
  SquareSet.intersect (Board.pieces board c Rook)
                      (SquareSet.fromRank (homeRank c)).

(** The unmoved rooks of a color, in the order [makeCastlingFen] writes
    them. *)
Definition writtenRooks (board : gmap Z Piece) (unmovedRooks : gset Z)
    (c : Color) : list Z :=
  SquareSet.reversed (SquareSet.intersect unmovedRooks (candidates board c)).

(** A setup whose every field is in the range the notation writes and reads
    back: the board on the squares 0..63, natural pocket counts, unmoved
    rooks on the home rank of their color and at most two for each color,
    an en passant square on the board, remaining checks in 0..3, clocks of
    at most four digits and a fullmove number of at least 1. *)
Record Carried (s : Setup) : Prop := mkCarried {
  carried_board : ∀ sq, sq ∈ dom (board s) → 0 ≤ sq ≤ 63;
  carried_pockets : ∀ m, pockets s = Some m → nonNegative m;
  carried_rooks : ∀ sq, sq ∈ unmovedRooks s → isHomeRook (board s) sq;
  carried_rook_count :
    ∀ c, (length (writtenRooks (board s) (unmovedRooks s) c) ≤ 2)%nat;
  carried_ep : ∀ sq, epSquare s = Some sq → 0 ≤ sq ≤ 63;
  carried_checks :
    ∀ checks, remainingChecks s = Some checks →
              0 ≤ rcWhite checks ≤ 3 ∧ 0 ≤ rcBlack checks ≤ 3;
  carried_halfmoves : 0 ≤ halfmoves s ≤ 9999;
  carried_fullmoves : 1 ≤ fullmoves s ≤ 9999
}.

(** No piece of the board carries the promoted mark. *)
Definition noPromoted (board : gmap Z Piece) : Prop :=
  ∀ sq p, board !! sq = Some p → promoted p = false.

(** The setup with another board. *)
Definition withBoard (s : Setup) (b : gmap Z Piece) : Setup :=
  {| board := b; pockets := pockets s; turn := turn s;
     unmovedRooks := unmovedRooks s; remainingChecks := remainingChecks s;
     epSquare := epSquare s; halfmoves := halfmoves s;
     fullmoves := fullmoves s |}.

(** ** Sample positions *)

(** Kings on e1 and e8, rooks on h1 and a8 that have not moved, a black
    pawn just advanced to e5; with pockets and a check count. *)
Definition sampleSetup : Setup :=
  {| board :=
       <[4 := mkPiece King White false]>
         (<[7 := mkPiece Rook White false]>
            (<[36 := mkPiece Pawn Black false]>
               (<[56 := mkPiece Rook Black false]>
                  (<[60 := mkPiece King Black false]> ∅))));
     pockets := Some (mkMaterial (mkMaterialSide 1 0 2 0 0 0)
                                 (mkMaterialSide 0 1 0 0 1 0));
     turn := White;
     unmovedRooks := {[7; 56]};
     remainingChecks := Some (mkRemainingChecks 3 2);
     epSquare := Some 44;
     halfmoves := 0;
     fullmoves := 12 |}.

(** A Crazyhouse position: kings on e1 and e8 and a white queen on a1 that
    came from a promotion. *)
Definition promotedQueenSetup : Setup :=
  {| board :=
       <[0 := mkPiece Queen White true]>
         (<[4 := mkPiece King White false]>
            (<[60 := mkPiece King Black false]> ∅));
     pockets := Some Material.empty;
     turn := White;
     unmovedRooks := ∅;
     remainingChecks := None;
     epSquare := None;
     halfmoves := 0;
     fullmoves := 1 |}.

(** Three white rooks on the first rank that have not moved. *)
Definition threeRooksSetup : Setup :=
  {| board :=
       <[0 := mkPiece Rook White false]>
         (<[1 := mkPiece Rook White false]>
            (<[4 := mkPiece King White false]>
               (<[7 := mkPiece Rook White false]>
                  (<[60 := mkPiece King Black false]> ∅))));
     pockets := None;
     turn := White;
     unmovedRooks := {[0; 1; 7]};
     remainingChecks := None;
     epSquare := None;
     halfmoves := 0;
     fullmoves := 1 |}.

(** The setup with other clocks. *)
Definition withClocks (s : Setup) (half full : Z) : Setup :=
  {| board := board s; pockets := pockets s; turn := turn s;
     unmovedRooks := unmovedRooks s; remainingChecks := remainingChecks s;
     epSquare := epSquare s; halfmoves := half; fullmoves := full |}.

(** ** Statements of further properties *)

(** The number of code units of a pocket text that [charToPiece] reads as
    the piece of a color and role. *)
Definition pocketLetters (c : Color) (r : Role) (s : JsString) : Z :=
  Z.of_nat (length (filter (λ x, Fen.charToPiece [x] = Some (mkPiece r c false)) s)).

(** ** [arrayRemove] of the second utility module of [util.ts]

    [arr.indexOf(element)] on an array: the first index that holds the
    element, or [-1].  The elements are compared with [===], which is
    equality on the values the model covers (no [NaN]). *)
Fixpoint arrayIndexOfAux {A} `{EqDecision A} (arr : list A) (element : A)
    (pos : Z) : Z :=
  match arr with
  | [] => -1
  | x :: rest =>
      if decide (x = element) then pos
      else arrayIndexOfAux rest element (pos + 1)
  end.

Definition arrayIndexOf {A} `{EqDecision A} (arr : list A) (element : A) : Z :=
  arrayIndexOfAux arr element 0.

(** [arr.splice(index, 1)] for an index of the array. *)
Definition splice1 {A} (arr : list A) (index : Z) : list A :=
  delete (Z.to_nat index) arr.

(** [arrayRemove] changes the array in place and returns nothing; the
    model returns the array as the call leaves it.  The loop
    [while (true)] is run with a bound on its iterations: [None] when the
    bound is reached before the loop returns. *)
Fixpoint arrayRemoveLoop {A} `{EqDecision A} (fuel : nat) (arr : list A)
    (element : A) : option (list A) :=
  match fuel with
  | O => None
  | S fuel' =>
      let index := arrayIndexOf arr element in
      if negb (index =? -1) then arrayRemoveLoop fuel' (splice1 arr index) element
      else Some arr
  end.

Definition arrayRemove {A} `{EqDecision A} (fuel : nat) (arr : list A)
    (element : A) : option (list A) :=
  arrayRemoveLoop fuel arr element.

(** ** The fields of a FEN after the board

    [parseFen] takes the fifth field as the check counts when it contains
    a [+], and then reads the clocks from the two fields after it;
    otherwise the fifth and sixth fields are the clocks and the seventh
    the check counts. *)
Definition checksFirst (parts : list JsString) : bool :=
  match parts !! 4%nat with
  | Some part => Fen.includes part (ch "+")
  | None => false
  end.

Definition checksIndex (parts : list JsString) : nat :=
  if checksFirst parts then 4%nat else 6%nat.

Definition halfmovesIndex (parts : list JsString) : nat :=
  if checksFirst parts then 5%nat else 4%nat.

Definition fullmovesIndex (parts : list JsString) : nat :=
  if checksFirst parts then 6%nat else 5%nat.

(** The setup with another fullmove number. *)
Definition withFullmoves (s : Setup) (full : Z) : Setup :=
  {| board := board s; pockets := pockets s; turn := turn s;
     unmovedRooks := unmovedRooks s; remainingChecks := remainingChecks s;
     epSquare := epSquare s; halfmoves := halfmoves s; fullmoves := full |}.

(** The setup [s] read from the fields [parts], with the default in every
    component whose field is not among the first [k]: turn white, no
    unmoved rooks, no en passant square, no remaining checks, halfmoves 0
    and fullmoves 1.  The board and the pockets come from the first
    field. *)
Definition withDefaultsAfter (k : nat) (parts : list JsString) (s : Setup)
    : Setup :=
  {| board := board s;
     pockets := pockets s;
     turn := if (k <=? 1)%nat then White else turn s;
     unmovedRooks := if (k <=? 2)%nat then SquareSet.empty else unmovedRooks s;
     remainingChecks :=
       if (k <=? checksIndex parts)%nat then None else remainingChecks s;
     epSquare := if (k <=? 3)%nat then None else epSquare s;
     halfmoves := if (k <=? halfmovesIndex parts)%nat then 0 else halfmoves s;
     fullmoves := if (k <=? fullmovesIndex parts)%nat then 1 else fullmoves s |}.

(** * Properties of the notation layer *)

Import Util.

(** ** Squares *)

(** A property checked on every element of a range holds on the range. *)
Lemma range_forallb (f : Z → bool) (lo : Z) (n : Z) :
  forallb f (seqZ lo n) = true → ∀ s, lo ≤ s < lo + n → f s = true.
Proof.
  intros H s Hs. rewrite forallb_forall in H. apply H.
  apply list_elem_of_In, elem_of_seqZ. lia.
Qed.

Lemma toInt32_small (n : Z) : - 2 ^ 31 ≤ n < 2 ^ 31 → toInt32 n = n.
Proof.
  intros H. unfold toInt32. rewrite Z.mod_small; lia.
Qed.

Lemma squareFile_mod (s : Z) : 0 ≤ s ≤ 63 → squareFile s = s mod 8.
Proof.
  intros H. unfold squareFile. rewrite toInt32_small by lia.
  change 7 with (Z.ones 3). rewrite Z.land_ones by lia. reflexivity.
Qed.

Lemma squareRank_div (s : Z) : 0 ≤ s ≤ 63 → squareRank s = s / 8.
Proof.
  intros H. unfold squareRank. rewrite toInt32_small by lia.
  rewrite Z.shiftr_div_pow2 by lia. reflexivity.
Qed.

Lemma parseSquare_makeSquare (s : Z) :
  0 ≤ s ≤ 63 → parseSquare (makeSquare s) = Some s.
Proof.
  intros H.
  pose proof (range_forallb
    (λ s, bool_decide (parseSquare (makeSquare s) = Some s)) 0 64) as R.
  eapply bool_decide_eq_true_1. apply R; [vm_compute; reflexivity | lia].
Qed.

(** C5: on the squares 0..63, [squareFile] is the square modulo 8,
    [squareRank] is the square divided by 8, and [parseSquare] reads back
    the name [makeSquare] writes. *)
Theorem square_coordinates (s : Z) :
  0 ≤ s ≤ 63 →
  squareFile s = s mod 8 ∧ squareRank s = s / 8
  ∧ parseSquare (makeSquare s) = Some s.
Proof.
  intros H. split; [|split].
  - by apply squareFile_mod.
  - by apply squareRank_div.
  - by apply parseSquare_makeSquare.
Qed.

Lemma square_coordinates_witness :
  squareFile 28 = 28 mod 8 ∧ squareRank 28 = 28 / 8
  ∧ parseSquare (makeSquare 28) = Some 28.
Proof. apply (square_coordinates 28). lia. Defined.

(** ** The two utility modules *)

(** C10: the two implementations of [charToRole] agree on every string
    ([ok r] exactly when the other yields the role [r], [err] exactly when
    it yields [undefined]), and the two implementations of [opposite]
    return the same color. *)
Theorem utilities_agree :
  (∀ (c : JsString) (r : Role),
      UtilFp.charToRole c = UtilFp.ok r ↔ Util.charToRole c = Some r)
  ∧ (∀ c : JsString,
      UtilFp.charToRole c = UtilFp.err ↔ Util.charToRole c = None)
  ∧ (∀ c : Color, UtilFp.opposite c = Util.opposite c).
Proof.
  split; [|split].
  - intros c r. unfold UtilFp.charToRole, Util.charToRole.
    repeat (case_bool_decide; subst; simpl; [split; intros [=]; subst; reflexivity|]).
    split; intros [=].
  - intros c. unfold UtilFp.charToRole, Util.charToRole.
    repeat (case_bool_decide; subst; simpl; [split; intros [=]|]).
    done.
  - intros []; reflexivity.
Qed.

(** ** Moves in UCI notation *)

Lemma makeSquare_shape (s : Z) :
  0 ≤ s ≤ 63 →
  ∃ f r, makeSquare s = [f; r] ∧ 97 ≤ f ≤ 104 ∧ 49 ≤ r ≤ 56
         ∧ f - 97 + 8 * (r - 49) = s.
Proof.
  intros H.
  pose proof (range_forallb
    (λ s, match makeSquare s with
          | [f; r] => (97 <=? f) && (f <=? 104) && (49 <=? r) && (r <=? 56)
                      && (f - 97 + 8 * (r - 49) =? s)
          | _ => false
          end) 0 64) as R.
  specialize (R ltac:(vm_compute; reflexivity) s ltac:(lia)). simpl in R.
  destruct (makeSquare s) as [|f [|r [|? ?]]]; try discriminate.
  exists f, r. split; [done|]. lia.
Qed.

Lemma parseSquare_pair (f r : Z) :
  97 ≤ f ≤ 104 → 49 ≤ r ≤ 56 →
  parseSquare [f; r] = Some (f - 97 + 8 * (r - 49)).
Proof.
  intros Hf Hr. unfold parseSquare, inRange. 
  change (ch "a") with 97. change (ch "h") with 104.
  change (ch "1") with 49. change (ch "8") with 56.
  replace (97 <=? f) with true by lia. replace (f <=? 104) with true by lia.
  replace (49 <=? r) with true by lia. replace (r <=? 56) with true by lia.
  reflexivity.
Qed.

Lemma parseUci_four (f1 r1 f2 r2 : Z) :
  r1 ≠ 64 →
  parseUci [f1; r1; f2; r2] =
    match parseSquare [f1; r1], parseSquare [f2; r2] with
    | Some from, Some to => Some (NormalMove from to None)
    | _, _ => None
    end.
Proof.
  intros H. unfold parseUci.
  change (charAt [f1; r1; f2; r2] 1) with (Some [r1]).
  rewrite bool_decide_eq_false_2 by (intros [=]; done). reflexivity.
Qed.

Lemma parseUci_five (f1 r1 f2 r2 c : Z) :
  r1 ≠ 64 →
  parseUci [f1; r1; f2; r2; c] =
    match charToRole [c] with
    | None => None
    | Some p =>
        match parseSquare [f1; r1], parseSquare [f2; r2] with
        | Some from, Some to => Some (NormalMove from to (Some p))
        | _, _ => None
        end
    end.
Proof.
  intros H. unfold parseUci.
  change (charAt [f1; r1; f2; r2; c] 1) with (Some [r1]).
  rewrite bool_decide_eq_false_2 by (intros [=]; done).
  change (charToRoleAt (charAt [f1; r1; f2; r2; c] 4)) with (charToRole [c]).
  destruct (charToRole [c]); reflexivity.
Qed.

Lemma parseUci_drop (c f r : Z) :
  parseUci [c; 64; f; r] =
    match charToRole [c], parseSquare [f; r] with
    | Some role, Some to => Some (DropMove role to)
    | _, _ => None
    end.
Proof. reflexivity. Qed.

Lemma roleToChar_unit (r : Role) : roleToChar r = [roleUnit r].
Proof. by destruct r. Qed.

Lemma charToRole_roleUnit (r : Role) :
  charToRole [roleUnit r] = Some r ∧ charToRole [upperUnit (roleUnit r)] = Some r.
Proof. by destruct r. Qed.

(** C2: [parseUci (makeUci move)] is [move], for every normal move and
    every drop whose squares are in 0..63; both functions take the move or
    the string alone. *)
Theorem parseUci_makeUci (m : Move) :
  validMove m → parseUci (makeUci m) = Some m.
Proof.
  destruct m as [from to promotion | role to]; cbn [validMove makeUci].
  - intros [Hf Ht].
    destruct (makeSquare_shape from Hf) as (f1 & r1 & -> & Hf1 & Hr1 & E1).
    destruct (makeSquare_shape to Ht) as (f2 & r2 & -> & Hf2 & Hr2 & E2).
    destruct promotion as [p|].
    + rewrite roleToChar_unit. cbn [app]. rewrite parseUci_five by lia.
      rewrite (proj1 (charToRole_roleUnit p)), !parseSquare_pair by lia.
      by rewrite E1, E2.
    + cbn [app]. rewrite parseUci_four by lia.
      rewrite !parseSquare_pair by lia. by rewrite E1, E2.
  - intros Ht.
    destruct (makeSquare_shape to Ht) as (f2 & r2 & -> & Hf2 & Hr2 & E2).
    rewrite roleToChar_unit.
    change (toUpperCase [roleUnit role] ++ lit "@" ++ [f2; r2])
      with [upperUnit (roleUnit role); 64; f2; r2].
    rewrite parseUci_drop, (proj2 (charToRole_roleUnit role)).
    rewrite parseSquare_pair by lia. by rewrite E2.
Qed.

Lemma parseUci_makeUci_witness :
  parseUci (makeUci (NormalMove 52 60 (Some Queen))) = Some (NormalMove 52 60 (Some Queen))
  ∧ parseUci (makeUci (DropMove Knight 27)) = Some (DropMove Knight 27).
Proof.
  split.
  - apply (parseUci_makeUci (NormalMove 52 60 (Some Queen))). simpl. lia.
  - apply (parseUci_makeUci (DropMove Knight 27)). simpl. lia.
Defined.

Import Fen.

(** ** The parsers return *)

Lemma split_nonempty (sep : Z) (s : JsString) : split sep s ≠ [].
Proof.
  destruct s as [|c s]; simpl; [done|].
  destruct (c =? sep); [done|]. destruct (split sep s); done.
Qed.

Lemma list_ind2 {A} (P : list A → Prop) :
  P [] → (∀ a, P [a]) → (∀ a b l, P l → P (b :: l) → P (a :: b :: l)) →
  ∀ l, P l.
Proof.
  intros H0 H1 H2 l. enough (P l ∧ ∀ a, P (a :: l)) by tauto.
  induction l as [|b l [IH1 IH2]]; [split; auto|].
  split; [apply IH2|]. intros a. apply H2; auto.
Qed.

Lemma parseBoardFenLoop_error (s : JsString) (b : gmap Z Piece) (r f : Z) e :
  parseBoardFenLoop s b r f = Result.err e → e = mkFenError ERR_BOARD.
Proof.
  revert b r f. induction s as [|c|c t s IHs IHts] using list_ind2; intros b r f.
  - simpl. intros [=].
  - simpl. repeat (case_match; try (intros [=]; done)).
  - cbn [parseBoardFenLoop].
    repeat (case_match; eauto; try (intros [=]; done)).
Qed.

Lemma parseBoardFen_typed (s : JsString) :
  (∃ b, parseBoardFen s = Result.ok b) ∨ parseBoardFen s = fail ERR_BOARD.
Proof.
  unfold parseBoardFen.
  destruct (parseBoardFenLoop s Board.empty 7 0) as [[[b r] f]|e] eqn:E.
  - destruct (negb (r =? 0) || negb (f =? 8)); eauto.
  - right. apply parseBoardFenLoop_error in E. by subst.
Qed.

Lemma parsePocketsLoop_typed (s : JsString) (m : Material) :
  (∃ p, parsePocketsLoop s m = Result.ok p)
  ∨ parsePocketsLoop s m = fail ERR_POCKETS.
Proof.
  revert m. induction s as [|c s IH]; intros m; simpl; [eauto|].
  destruct (charToPiece [c]); [apply IH | by right].
Qed.

Lemma parseCastlingFen_typed (b : gmap Z Piece) (s : JsString) :
  (∃ u, parseCastlingFen b s = Result.ok u)
  ∨ parseCastlingFen b s = fail ERR_CASTLING.
Proof.
  unfold parseCastlingFen.
  case_bool_decide; [eauto|]. destruct (castlingRegex s); simpl; eauto.
Qed.

Lemma parseRemainingChecks_typed (s : JsString) :
  (∃ c, parseRemainingChecks s = Result.ok c)
  ∨ parseRemainingChecks s = fail ERR_REMAINING_CHECKS.
Proof.
  unfold parseRemainingChecks.
  repeat (case_match; eauto).
Qed.

Lemma parseFen_returns (fen : JsString) : ∃ r, parseFen fen = Returns r.
Proof.
  unfold parseFen.
  destruct (split (ch " ") fen) as [|boardPart parts] eqn:E.
  - by apply split_nonempty in E.
  - cbn [shift]. eauto.
Qed.

(** C3: every parser of [fen.ts] returns a result on every input string:
    [parseFen] never raises, it returns [ok] with a setup or [err] with a
    [FenError]; and each sub-parser returns [ok] or the error of its own
    kind ([ERR_BOARD], [ERR_POCKETS], [ERR_CASTLING],
    [ERR_REMAINING_CHECKS]). *)
Theorem parsers_total :
  (∀ fen, ∃ r, parseFen fen = Returns r
      ∧ ((∃ setup, r = Result.ok setup) ∨ (∃ kind, r = fail kind)))
  ∧ (∀ s, (∃ b, parseBoardFen s = Result.ok b) ∨ parseBoardFen s = fail ERR_BOARD)
  ∧ (∀ s, (∃ p, parsePockets s = Result.ok p) ∨ parsePockets s = fail ERR_POCKETS)
  ∧ (∀ b s, (∃ u, parseCastlingFen b s = Result.ok u)
            ∨ parseCastlingFen b s = fail ERR_CASTLING)
  ∧ (∀ s, (∃ c, parseRemainingChecks s = Result.ok c)
          ∨ parseRemainingChecks s = fail ERR_REMAINING_CHECKS).
Proof.
  split; [|split; [|split; [|split]]].
  - intros fen. destruct (parseFen_returns fen) as [r Hr]. exists r.
    split; [done|]. destruct r as [setup|[kind]]; eauto.
  - apply parseBoardFen_typed.
  - intros s. apply parsePocketsLoop_typed.
  - apply parseCastlingFen_typed.
  - apply parseRemainingChecks_typed.
Qed.

(** ** Castling rights read from a FEN *)

Lemma squareRank_of_file_rank (file rank : Z) :
  0 ≤ file ≤ 7 → 0 ≤ rank ≤ 7 → squareRank (file + 8 * rank) = rank.
Proof.
  intros Hf Hr. rewrite squareRank_div by lia.
  rewrite Z.mul_comm, Z.div_add by lia. rewrite Z.div_small; lia.
Qed.

Lemma scanFiles_home (b : gmap Z Piece) (c : Color) (files : list Z) (u : gset Z) :
  Forall (λ f, 0 ≤ f ≤ 7) files →
  (∀ sq, sq ∈ u → isHomeRook b sq) →
  ∀ sq, sq ∈ scanFiles b c (homeRank c) files u → isHomeRook b sq.
Proof.
  intros Hfiles Hu. induction Hfiles as [|f files Hf _ IH]; simpl; [done|].
  destruct (Board.get b (f + 8 * homeRank c)) as [p|] eqn:E; [|done].
  destruct (bool_decide (color p = c) && bool_decide (role p = King)); [done|].
  destruct (bool_decide (color p = c) && bool_decide (role p = Rook)) eqn:R; [|done].
  apply andb_true_iff in R as [Hc Hr].
  apply bool_decide_eq_true_1 in Hc, Hr.
  intros sq. unfold SquareSet.with_. rewrite elem_of_union, elem_of_singleton.
  intros [->|H]; [|by apply Hu].
  exists p. split; [done|]. split; [done|].
  rewrite Hc. apply squareRank_of_file_rank; [lia|]. destruct c; simpl; lia.
Qed.

Lemma castlingStep_home (b : gmap Z Piece) (u : gset Z) (c : Z) :
  isCastlingUpper c || isCastlingLower c = true →
  (∀ sq, sq ∈ u → isHomeRook b sq) →
  ∀ sq, sq ∈ castlingStep b u c → isHomeRook b sq.
Proof.
  intros Hc Hu. unfold castlingStep.
  set (col := if c =? lowerUnit c then Black else White).
  assert (Hrank : (if decide (col = White) then 0 else 7) = homeRank col)
    by (destruct col; reflexivity).
  rewrite Hrank. apply scanFiles_home; [|done].
  unfold isCastlingUpper, isCastlingLower, inRange, lowerUnit in *.
  change (ch "K") with 75 in *. change (ch "Q") with 81 in *.
  change (ch "A") with 65 in *. change (ch "H") with 72 in *.
  change (ch "Z") with 90 in *.
  change (ch "k") with 107 in *. change (ch "q") with 113 in *.
  change (ch "a") with 97 in *. change (ch "h") with 104 in *.
  repeat case_match; repeat constructor; lia.
Qed.

Lemma castlingRegex_chars (s : JsString) :
  castlingRegex s = true →
  Forall (λ c, isCastlingUpper c || isCastlingLower c = true) s.
Proof.
  unfold castlingRegex. rewrite existsb_exists.
  intros (n & _ & H).
  apply andb_true_iff in H as [H _]. apply andb_true_iff in H as [Hu Hl].
  rewrite <- (take_drop n s). apply Forall_app. split.
  - rewrite forallb_forall in Hu. apply Forall_forall. intros c Hc.
    rewrite Hu; [done|]. by apply list_elem_of_In.
  - rewrite forallb_forall in Hl. apply Forall_forall. intros c Hc.
    rewrite Hl; [apply orb_true_r|]. by apply list_elem_of_In.
Qed.

Lemma castlingFold_home (b : gmap Z Piece) (s : JsString) (u : gset Z) :
  Forall (λ c, isCastlingUpper c || isCastlingLower c = true) s →
  (∀ sq, sq ∈ u → isHomeRook b sq) →
  ∀ sq, sq ∈ foldl (castlingStep b) u s → isHomeRook b sq.
Proof.
  intros Hs. revert u. induction Hs as [|c s Hc _ IH]; intros u Hu; [exact Hu|].
  cbn [foldl]. apply IH. by apply castlingStep_home.
Qed.

(** C4: every square of the set that [parseCastlingFen] returns holds, on
    the given board, a rook standing on the home rank of its own color
    (rank 1 for white, rank 8 for black). *)
Theorem parseCastlingFen_home_rooks (b : gmap Z Piece) (str : JsString) (u : gset Z) :
  parseCastlingFen b str = Result.ok u →
  ∀ sq, sq ∈ u → isHomeRook b sq.
Proof.
  unfold parseCastlingFen. case_bool_decide.
  - intros [= <-] sq Hsq. unfold SquareSet.empty in Hsq. set_solver.
  - destruct (castlingRegex str) eqn:R; simpl; [|intros [=]].
    intros [= <-]. apply castlingFold_home.
    + by apply castlingRegex_chars.
    + unfold SquareSet.empty. set_solver.
Qed.

Lemma parseCastlingFen_home_rooks_witness :
  isHomeRook (<[0 := mkPiece Rook White false]> ∅) 0.
Proof.
  apply (parseCastlingFen_home_rooks
           (<[0 := mkPiece Rook White false]> ∅) (lit "Q")
           (SquareSet.with_ SquareSet.empty 0)).
  - vm_compute. reflexivity.
  - unfold SquareSet.with_. set_solver.
Defined.

(** ** Remaining checks, clocks and omitted fields *)

Lemma parseFen_both_remaining_checks (fen : JsString) (early late : JsString) :
  split (ch " ") fen !! 4%nat = Some early →
  includes early (ch "+") = true →
  split (ch " ") fen !! 7%nat = Some late →
  ∃ e, parseFen fen = Returns (Result.err e).
Proof.
  intros H4 Hinc H7. unfold parseFen.
  destruct (split (ch " ") fen) as [|b [|t [|c [|e [|h [|h2 [|f [|l rest]]]]]]]];
    try discriminate.
  simpl in H4, H7. injection H4 as ->. injection H7 as ->.
  cbn [shift]. cbv zeta.
  rewrite Hinc. cbn [shift].
  unfold fail, Result.chain, Result.map.
  repeat (case_match; simplify_eq; eauto).
Qed.

Lemma parseFen_fullmoves_positive (fen : JsString) (s : Setup) :
  parseFen fen = Returns (Result.ok s) → 1 ≤ fullmoves s.
Proof.
  intros H. unfold parseFen in H.
  unfold Result.chain, Result.map, fail in H.
  repeat (case_match; simplify_eq); simpl; lia.
Qed.

Lemma parseFen_fullmoves_zero (fen0 fen1 b t c e h : JsString) :
  split (ch " ") fen0 = [b; t; c; e; h; lit "0"] →
  split (ch " ") fen1 = [b; t; c; e; h; lit "1"] →
  includes h (ch "+") = false →
  parseFen fen0 = parseFen fen1.
Proof.
  intros H0 H1 Hh. unfold parseFen. rewrite H0, H1.
  cbn [shift]. cbv zeta. rewrite Hh. cbn [shift]. reflexivity.
Qed.

Lemma parseFen_omitted_fields (fen fen' : JsString) (parts : list JsString) :
  split (ch " ") fen = parts →
  (1 ≤ length parts ≤ 5)%nat →
  (∀ h, parts !! 4%nat = Some h → includes h (ch "+") = false) →
  split (ch " ") fen' = parts ++ drop (length parts - 1) defaultFields →
  parseFen fen = parseFen fen'.
Proof.
  intros H [Hlo Hhi] Hh H'. unfold parseFen. rewrite H, H'.
  destruct parts as [|b [|t [|c [|e [|h [|]]]]]]; simpl in Hlo, Hhi; try lia;
    cbn [length Nat.sub drop defaultFields app shift]; cbv zeta;
    try reflexivity.
  rewrite (Hh h) by reflexivity. cbn [shift]. reflexivity.
Qed.

Import BoardText.

(** ** The board fields that [parseBoardFen] accepts *)

Lemma charToPiece_table (c : Z) :
  charToPiece [c] =
    if c =? KELVIN then Some (mkPiece King White false) else pieceOfLetter c.
Proof.
  destruct (decide (0 ≤ c < 128)) as [Hc|Hc].
  - pose proof (range_forallb
      (λ c, bool_decide (charToPiece [c] =
         if c =? KELVIN then Some (mkPiece King White false) else pieceOfLetter c))
      0 128) as R.
    eapply bool_decide_eq_true_1. apply R; [vm_compute; reflexivity | lia].
  - destruct (c =? KELVIN) eqn:K.
    + apply Z.eqb_eq in K. subst c. reflexivity.
    + apply Z.eqb_neq in K. unfold KELVIN in K.
      unfold pieceOfLetter, charToPiece, toLowerCase, charToRole.
      cbn [fmap list_fmap]. 
      assert (lowerUnit c = c) as ->.
      { unfold lowerUnit. change (ch "A") with 65. change (ch "Z") with 90.
        repeat case_match; lia. }
      change (ch "p") with 112. change (ch "n") with 110. change (ch "b") with 98.
      change (ch "r") with 114. change (ch "q") with 113. change (ch "k") with 107.
      change (ch "P") with 80. change (ch "N") with 78. change (ch "B") with 66.
      change (ch "R") with 82. change (ch "Q") with 81. change (ch "K") with 75.
      rewrite (bool_decide_eq_true_2 ([c] = [c])) by done.
      repeat (case_bool_decide;
        [exfalso; match goal with E : [c] = _ |- _ =>
           vm_compute in E; injection E as E; lia end|]).
      simpl. repeat (case_match; [lia|]). reflexivity.
Qed.

Lemma isPieceLetter_cases (c : Z) :
  isPieceLetter c ↔
  c = 112 ∨ c = 110 ∨ c = 98 ∨ c = 114 ∨ c = 113 ∨ c = 107
  ∨ c = 80 ∨ c = 78 ∨ c = 66 ∨ c = 82 ∨ c = 81 ∨ c = 75.
Proof.
  unfold isPieceLetter. change (lit "pnbrqkPNBRQK") with
    [112; 110; 98; 114; 113; 107; 80; 78; 66; 82; 81; 75].
  rewrite !elem_of_cons, elem_of_nil. tauto.
Qed.

Lemma charToPiece_accepted (c : Z) :
  is_Some (charToPiece [c]) ↔ isAcceptedLetter c.
Proof.
  rewrite charToPiece_table. unfold isAcceptedLetter.
  rewrite isPieceLetter_cases. unfold KELVIN, pieceOfLetter.
  change (ch "p") with 112. change (ch "n") with 110. change (ch "b") with 98.
  change (ch "r") with 114. change (ch "q") with 113. change (ch "k") with 107.
  change (ch "P") with 80. change (ch "N") with 78. change (ch "B") with 66.
  change (ch "R") with 82. change (ch "Q") with 81. change (ch "K") with 75.
  repeat (case_match; [split; [intros _; lia | intros _; eauto]|]).
  split; [intros [? [=]] | lia].
Qed.

Lemma accepted_letter_range (c : Z) :
  isAcceptedLetter c → 65 ≤ c ≤ 90 ∨ 97 ≤ c ≤ 122 ∨ c = 8490.
Proof.
  unfold isAcceptedLetter, KELVIN. rewrite isPieceLetter_cases. lia.
Qed.

Lemma parseIntUnit_digit (n : Z) :
  0 ≤ n ≤ 9 → parseIntUnit (ch "0" + n) = Some n.
Proof.
  intros H. unfold parseIntUnit, isDigit, inRange.
  change (ch "0") with 48. change (ch "9") with 57.
  replace (48 <=? 48 + n) with true by lia.
  replace (48 + n <=? 57) with true by lia. simpl. f_equal. lia.
Qed.

Lemma parseIntUnit_not_digit (c : Z) :
  ¬ (48 ≤ c ≤ 57) → parseIntUnit c = None.
Proof.
  intros H. unfold parseIntUnit, isDigit, inRange.
  change (ch "0") with 48. change (ch "9") with 57.
  destruct (48 <=? c) eqn:E1; destruct (c <=? 57) eqn:E2; simpl; try done; lia.
Qed.

Lemma parseBoardFenLoop_slash (rest : JsString) (b : gmap Z Piece) (r : Z) :
  parseBoardFenLoop (ch "/" :: rest) b r 8 = parseBoardFenLoop rest b (r - 1) 0.
Proof. reflexivity. Qed.

Lemma parseBoardFenLoop_digit (n : Z) (rest : JsString) (b : gmap Z Piece) (r f : Z) :
  1 ≤ n ≤ 9 →
  parseBoardFenLoop (ch "0" + n :: rest) b r f = parseBoardFenLoop rest b r (f + n).
Proof.
  intros H. cbn [parseBoardFenLoop].
  change (ch "/") with 47. change (ch "0") with 48.
  replace (48 + n =? 47) with false by lia. cbn [andb].
  change 48 with (ch "0"). rewrite parseIntUnit_digit by lia.
  cbn [truthyNumber default]. replace (n =? 0) with false by lia.
  reflexivity.
Qed.

Lemma parseBoardFenLoop_tilde (l : Z) (p : Piece) (rest : JsString)
    (b : gmap Z Piece) (r f : Z) :
  charToPiece [l] = Some p → 0 ≤ r → f < 8 →
  parseBoardFenLoop (l :: ch "~" :: rest) b r f =
    parseBoardFenLoop rest (Board.set b (f + r * 8) (setPromoted p)) r (f + 1).
Proof.
  intros Hp Hr Hf.
  assert (isAcceptedLetter l) as Hl by (apply charToPiece_accepted; eauto).
  apply accepted_letter_range in Hl.
  cbn [parseBoardFenLoop]. change (ch "/") with 47.
  replace (l =? 47) with false by lia. cbn [andb].
  rewrite parseIntUnit_not_digit by lia. cbn [truthyNumber].
  replace (8 <=? f) with false by lia. replace (r <? 0) with false by lia.
  cbn [orb]. rewrite Hp. reflexivity.
Qed.

Lemma parseBoardFenLoop_plain (l : Z) (p : Piece) (rest : JsString)
    (b : gmap Z Piece) (r f : Z) :
  charToPiece [l] = Some p → 0 ≤ r → f < 8 → head rest ≠ Some (ch "~") →
  parseBoardFenLoop (l :: rest) b r f =
    parseBoardFenLoop rest (Board.set b (f + r * 8) p) r (f + 1).
Proof.
  intros Hp Hr Hf Hrest.
  assert (isAcceptedLetter l) as Hl by (apply charToPiece_accepted; eauto).
  apply accepted_letter_range in Hl.
  cbn [parseBoardFenLoop]. change (ch "/") with 47.
  replace (l =? 47) with false by lia. cbn [andb].
  rewrite parseIntUnit_not_digit by lia. cbn [truthyNumber].
  replace (8 <=? f) with false by lia. replace (r <? 0) with false by lia.
  cbn [orb]. rewrite Hp.
  destruct rest as [|t rest]; [reflexivity|].
  destruct (t =? ch "~") eqn:E; [|reflexivity].
  apply Z.eqb_eq in E. subst. by destruct Hrest.
Qed.

Lemma rankWidth_nonneg (ok : Z → Prop) (items : list Item) :
  Forall (validItem ok) items → 0 ≤ rankWidth items.
Proof.
  induction 1 as [|i items Hi _ IH]; simpl; [lia|].
  destruct i; simpl in *; lia.
Qed.

Lemma rankText_head (items : list Item) (rest : JsString) :
  Forall (validItem isAcceptedLetter) items →
  head rest ≠ Some (ch "~") →
  head (rankText items ++ rest) ≠ Some (ch "~").
Proof.
  intros Hitems Hrest. destruct Hitems as [|i items Hi _]; [exact Hrest|].
  destruct i as [n|l t]; simpl in *.
  - change (ch "0") with 48. change (ch "~") with 126. intros [=]. lia.
  - apply accepted_letter_range in Hi. change (ch "~") with 126.
    intros [=]. lia.
Qed.

Lemma parseBoardFenLoop_items (items : list Item) (rest : JsString)
    (b : gmap Z Piece) (r f : Z) :
  Forall (validItem isAcceptedLetter) items →
  0 ≤ r → f + rankWidth items ≤ 8 →
  head rest ≠ Some (ch "~") →
  parseBoardFenLoop (rankText items ++ rest) b r f =
    parseBoardFenLoop rest (placeRank items b r f) r (f + rankWidth items).
Proof.
  intros Hitems Hr. revert b f.
  induction Hitems as [|i items Hi Hitems IH]; intros b f Hf Hrest.
  - simpl. by rewrite Z.add_0_r.
  - pose proof (rankWidth_nonneg _ _ Hitems) as Hw.
    change (rankText (i :: items)) with (itemText i ++ rankText items).
    change (rankWidth (i :: items)) with (width i + rankWidth items) in *.
    rewrite <- app_assoc.
    destruct i as [n|l t]; cbn [itemText width validItem placeRank app] in *.
    + rewrite parseBoardFenLoop_digit by lia.
      rewrite IH by (done || lia). f_equal. lia.
    + apply charToPiece_accepted in Hi as [p Hp].
      unfold pieceOfItem. rewrite Hp. cbn [fmap option_fmap option_map].
      destruct t; cbn [app].
      * rewrite (parseBoardFenLoop_tilde _ p) by (done || lia).
        rewrite IH by (done || lia). f_equal. lia.
      * rewrite (parseBoardFenLoop_plain _ p) by
          (done || lia || by apply rankText_head).
        rewrite IH by (done || lia). f_equal. lia.
Qed.

Lemma boardText_cons (items : list Item) (ranks : list (list Item)) :
  ranks ≠ [] →
  boardText (items :: ranks) = rankText items ++ ch "/" :: boardText ranks.
Proof. destruct ranks; [done|reflexivity]. Qed.

Lemma parseBoardFenLoop_ranks (ranks : list (list Item)) (b : gmap Z Piece)
    (r f : Z) :
  ranks ≠ [] →
  Forall (Forall (validItem isAcceptedLetter)) ranks →
  f + rankWidth (default [] (head ranks)) = 8 →
  Forall (λ items, rankWidth items = 8) (tail ranks) →
  Z.of_nat (length ranks) ≤ r + 1 →
  parseBoardFenLoop (boardText ranks) b r f =
    Result.ok (placeRanks ranks b r f, r + 1 - Z.of_nat (length ranks), 8).
Proof.
  intros Hne Hvalid. revert b r f Hne.
  induction Hvalid as [|items ranks Hitems Hvalid IH]; intros b r f Hne Hf Hw Hr;
    [done|].
  destruct ranks as [|items' ranks']; cbn [head tail default length] in *;
    unfold id in *.
  - change (boardText [items]) with (rankText items).
    rewrite <- (app_nil_r (rankText items)).
    rewrite parseBoardFenLoop_items by (done || lia).
    cbn [parseBoardFenLoop placeRanks length]. do 2 f_equal; [f_equal|]; lia.
  - rewrite boardText_cons by done.
    rewrite parseBoardFenLoop_items; [|done|lia|lia|by intros [=]].
    rewrite Hf. rewrite parseBoardFenLoop_slash.
    inversion Hw as [|? ? Hw1 Hw2]; subst.
    rewrite IH; [|done|cbn [head default]; unfold id; lia|done|cbn [length]; lia].
    cbn [placeRanks length]. do 2 f_equal. f_equal. lia.
Qed.

Lemma parseBoardFen_complete (ranks : list (list Item)) :
  wellFormed isAcceptedLetter ranks →
  parseBoardFen (boardText ranks) = Result.ok (boardOf ranks).
Proof.
  intros [Hlen Hranks]. unfold parseBoardFen.
  rewrite parseBoardFenLoop_ranks.
  - rewrite Hlen. reflexivity.
  - by destruct ranks.
  - eapply Forall_impl; [exact Hranks|]. by intros ? [? ?].
  - destruct ranks as [|items ranks]; [done|]. inversion Hranks as [|? ? [? ?] ?].
    simpl. lia.
  - destruct ranks as [|items ranks]; [done|]. inversion Hranks; subst. simpl.
    eapply Forall_impl; [eassumption|]. by intros ? [? ?].
  - rewrite Hlen. lia.
Qed.

Lemma parseIntUnit_Some (c d : Z) :
  parseIntUnit c = Some d → 48 ≤ c ≤ 57 ∧ c = ch "0" + d.
Proof.
  unfold parseIntUnit, isDigit, inRange.
  change (ch "0") with 48. change (ch "9") with 57.
  destruct (48 <=? c) eqn:E1; destruct (c <=? 57) eqn:E2; simpl;
    intros [=]; lia.
Qed.

Lemma boardText_item (i : Item) (items : list Item) (ranks : list (list Item)) :
  boardText ((i :: items) :: ranks) = itemText i ++ boardText (items :: ranks).
Proof.
  destruct ranks as [|r ranks].
  - reflexivity.
  - unfold boardText. cbn [fmap list_fmap join].
    change (rankText (i :: items)) with (itemText i ++ rankText items).
    by rewrite <- app_assoc.
Qed.

Lemma parseBoardFenLoop_sound (n : nat) (s : JsString) (b b' : gmap Z Piece)
    (r f : Z) :
  (length s ≤ n)%nat → 0 ≤ f →
  parseBoardFenLoop s b r f = Result.ok (b', 0, 8) →
  ∃ items ranks,
    s = boardText (items :: ranks)
    ∧ Forall (Forall (validItem isAcceptedLetter)) (items :: ranks)
    ∧ f + rankWidth items = 8
    ∧ Forall (λ items, rankWidth items = 8) ranks
    ∧ Z.of_nat (length ranks) = r
    ∧ b' = placeRanks (items :: ranks) b r f.
Proof.
  revert s b r f. induction n as [|n IH]; intros s b r f Hn Hf.
  { destruct s; [|simpl in Hn; lia]. simpl. intros [= -> -> ->].
    exists [], []. repeat split; auto. }
  destruct s as [|c rest].
  { simpl. intros [= -> -> ->]. exists [], []. repeat split; auto. }
  cbn [length] in Hn. cbn [parseBoardFenLoop].
  destruct ((c =? ch "/") && (f =? 8)) eqn:Eslash.
  { apply andb_true_iff in Eslash as [Ec Ef].
    apply Z.eqb_eq in Ec, Ef. subst c f. intros H.
    apply IH in H as (items & ranks & -> & Hv & Hw & Hws & Hlen & ->);
      [|lia|lia].
    exists [], (items :: ranks). split_and!.
    - done.
    - by constructor.
    - done.
    - by constructor.
    - cbn [length]. lia.
    - done. }
  destruct (parseIntUnit c) as [d|] eqn:Ed; cbn [truthyNumber default].
  - destruct (d =? 0) eqn:Ed0; cbn [negb].
    + apply parseIntUnit_Some in Ed as [Hc ->]. apply Z.eqb_eq in Ed0. subst d.
      destruct ((8 <=? f) || (r <? 0)); [intros [=]|].
      rewrite charToPiece_table. intros [=].
    + apply parseIntUnit_Some in Ed as [Hc ->]. apply Z.eqb_neq in Ed0.
      change (ch "0") with 48 in Hc. unfold id. intros H.
      apply IH in H as (items & ranks & -> & Hv & Hw & Hws & Hlen & ->);
        [|lia|lia].
      inversion Hv as [|? ? Hv1 Hv2]; subst.
      pose proof (rankWidth_nonneg _ _ Hv1).
      exists (Empties d :: items), ranks. split_and!.
      * by rewrite boardText_item.
      * constructor; [|done]. constructor; [simpl; lia|done].
      * simpl. lia.
      * done.
      * done.
      * done.
  - destruct ((8 <=? f) || (r <? 0)) eqn:Eb; [intros [=]|].
    apply orb_false_iff in Eb as [Ef Er].
    destruct (charToPiece [c]) as [p|] eqn:Ep; [|intros [=]].
    assert (isAcceptedLetter c) as Hc by (apply charToPiece_accepted; eauto).
    assert (∀ t (rest' : JsString) (q : Piece),
      pieceOfItem c t = Some q → (length rest' ≤ n)%nat →
      rest = (if t then [ch "~"] else []) ++ rest' →
      parseBoardFenLoop rest' (Board.set b (f + r * 8) q) r (f + 1)
        = Result.ok (b', 0, 8) →
      ∃ items ranks,
        c :: rest = boardText (items :: ranks)
        ∧ Forall (Forall (validItem isAcceptedLetter)) (items :: ranks)
        ∧ f + rankWidth items = 8
        ∧ Forall (λ items, rankWidth items = 8) ranks
        ∧ Z.of_nat (length ranks) = r
        ∧ b' = placeRanks (items :: ranks) b r f) as Hcase.
    { intros t rest' q Hq Hlen -> H.
      apply IH in H as (items & ranks & -> & Hv & Hw & Hws & Hl & ->);
        [|lia|lia].
      inversion Hv as [|? ? Hv1 Hv2]; subst.
      exists (Occupied c t :: items), ranks. split_and!.
      * rewrite boardText_item. cbn [itemText app]. by destruct t.
      * constructor; [|done]. constructor; done.
      * simpl. lia.
      * done.
      * done.
      * cbn [placeRanks placeRank]. by rewrite Hq. }
    destruct rest as [|t rest'].
    + apply (Hcase false []); [|simpl; lia|done].
      unfold pieceOfItem. by rewrite Ep.
    + destruct (t =? ch "~") eqn:Et.
      * apply Z.eqb_eq in Et. subst t.
        apply (Hcase true rest'); [|simpl in Hn; lia|done].
        unfold pieceOfItem. by rewrite Ep.
      * apply (Hcase false (t :: rest')); [|lia|done].
        unfold pieceOfItem. by rewrite Ep.
Qed.

(** [parseBoardFen] accepts exactly the texts of eight ranks of width
    eight over the letters that [charToPiece] reads, and returns the board
    the text describes. *)
Theorem parseBoardFen_accepts (s : JsString) (b : gmap Z Piece) :
  parseBoardFen s = Result.ok b ↔
  ∃ ranks, wellFormed isAcceptedLetter ranks
           ∧ s = boardText ranks ∧ b = boardOf ranks.
Proof.
  split.
  - unfold parseBoardFen.
    destruct (parseBoardFenLoop s Board.empty 7 0) as [[[b' r] f]|e] eqn:E;
      [|intros [=]].
    destruct (r =? 0) eqn:Er; [|intros [=]].
    destruct (f =? 8) eqn:Ef; [|intros [=]].
    cbn [negb orb]. intros [= ->].
    apply Z.eqb_eq in Er, Ef. subst r f.
    apply (parseBoardFenLoop_sound (length s)) in E
      as (items & ranks & -> & Hv & Hw & Hws & Hlen & ->); [|lia|lia].
    exists (items :: ranks). split_and!; [|done|done]. split.
    + cbn [length]. lia.
    + inversion Hv; subst. constructor; [split; [done|lia]|].
      apply Forall_forall. intros x Hx. split.
      * by eapply Forall_forall in Hx; [|eassumption].
      * by eapply Forall_forall in Hx; [|exact Hws].
  - intros (ranks & Hwf & -> & ->). by apply parseBoardFen_complete.
Qed.

Lemma rankText_chars (ok : Z → Prop) (items : list Item) (c : Z) :
  Forall (validItem ok) items → c ∈ rankText items →
  c = ch "~" ∨ 49 ≤ c ≤ 56 ∨ ok c.
Proof.
  induction 1 as [|i items Hi _ IH].
  - intros H. by apply elem_of_nil in H.
  - change (rankText (i :: items)) with (itemText i ++ rankText items).
    rewrite elem_of_app. intros [H|H]; [|by apply IH].
    destruct i as [n|l t]; simpl in *.
    + apply list_elem_of_singleton in H. subst. change (ch "0") with 48. lia.
    + apply elem_of_cons in H as [->|H]; [auto|].
      destruct t; [|by apply elem_of_nil in H].
      apply list_elem_of_singleton in H. auto.
Qed.

Lemma boardText_chars (ok : Z → Prop) (ranks : list (list Item)) (c : Z) :
  Forall (Forall (validItem ok)) ranks → c ∈ boardText ranks →
  c = ch "/" ∨ c = ch "~" ∨ 49 ≤ c ≤ 56 ∨ ok c.
Proof.
  induction 1 as [|items ranks Hi Hr IH].
  - intros H. by apply elem_of_nil in H.
  - destruct ranks as [|items' ranks'].
    + intros H. right. by eapply rankText_chars.
    + rewrite boardText_cons by done. rewrite elem_of_app, elem_of_cons.
      intros [H|[->|H]]; [right; by eapply rankText_chars|by left|by apply IH].
Qed.

Lemma rankText_letter (items : list Item) (l : Z) (t : bool) :
  Occupied l t ∈ items → l ∈ rankText items.
Proof.
  induction items as [|i items IH]; [by intros ?%elem_of_nil|].
  change (rankText (i :: items)) with (itemText i ++ rankText items).
  rewrite elem_of_cons, elem_of_app. intros [<-|H]; [|right; by apply IH].
  left. simpl. apply elem_of_cons. by left.
Qed.

Lemma boardText_letter (ranks : list (list Item)) (items : list Item)
    (l : Z) (t : bool) :
  items ∈ ranks → Occupied l t ∈ items → l ∈ boardText ranks.
Proof.
  induction ranks as [|r ranks IH]; [by intros ?%elem_of_nil|].
  intros Hin Hl. destruct ranks as [|r' ranks'].
  - apply list_elem_of_singleton in Hin. subst. by eapply rankText_letter.
  - rewrite boardText_cons by done. rewrite elem_of_app, elem_of_cons.
    apply elem_of_cons in Hin as [->|Hin].
    + left. by eapply rankText_letter.
    + right. right. by apply IH.
Qed.

(** On a string without the Kelvin sign the accepted texts are those over
    the twelve piece letters. *)
Lemma parseBoardFen_accepts_piece_letters (s : JsString) (b : gmap Z Piece) :
  KELVIN ∉ s →
  parseBoardFen s = Result.ok b ↔
  ∃ ranks, wellFormed isPieceLetter ranks
           ∧ s = boardText ranks ∧ b = boardOf ranks.
Proof.
  intros Hk. rewrite parseBoardFen_accepts. split.
  - intros (ranks & [Hlen Hwf] & -> & ->). exists ranks. split; [|done].
    split; [done|]. apply Forall_forall. intros items Hitems.
    pose proof (proj1 (Forall_forall _ _) Hwf items Hitems) as [Hv Hw].
    split; [|done]. apply Forall_forall. intros [n|l t] Hi.
    + exact (proj1 (Forall_forall _ _) Hv _ Hi).
    + pose proof (proj1 (Forall_forall _ _) Hv _ Hi) as [Hl|Hl]; [done|].
      simpl in Hl. subst l. destruct Hk. by eapply boardText_letter.
  - intros (ranks & [Hlen Hwf] & -> & ->). exists ranks. split; [|done].
    split; [done|]. eapply Forall_impl; [exact Hwf|].
    intros items [Hv Hw]. split; [|done].
    eapply Forall_impl; [exact Hv|]. intros [n|l t]; simpl; [done|].
    intros Hl. by left.
Qed.

(** ** A board field alone *)

Lemma occurrences_cons (c x : Z) (s : JsString) :
  occurrences c (x :: s) = ((if decide (x = c) then 1 else 0) + occurrences c s)%nat.
Proof.
  unfold occurrences. rewrite filter_cons. by destruct (decide (x = c)).
Qed.

Lemma occurrences_app (c : Z) (s t : JsString) :
  occurrences c (s ++ t) = (occurrences c s + occurrences c t)%nat.
Proof. unfold occurrences. by rewrite filter_app, length_app. Qed.

Lemma occurrences_zero (c : Z) (s : JsString) :
  c ∉ s → occurrences c s = 0%nat.
Proof.
  induction s as [|x s IH]; [done|]. rewrite not_elem_of_cons.
  intros [Hx Hs]. rewrite occurrences_cons, IH by done.
  by destruct (decide (x = c)); [subst|].
Qed.

Lemma indexOfAux_spec (s : JsString) (c pos from : Z) :
  0 ≤ pos →
  (indexOfAux s c pos from = -1
   ∧ occurrences c (drop (Z.to_nat (from - pos)) s) = 0%nat)
  ∨ (pos ≤ indexOfAux s c pos from ∧ from ≤ indexOfAux s c pos from
     ∧ S (occurrences c (drop (Z.to_nat (indexOfAux s c pos from + 1 - pos)) s))
       = occurrences c (drop (Z.to_nat (from - pos)) s)).
Proof.
  revert pos. induction s as [|x s IH]; intros pos Hpos.
  - left. by rewrite drop_nil.
  - cbn [indexOfAux].
    destruct ((from <=? pos) && (x =? c)) eqn:E.
    + apply andb_true_iff in E as [E1 E2].
      apply Z.leb_le in E1. apply Z.eqb_eq in E2. subst x.
      right. split_and!; [lia|lia|].
      replace (Z.to_nat (pos + 1 - pos)) with 1%nat by lia.
      replace (Z.to_nat (from - pos)) with 0%nat by lia.
      cbn [drop]. rewrite occurrences_cons. by rewrite decide_True.
    + assert (Hdrop : occurrences c (drop (Z.to_nat (from - pos)) (x :: s))
                = occurrences c (drop (Z.to_nat (from - (pos + 1))) s)).
      { destruct (decide (from ≤ pos)) as [Hle|Hgt].
        - replace (Z.to_nat (from - pos)) with 0%nat by lia.
          replace (Z.to_nat (from - (pos + 1))) with 0%nat by lia.
          cbn [drop]. rewrite occurrences_cons.
          apply andb_false_iff in E as [E|E]; [apply Z.leb_gt in E; lia|].
          apply Z.eqb_neq in E. by rewrite decide_False.
        - replace (Z.to_nat (from - pos)) with (S (Z.to_nat (from - (pos + 1))))
            by lia.
          reflexivity. }
      rewrite Hdrop.
      destruct (IH (pos + 1) ltac:(lia)) as [[H1 H2]|(H1 & H2 & H3)].
      * left. done.
      * right. split_and!; [lia|lia|].
        rewrite <- H3.
        replace (Z.to_nat (indexOfAux s c (pos + 1) from + 1 - pos))
          with (S (Z.to_nat (indexOfAux s c (pos + 1) from + 1 - (pos + 1))))
          by lia.
        reflexivity.
Qed.

Lemma indexOf_spec (s : JsString) (c from : Z) :
  0 ≤ from →
  (indexOf s c from = -1 ∧ occurrences c (drop (Z.to_nat from) s) = 0%nat)
  ∨ (from ≤ indexOf s c from
     ∧ S (occurrences c (drop (Z.to_nat (indexOf s c from + 1)) s))
       = occurrences c (drop (Z.to_nat from) s)).
Proof.
  intros Hfrom. unfold indexOf.
  destruct (indexOfAux_spec s c 0 from ltac:(lia)) as [[H1 H2]|(H1 & H2 & H3)].
  - left. by rewrite Z.sub_0_r in H2.
  - right. rewrite !Z.sub_0_r in H3. done.
Qed.

Lemma nthIndexOfLoop_none (k : nat) (s : JsString) (c idx : Z) :
  idx = -1 ∨ (0 ≤ idx ∧ (occurrences c (drop (Z.to_nat (idx + 1)) s) < k)%nat) →
  UtilFp.nthIndexOfLoop k s c idx = -1.
Proof.
  revert idx. induction k as [|k IH]; intros idx [->|[H0 H]]; simpl;
    try done; try lia.
  replace (idx =? -1) with false by lia.
  apply IH.
  destruct (indexOf_spec s c (idx + 1) ltac:(lia)) as [[H1 H2]|[H1 H2]].
  - by left.
  - right. split; lia.
Qed.

Lemma nthIndexOf_none (s : JsString) (c n : Z) :
  (occurrences c s ≤ Z.to_nat n)%nat → UtilFp.nthIndexOf s c n = -1.
Proof.
  intros H. unfold UtilFp.nthIndexOf. apply nthIndexOfLoop_none.
  destruct (indexOf_spec s c 0 ltac:(lia)) as [[H1 H2]|[H1 H2]].
  - by left.
  - right. change (Z.to_nat 0) with 0%nat in H2. rewrite drop_0 in H2.
    split; lia.
Qed.

Lemma split_no_sep (sep : Z) (s : JsString) :
  sep ∉ s → split sep s = [s].
Proof.
  induction s as [|c s IH]; [done|]. rewrite not_elem_of_cons. intros [Hc Hs].
  simpl. replace (c =? sep) with false by lia. by rewrite IH.
Qed.

Lemma last_elem_of (s : JsString) (c : Z) : last s = Some c → c ∈ s.
Proof.
  intros H. apply last_Some in H as [l' ->]. apply elem_of_app. right.
  by apply list_elem_of_singleton.
Qed.

Lemma endsWith_false (s : JsString) (c : Z) : c ∉ s → endsWith s c = false.
Proof.
  intros H. unfold endsWith. apply bool_decide_eq_false_2.
  intros Hl. by apply last_elem_of in Hl.
Qed.

Lemma boardText_not_elem (ranks : list (list Item)) (c : Z) :
  Forall (Forall (validItem isAcceptedLetter)) ranks →
  c ≠ ch "/" → c ≠ ch "~" → ¬ (49 ≤ c ≤ 56) → ¬ isAcceptedLetter c →
  c ∉ boardText ranks.
Proof.
  intros Hv H1 H2 H3 H4 Hc.
  destruct (boardText_chars _ _ _ Hv Hc) as [?|[?|[?|?]]]; done.
Qed.

Lemma rankText_no_slash (items : list Item) :
  Forall (validItem isAcceptedLetter) items → ch "/" ∉ rankText items.
Proof.
  intros Hv Hc.
  destruct (rankText_chars _ _ _ Hv Hc) as [H|[H|H]].
  - discriminate H.
  - change (ch "/") with 47 in H. lia.
  - apply accepted_letter_range in H. change (ch "/") with 47 in H. lia.
Qed.

Lemma boardText_slashes (ranks : list (list Item)) :
  Forall (Forall (validItem isAcceptedLetter)) ranks →
  occurrences (ch "/") (boardText ranks) = (length ranks - 1)%nat.
Proof.
  induction 1 as [|items ranks Hi Hr IH]; [done|].
  destruct ranks as [|items' ranks'].
  - change (boardText [items]) with (rankText items).
    by rewrite occurrences_zero by by apply rankText_no_slash.
  - rewrite boardText_cons by done.
    rewrite occurrences_app, occurrences_cons, IH.
    rewrite occurrences_zero by by apply rankText_no_slash.
    rewrite decide_True by done. cbn [length]. lia.
Qed.

Lemma not_accepted_letter (c : Z) :
  ¬ (65 ≤ c ≤ 90 ∨ 97 ≤ c ≤ 122 ∨ c = 8490) → ¬ isAcceptedLetter c.
Proof. intros H Hc. by apply accepted_letter_range in Hc. Qed.

(** A FEN that is the board field alone: every other field takes its
    default. *)
Lemma parseFen_board_only (boardPart : JsString) (b : gmap Z Piece) :
  parseBoardFen boardPart = Result.ok b →
  parseFen boardPart = Returns (Result.ok
    {| board := b; pockets := None; turn := White;
       unmovedRooks := SquareSet.empty; remainingChecks := None;
       epSquare := None; halfmoves := 0; fullmoves := 1 |}).
Proof.
  intros Hb. pose proof Hb as Hb'.
  apply parseBoardFen_accepts in Hb' as (ranks & [Hlen Hwf] & -> & ->).
  assert (Forall (Forall (validItem isAcceptedLetter)) ranks) as Hv.
  { eapply Forall_impl; [exact Hwf|]. by intros ? [? ?]. }
  unfold parseFen.
  rewrite split_no_sep
    by (apply boardText_not_elem; try done; try (change (ch " ") with 32; lia);
        apply not_accepted_letter; change (ch " ") with 32; lia).
  cbn [shift].
  rewrite endsWith_false
    by (apply boardText_not_elem; try done; try (change (ch "]") with 93; lia);
        apply not_accepted_letter; change (ch "]") with 93; lia).
  rewrite nthIndexOf_none by (rewrite boardText_slashes, Hlen by done; simpl; lia).
  rewrite Hb. reflexivity.
Qed.

(** C6: [parseBoardFen] accepts a string that is not a board text of the
    notation: the Kelvin sign U+212A is no piece letter, yet it is read as
    a white king, because [toLowerCase] sends it to [k]. *)
Theorem parseBoardFen_kelvin_sign :
  parseBoardFen (KELVIN :: lit "7/8/8/8/8/8/8/8")
    = Result.ok (<[56 := mkPiece King White false]> ∅)
  ∧ ¬ isPieceLetter KELVIN
  ∧ ¬ ∃ ranks, wellFormed isPieceLetter ranks
               ∧ KELVIN :: lit "7/8/8/8/8/8/8/8" = boardText ranks.
Proof.
  split_and!.
  - vm_compute. reflexivity.
  - rewrite isPieceLetter_cases. unfold KELVIN. lia.
  - intros (ranks & [_ Hwf] & Htext).
    assert (KELVIN ∈ boardText ranks) as Hk
      by (rewrite <- Htext; apply elem_of_cons; by left).
    apply (boardText_chars isPieceLetter) in Hk.
    + rewrite isPieceLetter_cases in Hk. unfold KELVIN in Hk.
      change (ch "/") with 47 in Hk. change (ch "~") with 126 in Hk. lia.
    + eapply Forall_impl; [exact Hwf|]. by intros ? [? ?].
Qed.

(** C7: when a FEN has a remaining-checks token in the fifth field and a
    remaining-checks field again in the eighth, and the two counts differ,
    [parseFen] returns an error.  (By [parseFen_both_remaining_checks] the
    error comes whenever both fields are present.) *)
Theorem parseFen_conflicting_remaining_checks
    (fen early late : JsString) (r1 r2 : RemainingChecks) :
  split (ch " ") fen !! 4%nat = Some early →
  includes early (ch "+") = true →
  split (ch " ") fen !! 7%nat = Some late →
  parseRemainingChecks early = Result.ok r1 →
  parseRemainingChecks late = Result.ok r2 →
  r1 ≠ r2 →
  ∃ e, parseFen fen = Returns (Result.err e).
Proof.
  intros H4 Hinc H7 _ _ _. by eapply parseFen_both_remaining_checks.
Qed.

Lemma parseFen_conflicting_remaining_checks_witness :
  ∃ e, parseFen (lit "8/8/8/8/8/8/8/8 w - - 1+2 0 1 3+0") = Returns (Result.err e).
Proof.
  apply (parseFen_conflicting_remaining_checks
           (lit "8/8/8/8/8/8/8/8 w - - 1+2 0 1 3+0") (lit "1+2") (lit "3+0")
           (mkRemainingChecks 1 2) (mkRemainingChecks 3 0));
    [reflexivity | reflexivity | reflexivity | reflexivity | reflexivity
    | discriminate].
Defined.

(** ** Formatting and parsing back: the fields *)

Lemma split_app_sep (sep : Z) (p rest : JsString) :
  sep ∉ p → split sep (p ++ sep :: rest) = p :: split sep rest.
Proof.
  induction p as [|c p IH]; intros Hp.
  - simpl. by rewrite Z.eqb_refl.
  - apply not_elem_of_cons in Hp as [Hc Hp]. cbn [app split].
    replace (c =? sep) with false by lia. by rewrite IH.
Qed.

Lemma split_join (sep : Z) (parts : list JsString) :
  parts ≠ [] → Forall (λ p, sep ∉ p) parts →
  split sep (join [sep] parts) = parts.
Proof.
  intros Hne Hparts. induction Hparts as [|p parts Hp Hparts IH]; [done|].
  destruct parts as [|q parts].
  - simpl. by apply split_no_sep.
  - change (join [sep] (p :: q :: parts)) with (p ++ [sep] ++ join [sep] (q :: parts)).
    cbn [app]. rewrite split_app_sep by done. by rewrite IH.
Qed.

Lemma numToString_small (n : Z) :
  0 ≤ n ≤ 9999 →
  parseSmallUint (numToString n) = Some n
  ∧ (ch " " ∉ numToString n) ∧ (ch "+" ∉ numToString n).
Proof.
  intros H.
  pose proof (range_forallb
    (λ n, bool_decide (parseSmallUint (numToString n) = Some n)
          && negb (includes (numToString n) (ch " "))
          && negb (includes (numToString n) (ch "+"))) 0 10000) as R.
  specialize (R ltac:(vm_compute; reflexivity) n ltac:(lia)). cbv beta in R.
  apply andb_true_iff in R as [R R3]. apply andb_true_iff in R as [R1 R2].
  apply bool_decide_eq_true_1 in R1. apply negb_true_iff in R2, R3.
  unfold includes in R2, R3. apply bool_decide_eq_false_1 in R2, R3. done.
Qed.

Lemma numToString_digit (n : Z) :
  0 ≤ n ≤ 9 → numToString n = [ch "0" + n].
Proof.
  intros H.
  pose proof (range_forallb
    (λ n, bool_decide (numToString n = [ch "0" + n])) 0 10) as R.
  eapply bool_decide_eq_true_1. apply R; [vm_compute; reflexivity | lia].
Qed.

Lemma remainingChecks_round_trip (checks : RemainingChecks) :
  0 ≤ rcWhite checks ≤ 3 → 0 ≤ rcBlack checks ≤ 3 →
  parseRemainingChecks (makeRemainingChecks checks) = Result.ok checks
  ∧ includes (makeRemainingChecks checks) (ch "+") = true
  ∧ (ch " " ∉ makeRemainingChecks checks).
Proof.
  destruct checks as [w b]. cbn [rcWhite rcBlack]. intros Hw Hb.
  assert (w = 0 ∨ w = 1 ∨ w = 2 ∨ w = 3) as Hw' by lia.
  assert (b = 0 ∨ b = 1 ∨ b = 2 ∨ b = 3) as Hb' by lia.
  destruct Hw' as [->|[->|[->| ->]]]; destruct Hb' as [->|[->|[->| ->]]];
    (split_and!; [vm_compute; reflexivity | vm_compute; reflexivity
                 | apply (bool_decide_eq_false_1 _); vm_compute; reflexivity]).
Qed.

(** *** Pockets *)

Lemma material_ext (m1 m2 : Material) :
  (∀ c r, Material.count (Material.side m1 c) r
          = Material.count (Material.side m2 c) r) →
  m1 = m2.
Proof.
  intros H. destruct m1 as [[] []], m2 as [[] []].
  pose proof (H White Pawn). pose proof (H White Knight).
  pose proof (H White Bishop). pose proof (H White Rook).
  pose proof (H White Queen). pose proof (H White King).
  pose proof (H Black Pawn). pose proof (H Black Knight).
  pose proof (H Black Bishop). pose proof (H Black Rook).
  pose proof (H Black Queen). pose proof (H Black King).
  simpl in *. congruence.
Qed.

Lemma count_incr (m : Material) (c c' : Color) (r r' : Role) :
  Material.count (Material.side (Material.incr m c r) c') r'
  = Material.count (Material.side m c') r'
    + (if decide (c = c' ∧ r = r') then 1 else 0).
Proof.
  destruct m as [[] []], c, c', r, r'; simpl; lia.
Qed.

Lemma strRepeatLoop_replicate (n : nat) (c : Z) (r : JsString) :
  UtilFp.strRepeatLoop n [c] r = r ++ replicate n c.
Proof.
  revert r. induction n as [|n IH]; intros r; simpl.
  - by rewrite app_nil_r.
  - by rewrite IH, <- app_assoc.
Qed.

Lemma strRepeat_replicate (c n : Z) :
  UtilFp.strRepeat [c] n = replicate (Z.to_nat n) c.
Proof. unfold UtilFp.strRepeat. by rewrite strRepeatLoop_replicate. Qed.

Lemma parsePocketsLoop_replicate (n : nat) (c : Z) (p : Piece)
    (rest : JsString) (m : Material) :
  charToPiece [c] = Some p →
  parsePocketsLoop (replicate n c ++ rest) m
  = parsePocketsLoop rest (Nat.iter n (λ m, Material.incr m (color p) (role p)) m).
Proof.
  intros Hp. revert m. induction n as [|n IH]; intros m; [done|].
  cbn [replicate app parsePocketsLoop]. rewrite Hp, IH.
  by rewrite Nat.iter_succ_r.
Qed.

Lemma count_iter_incr (n : nat) (m : Material) (c c' : Color) (r r' : Role) :
  Material.count (Material.side (Nat.iter n (λ m, Material.incr m c r) m) c') r'
  = Material.count (Material.side m c') r'
    + (if decide (c = c' ∧ r = r') then Z.of_nat n else 0).
Proof.
  induction n as [|n IH].
  - simpl. case_decide; lia.
  - rewrite Nat.iter_succ, count_incr, IH. case_decide; lia.
Qed.

Lemma makePockets_text (m : Material) :
  makePockets m =
    replicate (Z.to_nat (pawn (white m))) (ch "P")
    ++ replicate (Z.to_nat (knight (white m))) (ch "N")
    ++ replicate (Z.to_nat (bishop (white m))) (ch "B")
    ++ replicate (Z.to_nat (rook (white m))) (ch "R")
    ++ replicate (Z.to_nat (queen (white m))) (ch "Q")
    ++ replicate (Z.to_nat (king (white m))) (ch "K")
    ++ replicate (Z.to_nat (pawn (black m))) (ch "p")
    ++ replicate (Z.to_nat (knight (black m))) (ch "n")
    ++ replicate (Z.to_nat (bishop (black m))) (ch "b")
    ++ replicate (Z.to_nat (rook (black m))) (ch "r")
    ++ replicate (Z.to_nat (queen (black m))) (ch "q")
    ++ replicate (Z.to_nat (king (black m))) (ch "k").
Proof.
  unfold makePockets, makePocket, ROLES.
  cbn [fmap list_fmap join roleToChar Material.count].
  change (lit "p") with [ch "p"]. change (lit "n") with [ch "n"].
  change (lit "b") with [ch "b"]. change (lit "r") with [ch "r"].
  change (lit "q") with [ch "q"]. change (lit "k") with [ch "k"].
  rewrite !strRepeat_replicate. cbn [app].
  unfold toUpperCase. rewrite !fmap_app, !fmap_replicate.
  rewrite <- !app_assoc. reflexivity.
Qed.

Lemma parsePockets_makePockets (m : Material) :
  nonNegative m → parsePockets (makePockets m) = Result.ok m.
Proof.
  intros Hm. rewrite makePockets_text. unfold parsePockets.
  rewrite (parsePocketsLoop_replicate _ _ (mkPiece Pawn White false)) by reflexivity.
  rewrite (parsePocketsLoop_replicate _ _ (mkPiece Knight White false)) by reflexivity.
  rewrite (parsePocketsLoop_replicate _ _ (mkPiece Bishop White false)) by reflexivity.
  rewrite (parsePocketsLoop_replicate _ _ (mkPiece Rook White false)) by reflexivity.
  rewrite (parsePocketsLoop_replicate _ _ (mkPiece Queen White false)) by reflexivity.
  rewrite (parsePocketsLoop_replicate _ _ (mkPiece King White false)) by reflexivity.
  rewrite (parsePocketsLoop_replicate _ _ (mkPiece Pawn Black false)) by reflexivity.
  rewrite (parsePocketsLoop_replicate _ _ (mkPiece Knight Black false)) by reflexivity.
  rewrite (parsePocketsLoop_replicate _ _ (mkPiece Bishop Black false)) by reflexivity.
  rewrite (parsePocketsLoop_replicate _ _ (mkPiece Rook Black false)) by reflexivity.
  rewrite (parsePocketsLoop_replicate _ _ (mkPiece Queen Black false)) by reflexivity.
  rewrite <- (app_nil_r (replicate _ (ch "k"))).
  rewrite (parsePocketsLoop_replicate _ _ (mkPiece King Black false)) by reflexivity.
  cbn [parsePocketsLoop color role]. f_equal.
  apply material_ext. intros c r.
  rewrite !count_iter_incr.
  pose proof (Hm White Pawn). pose proof (Hm White Knight).
  pose proof (Hm White Bishop). pose proof (Hm White Rook).
  pose proof (Hm White Queen). pose proof (Hm White King).
  pose proof (Hm Black Pawn). pose proof (Hm Black Knight).
  pose proof (Hm Black Bishop). pose proof (Hm Black Rook).
  pose proof (Hm Black Queen). pose proof (Hm Black King).
  destruct c, r; simpl in *; try lia;
    repeat (case_decide as H; [destruct H; simplify_eq|]); lia.
Qed.

(** *** The board *)

Lemma makePiece_text (p : Piece) (opts : option FenOpts) :
  makePiece p opts
  = itemText (Occupied (pieceLetter p) (optOf opts optPromoted && promoted p)).
Proof.
  unfold makePiece, pieceLetter. destruct p as [r c pr]. cbn [role color promoted].
  destruct (optOf opts optPromoted && pr); destruct c, r; reflexivity.
Qed.

Lemma pieceOfItem_pieceLetter (p : Piece) (t : bool) :
  pieceOfItem (pieceLetter p) t = Some (mkPiece (role p) (color p) t).
Proof. destruct p as [r c pr]. destruct t, c, r; reflexivity. Qed.

Lemma pieceLetter_accepted (p : Piece) : isPieceLetter (pieceLetter p).
Proof.
  rewrite isPieceLetter_cases.
  destruct p as [r c pr]. destruct c, r; vm_compute; tauto.
Qed.

Lemma flushEmpty_text (fen : JsString) (e : Z) :
  0 ≤ e ≤ 9 →
  flushEmpty (fen, e) = (fen ++ rankText (flushItems e), 0).
Proof.
  intros He. unfold flushEmpty, flushItems.
  destruct (e =? 0) eqn:E; cbn [negb].
  - apply Z.eqb_eq in E. subst. by rewrite app_nil_r.
  - rewrite numToString_digit by lia. reflexivity.
Qed.

Lemma rankText_app (a b : list Item) :
  rankText (a ++ b) = rankText a ++ rankText b.
Proof. unfold rankText. by rewrite fmap_app, concat_app. Qed.

Lemma makeBoardFenRank_fold (board : gmap Z Piece) (opts : option FenOpts)
    (rank : Z) (init : list Z) (fen : JsString) (e : Z) :
  7 ∉ init → 0 ≤ e → e + Z.of_nat (length init) + 1 ≤ 8 →
  foldl (makeBoardFenSquare board opts rank) (fen, e) (init ++ [7])
  = (fen ++ rankText (rankItems board opts rank (init ++ [7]) e)
         ++ (if rank =? 0 then [] else lit "/"), 0).
Proof.
  revert fen e. induction init as [|f init IH]; intros fen e H7 He Hlen.
  - cbn [app foldl rankItems length] in *. unfold makeBoardFenSquare.
    unfold Board.get. change (7 =? 7) with true. cbv iota.
    destruct (board !! (7 + rank * 8)) as [p|]; cbn [fst snd].
    + rewrite (flushEmpty_text fen e) by lia. cbn [fst snd].
      rewrite flushEmpty_text by lia. cbn [fst snd flushItems].
      change (rankText (if 0 =? 0 then [] else [Empties 0])) with (@nil Z).
      rewrite app_nil_r, makePiece_text, rankText_app.
      change (rankText (Occupied ?l ?t :: flushItems 0))
        with (itemText (Occupied l t) ++ []).
      rewrite app_nil_r.
      destruct (rank =? 0); cbn [negb]; by rewrite <- ?app_assoc, ?app_nil_r.
    + rewrite flushEmpty_text by lia. cbn [fst snd].
      destruct (rank =? 0); cbn [negb]; by rewrite <- ?app_assoc, ?app_nil_r.
  - apply not_elem_of_cons in H7 as [Hf H7].
    cbn [app foldl rankItems length] in *. rewrite Nat2Z.inj_succ in Hlen.
    unfold makeBoardFenSquare at 2. unfold Board.get.
    replace (f =? 7) with false by lia. cbv iota.
    destruct (board !! (f + rank * 8)) as [p|]; cbn [fst snd].
    + rewrite (flushEmpty_text fen e) by lia. cbn [fst snd].
      rewrite IH by (done || lia).
      rewrite makePiece_text, rankText_app.
      change (rankText (Occupied ?l ?t :: ?rest))
        with (itemText (Occupied l t) ++ rankText rest).
      by rewrite <- !app_assoc.
    + rewrite IH by (done || lia). done.
Qed.

Lemma makeBoardFen_text (board : gmap Z Piece) (opts : option FenOpts) :
  makeBoardFen board opts = boardText (boardItems board opts).
Proof.
  assert (∀ rank fen,
    makeBoardFenRank board opts (fen, 0) rank
    = (fen ++ rankText (rankItems board opts rank [0; 1; 2; 3; 4; 5; 6; 7] 0)
           ++ (if rank =? 0 then [] else lit "/"), 0)) as Hrank.
  { intros rank fen. unfold makeBoardFenRank.
    change [0; 1; 2; 3; 4; 5; 6; 7] with ([0; 1; 2; 3; 4; 5; 6] ++ [7]).
    apply makeBoardFenRank_fold; [|lia|simpl; lia].
    rewrite !elem_of_cons, elem_of_nil. lia. }
  unfold makeBoardFen. cbn [foldl]. rewrite !Hrank. cbn [fst].
  unfold boardItems, boardText. cbn [fmap list_fmap join].
  change (7 =? 0) with false. change (6 =? 0) with false.
  change (5 =? 0) with false. change (4 =? 0) with false.
  change (3 =? 0) with false. change (2 =? 0) with false.
  change (1 =? 0) with false. change (0 =? 0) with true. cbv iota.
  rewrite <- !app_assoc, app_nil_r. reflexivity.
Qed.

Lemma rankItems_width (board : gmap Z Piece) (opts : option FenOpts)
    (rank : Z) (files : list Z) (e : Z) :
  rankWidth (rankItems board opts rank files e) = e + Z.of_nat (length files).
Proof.
  revert e. induction files as [|f files IH]; intros e.
  - simpl. unfold flushItems. destruct (e =? 0) eqn:E; simpl; lia.
  - cbn [rankItems length]. rewrite Nat2Z.inj_succ.
    destruct (board !! (f + rank * 8)) as [p|].
    + unfold flushItems. destruct (e =? 0) eqn:E; simpl; rewrite IH; lia.
    + rewrite IH. lia.
Qed.

Lemma rankItems_valid (board : gmap Z Piece) (opts : option FenOpts)
    (rank : Z) (files : list Z) (e : Z) :
  0 ≤ e → e + Z.of_nat (length files) ≤ 8 →
  Forall (validItem isPieceLetter) (rankItems board opts rank files e).
Proof.
  revert e. induction files as [|f files IH]; intros e He Hlen.
  - simpl. unfold flushItems. destruct (e =? 0) eqn:E; repeat constructor.
    + lia.
    + simpl in Hlen. lia.
  - cbn [rankItems length] in *. rewrite Nat2Z.inj_succ in Hlen.
    destruct (board !! (f + rank * 8)) as [p|].
    + apply Forall_app. split.
      * unfold flushItems. destruct (e =? 0) eqn:E; repeat constructor; lia.
      * constructor; [apply pieceLetter_accepted|]. apply IH; lia.
    + apply IH; lia.
Qed.

Lemma boardItems_wellFormed (board : gmap Z Piece) (opts : option FenOpts) :
  wellFormed isPieceLetter (boardItems board opts).
Proof.
  split; [reflexivity|]. unfold boardItems. cbn [fmap list_fmap].
  repeat constructor; try (apply rankItems_valid; simpl; lia);
    rewrite rankItems_width; reflexivity.
Qed.

Lemma wellFormed_accepted (ranks : list (list Item)) :
  wellFormed isPieceLetter ranks → wellFormed isAcceptedLetter ranks.
Proof.
  intros [Hlen Hwf]. split; [done|]. eapply Forall_impl; [exact Hwf|].
  intros items [Hv Hw]. split; [|done].
  eapply Forall_impl; [exact Hv|]. intros [n|l t]; simpl; [done|]. by left.
Qed.

Lemma placeRank_flush (e : Z) (items : list Item) (b : gmap Z Piece) (rank file : Z) :
  placeRank (flushItems e ++ items) b rank file = placeRank items b rank (file + e).
Proof.
  unfold flushItems. destruct (e =? 0) eqn:E; cbn [app placeRank]; [|done].
  apply Z.eqb_eq in E. subst. by rewrite Z.add_0_r.
Qed.

Lemma placeRank_rankItems (board : gmap Z Piece) (opts : option FenOpts)
    (rank : Z) (n : nat) (k e : Z) (b : gmap Z Piece) (sq : Z) :
  placeRank (rankItems board opts rank (seqZ k (Z.of_nat n)) e) b rank (k - e) !! sq
  = if decide (k ≤ sq - rank * 8 < k + Z.of_nat n)
    then match board !! sq with
         | Some p => Some (shownPiece opts p)
         | None => b !! sq
         end
    else b !! sq.
Proof.
  revert k e b. induction n as [|n IH]; intros k e b.
  - change (seqZ k (Z.of_nat 0)) with (@nil Z). cbn [rankItems].
    rewrite <- (app_nil_r (flushItems e)), placeRank_flush. cbn [placeRank].
    case_decide; [lia|done].
  - rewrite seqZ_cons by lia. cbn [rankItems].
    replace (Z.pred (Z.of_nat (S n))) with (Z.of_nat n) by lia.
    destruct (board !! (k + rank * 8)) as [p|] eqn:Ep.
    + rewrite placeRank_flush. cbn [placeRank].
      rewrite pieceOfItem_pieceLetter.
      replace (k - e + e + 1) with (Z.succ k - 0) by lia.
      rewrite IH. replace (k - e + e) with k by lia.
      fold (shownPiece opts p).
      destruct (decide (sq = k + rank * 8)) as [->|Hne].
      * rewrite lookup_insert_eq, Ep.
        case_decide; [lia|]. case_decide; [done|lia].
      * rewrite lookup_insert_ne by done.
        repeat case_decide; try done; lia.
    + replace (k - e) with (Z.succ k - (e + 1)) by lia. rewrite IH.
      destruct (decide (sq = k + rank * 8)) as [->|Hne].
      * rewrite Ep. case_decide; [lia|]. case_decide; [done|lia].
      * repeat case_decide; try done; lia.
Qed.

Lemma boardOf_boardItems (board : gmap Z Piece) (opts : option FenOpts) :
  (∀ sq, sq ∈ dom board → 0 ≤ sq ≤ 63) →
  boardOf (boardItems board opts) = shownPiece opts <$> board.
Proof.
  intros Hdom. apply map_eq. intros sq.
  unfold boardOf, boardItems. cbn [fmap list_fmap placeRanks].
  change [0; 1; 2; 3; 4; 5; 6; 7] with (seqZ 0 (Z.of_nat 8)).
  change 0 with (0 - 0) at 3 5 7 9 11 13 15 17.
  rewrite !placeRank_rankItems.
  rewrite lookup_fmap, lookup_empty.
  destruct (board !! sq) as [p|] eqn:Ep; cbn [fmap option_fmap option_map].
  - assert (0 ≤ sq ≤ 63) by (apply Hdom, elem_of_dom; eauto).
    repeat (case_decide; [done|]). lia.
  - by repeat case_decide.
Qed.

(** The board round trip: what is read back is the board as shown. *)
Lemma parseBoardFen_makeBoardFen (board : gmap Z Piece) (opts : option FenOpts) :
  (∀ sq, sq ∈ dom board → 0 ≤ sq ≤ 63) →
  parseBoardFen (makeBoardFen board opts) = Result.ok (shownPiece opts <$> board).
Proof.
  intros Hdom. rewrite makeBoardFen_text.
  rewrite parseBoardFen_complete
    by apply wellFormed_accepted, boardItems_wellFormed.
  by rewrite boardOf_boardItems.
Qed.

Lemma makeBoardFen_not_elem (board : gmap Z Piece) (opts : option FenOpts) (c : Z) :
  c ≠ ch "/" → c ≠ ch "~" → ¬ (49 ≤ c ≤ 56) →
  ¬ (65 ≤ c ≤ 90 ∨ 97 ≤ c ≤ 122 ∨ c = 8490) →
  c ∉ makeBoardFen board opts.
Proof.
  intros H1 H2 H3 H4. rewrite makeBoardFen_text.
  apply boardText_not_elem; try done.
  - destruct (wellFormed_accepted _ (boardItems_wellFormed board opts)) as [_ H].
    eapply Forall_impl; [exact H|]. by intros ? [? ?].
  - by apply not_accepted_letter.
Qed.

Lemma makeBoardFen_slashes (board : gmap Z Piece) (opts : option FenOpts) :
  occurrences (ch "/") (makeBoardFen board opts) = 7%nat.
Proof.
  rewrite makeBoardFen_text, boardText_slashes; [reflexivity|].
  destruct (wellFormed_accepted _ (boardItems_wellFormed board opts)) as [_ H].
  eapply Forall_impl; [exact H|]. by intros ? [? ?].
Qed.

(** *** Castling rights *)

Lemma elem_of_pieces (board : gmap Z Piece) (c : Color) (r : Role) (sq : Z) :
  sq ∈ Board.pieces board c r ↔
  ∃ p, board !! sq = Some p ∧ color p = c ∧ role p = r.
Proof.
  unfold Board.pieces. rewrite elem_of_dom. split.
  - intros [p Hp]. apply map_lookup_filter_Some in Hp as [Hp [Hc Hr]]. eauto.
  - intros (p & Hp & Hc & Hr). exists p. by apply map_lookup_filter_Some.
Qed.

Lemma elem_of_fromRank (rank sq : Z) :
  sq ∈ SquareSet.fromRank rank ↔ ∃ f, 0 ≤ f ≤ 7 ∧ sq = f + 8 * rank.
Proof.
  unfold SquareSet.fromRank. rewrite elem_of_list_to_set, list_elem_of_fmap.
  split.
  - intros (f & -> & Hf). apply elem_of_seqZ in Hf. exists f. split; [lia|done].
  - intros (f & Hf & ->). exists f. split; [done|]. apply elem_of_seqZ. lia.
Qed.

Lemma elem_of_candidates (board : gmap Z Piece) (c : Color) (sq : Z) :
  sq ∈ candidates board c ↔
  ∃ p f, board !! sq = Some p ∧ color p = c ∧ role p = Rook
         ∧ 0 ≤ f ≤ 7 ∧ sq = f + 8 * homeRank c.
Proof.
  unfold candidates, SquareSet.intersect.
  rewrite elem_of_intersection, elem_of_pieces, elem_of_fromRank.
  split.
  - intros [(p & Hp & Hc & Hr) (f & Hf & Hsq)]. by exists p, f.
  - intros (p & f & Hp & Hc & Hr & Hf & Hsq). split; [by exists p|by exists f].
Qed.

Lemma elem_of_ascending (s : gset Z) (x : Z) :
  x ∈ SquareSet.ascending s ↔ x ∈ s ∧ 0 ≤ x < 64.
Proof.
  unfold SquareSet.ascending. rewrite list_elem_of_filter, elem_of_seqZ.
  split; intros [? ?]; split; auto; lia.
Qed.

Lemma elem_of_reversed (s : gset Z) (x : Z) :
  x ∈ SquareSet.reversed s ↔ x ∈ s ∧ 0 ≤ x < 64.
Proof. unfold SquareSet.reversed. by rewrite elem_of_reverse, elem_of_ascending. Qed.

Lemma head_filter_seqZ (P : Z → Prop) `{∀ x, Decision (P x)} (k : Z) (n : nat) (x : Z) :
  head (filter P (seqZ k (Z.of_nat n))) = Some x →
  P x ∧ k ≤ x < k + Z.of_nat n ∧ ∀ y, k ≤ y < k + Z.of_nat n → P y → x ≤ y.
Proof.
  revert k. induction n as [|n IH]; intros k.
  - change (seqZ k (Z.of_nat 0)) with (@nil Z). intros [=].
  - rewrite seqZ_cons by lia.
    replace (Z.pred (Z.of_nat (S n))) with (Z.of_nat n) by lia.
    rewrite filter_cons. destruct (decide (P k)) as [Hk|Hk].
    + intros [= <-]. split; [done|]. split; [lia|]. intros y Hy _. lia.
    + intros Hx. apply IH in Hx as (Hp & Hr & Hmin).
      split; [done|]. split; [lia|]. intros y Hy Py.
      destruct (decide (y = k)) as [->|Hne]; [done|]. apply Hmin; [lia|done].
Qed.

Lemma last_filter_seqZ (P : Z → Prop) `{∀ x, Decision (P x)} (k : Z) (n : nat) (x : Z) :
  last (filter P (seqZ k (Z.of_nat n))) = Some x →
  P x ∧ k ≤ x < k + Z.of_nat n ∧ ∀ y, k ≤ y < k + Z.of_nat n → P y → y ≤ x.
Proof.
  induction n as [|n IH].
  - change (seqZ k (Z.of_nat 0)) with (@nil Z). intros [=].
  - replace (Z.of_nat (S n)) with (Z.of_nat n + 1) by lia.
    rewrite seqZ_app by lia. change (seqZ (k + Z.of_nat n) 1) with [k + Z.of_nat n].
    rewrite filter_app, filter_cons, filter_nil.
    destruct (decide (P (k + Z.of_nat n))) as [Hk|Hk].
    + rewrite last_snoc. intros [= <-]. split; [done|]. split; [lia|].
      intros y Hy _. lia.
    + rewrite app_nil_r. intros Hx. apply IH in Hx as (Hp & Hr & Hmax).
      split; [done|]. split; [lia|]. intros y Hy Py.
      destruct (decide (y = k + Z.of_nat n)) as [->|Hne]; [done|].
      apply Hmax; [lia|done].
Qed.

Lemma first_spec (s : gset Z) (x : Z) :
  SquareSet.first s = Some x →
  x ∈ s ∧ 0 ≤ x < 64 ∧ ∀ y, 0 ≤ y < 64 → y ∈ s → x ≤ y.
Proof.
  unfold SquareSet.first, SquareSet.ascending. intros H.
  by apply (head_filter_seqZ _ 0 64) in H.
Qed.

Lemma last_spec (s : gset Z) (x : Z) :
  SquareSet.last s = Some x →
  x ∈ s ∧ 0 ≤ x < 64 ∧ ∀ y, 0 ≤ y < 64 → y ∈ s → y ≤ x.
Proof.
  unfold SquareSet.last, SquareSet.reversed, SquareSet.ascending.
  rewrite head_reverse. intros H.
  by apply (last_filter_seqZ _ 0 64) in H.
Qed.

Lemma kingOf_unique (board : gmap Z Piece) (c : Color) (k sq : Z) (p : Piece) :
  Board.kingOf board c = Some k →
  board !! sq = Some p → color p = c → role p = King → sq = k.
Proof.
  unfold Board.kingOf. intros Hk Hp Hc Hr.
  assert (sq ∈ elements (Board.pieces board c King)) as Hin.
  { apply elem_of_elements, elem_of_pieces. eauto. }
  destruct (elements (Board.pieces board c King)) as [|k' [|? ?]];
    try discriminate.
  injection Hk as <-. by apply list_elem_of_singleton in Hin.
Qed.

Lemma scanFiles_hit (b : gmap Z Piece) (c : Color) (rank : Z)
    (pre post : list Z) (file : Z) (u : gset Z) (p : Piece) :
  Forall (λ f, ∀ q, b !! (f + 8 * rank) = Some q → color q = c →
                    role q ≠ King ∧ role q ≠ Rook) pre →
  b !! (file + 8 * rank) = Some p → color p = c → role p = Rook →
  scanFiles b c rank (pre ++ file :: post) u = SquareSet.with_ u (file + 8 * rank).
Proof.
  intros Hpre Hp Hc Hr. induction Hpre as [|f pre Hf _ IH].
  - cbn [app scanFiles]. unfold Board.get. rewrite Hp.
    rewrite (bool_decide_eq_true_2 _ Hc). rewrite Hr. reflexivity.
  - cbn [app scanFiles]. unfold Board.get.
    destruct (b !! (f + 8 * rank)) as [q|] eqn:Eq; [|exact IH].
    destruct (decide (color q = c)) as [Hq|Hq].
    + destruct (Hf q eq_refl Hq) as [Hk Hrk].
      rewrite (bool_decide_eq_true_2 _ Hq).
      rewrite (bool_decide_eq_false_2 _ Hk), (bool_decide_eq_false_2 _ Hrk).
      exact IH.
    + rewrite (bool_decide_eq_false_2 _ Hq). exact IH.
Qed.

Lemma files_ascending_split (f : Z) :
  0 ≤ f ≤ 7 →
  [0; 1; 2; 3; 4; 5; 6; 7] = seqZ 0 f ++ f :: seqZ (f + 1) (7 - f).
Proof.
  intros H.
  assert (f = 0 ∨ f = 1 ∨ f = 2 ∨ f = 3 ∨ f = 4 ∨ f = 5 ∨ f = 6 ∨ f = 7)
    as [->|[->|[->|[->|[->|[->|[->| ->]]]]]]] by lia; reflexivity.
Qed.

Lemma files_descending_split (f : Z) :
  0 ≤ f ≤ 7 →
  [7; 6; 5; 4; 3; 2; 1; 0]
  = reverse (seqZ (f + 1) (7 - f)) ++ f :: reverse (seqZ 0 f).
Proof.
  intros H.
  assert (f = 0 ∨ f = 1 ∨ f = 2 ∨ f = 3 ∨ f = 4 ∨ f = 5 ∨ f = 6 ∨ f = 7)
    as [->|[->|[->|[->|[->|[->|[->| ->]]]]]]] by lia; reflexivity.
Qed.

Lemma file_letter_upper (f : Z) :
  0 ≤ f ≤ 7 → charAt (lit "ABCDEFGH") f = Some [ch "A" + f].
Proof.
  intros H.
  assert (f = 0 ∨ f = 1 ∨ f = 2 ∨ f = 3 ∨ f = 4 ∨ f = 5 ∨ f = 6 ∨ f = 7)
    as [->|[->|[->|[->|[->|[->|[->| ->]]]]]]] by lia; reflexivity.
Qed.

Lemma file_letter_lower (f : Z) :
  0 ≤ f ≤ 7 → charAt (lit "abcdefgh") f = Some [ch "a" + f].
Proof.
  intros H.
  assert (f = 0 ∨ f = 1 ∨ f = 2 ∨ f = 3 ∨ f = 4 ∨ f = 5 ∨ f = 6 ∨ f = 7)
    as [->|[->|[->|[->|[->|[->|[->| ->]]]]]]] by lia; reflexivity.
Qed.

Lemma castlingStep_file_upper (b : gmap Z Piece) (u : gset Z) (f : Z) :
  0 ≤ f ≤ 7 →
  castlingStep b u (ch "A" + f) = scanFiles b White 0 [f] u.
Proof.
  intros H.
  assert (f = 0 ∨ f = 1 ∨ f = 2 ∨ f = 3 ∨ f = 4 ∨ f = 5 ∨ f = 6 ∨ f = 7)
    as [->|[->|[->|[->|[->|[->|[->| ->]]]]]]] by lia; reflexivity.
Qed.

Lemma castlingStep_file_lower (b : gmap Z Piece) (u : gset Z) (f : Z) :
  0 ≤ f ≤ 7 →
  castlingStep b u (ch "a" + f) = scanFiles b Black 7 [f] u.
Proof.
  intros H.
  assert (f = 0 ∨ f = 1 ∨ f = 2 ∨ f = 3 ∨ f = 4 ∨ f = 5 ∨ f = 6 ∨ f = 7)
    as [->|[->|[->|[->|[->|[->|[->| ->]]]]]]] by lia; reflexivity.
Qed.

Lemma land_file (f h : Z) :
  0 ≤ f ≤ 7 → 0 ≤ h ≤ 7 → Z.land (toInt32 (f + 8 * h)) 7 = f.
Proof.
  intros Hf Hh. rewrite toInt32_small by lia.
  change 7 with (Z.ones 3). rewrite Z.land_ones by lia.
  change (2 ^ 3) with 8. rewrite Z.mul_comm, Z.mod_add by lia.
  apply Z.mod_small. lia.
Qed.

Lemma shown_lookup (board : gmap Z Piece) (opts : option FenOpts) (sq : Z) (q : Piece) :
  (shownPiece opts <$> board) !! sq = Some q →
  ∃ q0, board !! sq = Some q0 ∧ color q0 = color q ∧ role q0 = role q.
Proof.
  rewrite lookup_fmap. destruct (board !! sq) as [q0|]; [|intros [=]].
  intros [= <-]. by exists q0.
Qed.

Lemma castlingLetter_step (board : gmap Z Piece) (opts : option FenOpts)
    (shredder : bool) (c : Color) (rook : Z) :
  rook ∈ candidates board c →
  ∃ ltr,
    castlingLetter shredder c (Board.kingOf board c) (candidates board c) rook
      = [ltr]
    ∧ (if decide (c = White) then isCastlingUpper ltr = true
       else isCastlingLower ltr = true)
    ∧ ∀ u, castlingStep (shownPiece opts <$> board) u ltr
           = SquareSet.with_ u rook.
Proof.
  intros Hrook.
  apply elem_of_candidates in Hrook as (p & f & Hp & Hcol & Hrole & Hf & ->).
  set (b' := shownPiece opts <$> board).
  assert (Hp' : b' !! (f + 8 * homeRank c) = Some (shownPiece opts p))
    by (unfold b'; by rewrite lookup_fmap, Hp).
  assert (Hh : 0 ≤ homeRank c ≤ 7) by (destruct c; simpl; lia).
  (* no rook of the color stands on a home square where no candidate is *)
  assert (Hcand : ∀ f' q, 0 ≤ f' ≤ 7 → b' !! (f' + 8 * homeRank c) = Some q →
            color q = c → role q = Rook → f' + 8 * homeRank c ∈ candidates board c).
  { intros f' q Hf' Hq Hqc Hqr. apply shown_lookup in Hq as (q0 & Hq0 & Hc0 & Hr0).
    apply elem_of_candidates. exists q0, f'. split_and!; congruence || lia. }
  unfold castlingLetter.
  destruct (negb shredder
            && bool_decide (Some (f + 8 * homeRank c)
                            = SquareSet.first (candidates board c))
            && truthyNumber (Board.kingOf board c)
            && (f + 8 * homeRank c <? default 0 (Board.kingOf board c))) eqn:EQ.
  { apply andb_true_iff in EQ as [EQ Hlt]. apply andb_true_iff in EQ as [EQ Hk].
    apply andb_true_iff in EQ as [_ Hfirst].
    apply bool_decide_eq_true_1 in Hfirst. symmetry in Hfirst.
    apply first_spec in Hfirst as (_ & _ & Hmin).
    destruct (Board.kingOf board c) as [k|] eqn:Ek; [|discriminate].
    cbn [default from_option] in Hlt. unfold id in Hlt. apply Z.ltb_lt in Hlt.
    exists (if decide (c = White) then ch "Q" else ch "q").
    split; [by destruct c|]. split; [by destruct c|]. intros u.
    assert (castlingStep b' u (if decide (c = White) then ch "Q" else ch "q")
            = scanFiles b' c (homeRank c) [0; 1; 2; 3; 4; 5; 6; 7] u) as ->
      by (by destruct c).
    rewrite (files_ascending_split f) by done.
    apply (scanFiles_hit _ _ _ _ _ _ _ (shownPiece opts p)); [|done|done|done].
    apply Forall_forall. intros f' Hf' q Hq Hqc. apply elem_of_seqZ in Hf'.
    split; intros Hqr.
    - apply shown_lookup in Hq as (q0 & Hq0 & Hc0 & Hr0).
      assert (f' + 8 * homeRank c = k)
        by (eapply kingOf_unique; [exact Ek|exact Hq0|congruence|congruence]).
      lia.
    - assert (f + 8 * homeRank c ≤ f' + 8 * homeRank c); [|lia].
      apply Hmin; [lia|]. by apply (Hcand f' q); [lia|..]. }
  destruct (negb shredder
            && bool_decide (Some (f + 8 * homeRank c)
                            = SquareSet.last (candidates board c))
            && truthyNumber (Board.kingOf board c)
            && (default 0 (Board.kingOf board c) <? f + 8 * homeRank c)) eqn:EK.
  { apply andb_true_iff in EK as [EK Hlt]. apply andb_true_iff in EK as [EK Hk].
    apply andb_true_iff in EK as [_ Hlast].
    apply bool_decide_eq_true_1 in Hlast. symmetry in Hlast.
    apply last_spec in Hlast as (_ & _ & Hmax).
    destruct (Board.kingOf board c) as [k|] eqn:Ek; [|discriminate].
    cbn [default from_option] in Hlt. unfold id in Hlt. apply Z.ltb_lt in Hlt.
    exists (if decide (c = White) then ch "K" else ch "k").
    split; [by destruct c|]. split; [by destruct c|]. intros u.
    assert (castlingStep b' u (if decide (c = White) then ch "K" else ch "k")
            = scanFiles b' c (homeRank c) [7; 6; 5; 4; 3; 2; 1; 0] u) as ->
      by (by destruct c).
    rewrite (files_descending_split f) by done.
    apply (scanFiles_hit _ _ _ _ _ _ _ (shownPiece opts p)); [|done|done|done].
    apply Forall_forall. intros f' Hf' q Hq Hqc.
    apply elem_of_reverse, elem_of_seqZ in Hf'.
    split; intros Hqr.
    - apply shown_lookup in Hq as (q0 & Hq0 & Hc0 & Hr0).
      assert (f' + 8 * homeRank c = k)
        by (eapply kingOf_unique; [exact Ek|exact Hq0|congruence|congruence]).
      lia.
    - assert (f' + 8 * homeRank c ≤ f + 8 * homeRank c); [|lia].
      apply Hmax; [lia|]. by apply (Hcand f' q); [lia|..]. }
  rewrite land_file by done.
  exists (if decide (c = White) then ch "A" + f else ch "a" + f).
  split; [|split].
  - destruct c.
    + rewrite !decide_True by done. by rewrite file_letter_upper by done.
    + rewrite !decide_False by done. by rewrite file_letter_lower by done.
  - destruct c.
    + rewrite !decide_True by done. unfold isCastlingUpper, inRange.
      change (ch "A") with 65. change (ch "H") with 72.
      apply orb_true_iff; right; apply andb_true_iff.
      split; apply Z.leb_le; lia.
    + rewrite !decide_False by done. unfold isCastlingLower, inRange.
      change (ch "a") with 97. change (ch "h") with 104.
      apply orb_true_iff; right; apply andb_true_iff.
      split; apply Z.leb_le; lia.
  - intros u. destruct c.
    + rewrite !decide_True by done.
      rewrite castlingStep_file_upper by done.
      by apply (scanFiles_hit _ _ _ [] [] _ _ (shownPiece opts p)).
    + rewrite !decide_False by done.
      rewrite castlingStep_file_lower by done.
      by apply (scanFiles_hit _ _ _ [] [] _ _ (shownPiece opts p)).
Qed.

Lemma foldl_append {A} (f : A → JsString) (l : list A) (fen : JsString) :
  foldl (λ fen x, fen ++ f x) fen l = fen ++ concat (f <$> l).
Proof.
  revert fen. induction l as [|x l IH]; intros fen; simpl.
  - by rewrite app_nil_r.
  - by rewrite IH, app_assoc.
Qed.

Lemma makeCastlingFenColor_text (board : gmap Z Piece) (ur : gset Z)
    (shredder : bool) (fen : JsString) (c : Color) :
  makeCastlingFenColor board ur shredder fen c
  = fen ++ concat (castlingLetter shredder c (Board.kingOf board c)
                     (candidates board c) <$> writtenRooks board ur c).
Proof.
  unfold makeCastlingFenColor, writtenRooks, candidates.
  replace (if decide (c = White) then 0 else 7) with (homeRank c)
    by (by destruct c).
  apply foldl_append.
Qed.

Lemma castlingLetters_steps (board : gmap Z Piece) (opts : option FenOpts)
    (shredder : bool) (c : Color) (rooks : list Z) :
  Forall (λ rook, rook ∈ candidates board c) rooks →
  ∃ letters,
    concat (castlingLetter shredder c (Board.kingOf board c)
              (candidates board c) <$> rooks) = letters
    ∧ length letters = length rooks
    ∧ Forall (λ ltr, if decide (c = White) then isCastlingUpper ltr = true
                     else isCastlingLower ltr = true) letters
    ∧ ∀ u, foldl (castlingStep (shownPiece opts <$> board)) u letters
           = list_to_set rooks ∪ u.
Proof.
  induction 1 as [|rook rooks Hrook _ (letters & Htext & Hlen & Hclass & Hfold)].
  - exists []. split_and!; try done. intros u. cbn [foldl].
    by rewrite list_to_set_nil, (left_id_L ∅ (∪)).
  - destruct (castlingLetter_step board opts shredder c rook Hrook)
      as (ltr & Hltr & Hcls & Hstep).
    exists (ltr :: letters). split_and!.
    + cbn [fmap list_fmap concat]. by rewrite Hltr, Htext.
    + simpl. by rewrite Hlen.
    + by constructor.
    + intros u. cbn [foldl]. rewrite Hstep, Hfold. unfold SquareSet.with_.
      apply set_eq. intros x.
      rewrite !elem_of_union, !elem_of_list_to_set, elem_of_cons,
        elem_of_singleton.
      tauto.
Qed.

Lemma castlingRegex_letters (upper lower : JsString) :
  Forall (λ c, isCastlingUpper c = true) upper →
  Forall (λ c, isCastlingLower c = true) lower →
  (length upper ≤ 2)%nat → (length lower ≤ 2)%nat →
  castlingRegex (upper ++ lower) = true.
Proof.
  intros Hu Hl Hlu Hll. unfold castlingRegex. apply existsb_exists.
  exists (length upper). split.
  - destruct upper as [|? [|? [|? ?]]]; simpl in *; auto; lia.
  - rewrite take_app_length, drop_app_length.
    apply andb_true_iff. split; [apply andb_true_iff; split|].
    + apply forallb_forall. intros x Hx. apply list_elem_of_In in Hx.
      by eapply Forall_forall in Hu.
    + apply forallb_forall. intros x Hx. apply list_elem_of_In in Hx.
      by eapply Forall_forall in Hl.
    + apply Nat.leb_le. done.
Qed.

Lemma writtenRooks_candidates (board : gmap Z Piece) (ur : gset Z) (c : Color) :
  Forall (λ rook, rook ∈ candidates board c) (writtenRooks board ur c).
Proof.
  apply Forall_forall. intros x Hx. unfold writtenRooks in Hx.
  apply elem_of_reversed in Hx as [Hx _].
  unfold SquareSet.intersect in Hx. by apply elem_of_intersection in Hx as [_ ?].
Qed.

Lemma unmovedRooks_written (board : gmap Z Piece) (ur : gset Z) :
  (∀ sq, sq ∈ dom board → 0 ≤ sq ≤ 63) →
  (∀ sq, sq ∈ ur → isHomeRook board sq) →
  ur = list_to_set (writtenRooks board ur Black)
       ∪ (list_to_set (writtenRooks board ur White) ∪ ∅).
Proof.
  intros Hdom Hur. apply set_eq. intros x.
  rewrite !elem_of_union, !elem_of_list_to_set. unfold writtenRooks.
  rewrite !elem_of_reversed. unfold SquareSet.intersect.
  rewrite !elem_of_intersection. split.
  - intros Hx. destruct (Hur x Hx) as (p & Hp & Hr & Hrank).
    assert (0 ≤ x ≤ 63) as Hrange by (apply Hdom, elem_of_dom; eauto).
    rewrite squareRank_div in Hrank by done.
    assert (x ∈ candidates board (color p)) as Hc.
    { apply elem_of_candidates. exists p, (x mod 8).
      split_and!; try done; try (pose proof (Z.mod_pos_bound x 8); lia).
      rewrite <- Hrank. pose proof (Z.div_mod x 8). lia. }
    destruct (color p); [right; left|left]; (split; [done|lia]).
  - intros [[[Hx _] _]|[[[Hx _] _]|Hx]]; [done|done|].
    by apply elem_of_empty in Hx.
Qed.

Lemma makeCastlingFen_shape (board : gmap Z Piece) (ur : gset Z)
    (opts : option FenOpts) :
  (∀ sq, sq ∈ dom board → 0 ≤ sq ≤ 63) →
  (∀ sq, sq ∈ ur → isHomeRook board sq) →
  ∃ upper lower,
    makeCastlingFen board ur opts
      = (if bool_decide (upper ++ lower = []) then lit "-" else upper ++ lower)
    ∧ Forall (λ c, isCastlingUpper c = true) upper
    ∧ Forall (λ c, isCastlingLower c = true) lower
    ∧ length upper = length (writtenRooks board ur White)
    ∧ length lower = length (writtenRooks board ur Black)
    ∧ foldl (castlingStep (shownPiece opts <$> board)) SquareSet.empty
        (upper ++ lower) = ur.
Proof.
  intros Hdom Hur.
  destruct (castlingLetters_steps board opts (optOf opts optShredder) White
              _ (writtenRooks_candidates board ur White))
    as (upper & Hut & Hul & Huc & Huf).
  destruct (castlingLetters_steps board opts (optOf opts optShredder) Black
              _ (writtenRooks_candidates board ur Black))
    as (lower & Hlt & Hll & Hlc & Hlf).
  exists upper, lower. split_and!; try done.
  - unfold makeCastlingFen, COLORS. cbn [foldl].
    rewrite !makeCastlingFenColor_text, Hut, Hlt. reflexivity.
  - rewrite foldl_app, Huf, Hlf. unfold SquareSet.empty.
    symmetry. by apply unmovedRooks_written.
Qed.

Lemma parseCastlingFen_makeCastlingFen (board : gmap Z Piece) (ur : gset Z)
    (opts : option FenOpts) :
  (∀ sq, sq ∈ dom board → 0 ≤ sq ≤ 63) →
  (∀ sq, sq ∈ ur → isHomeRook board sq) →
  (∀ c, (length (writtenRooks board ur c) ≤ 2)%nat) →
  parseCastlingFen (shownPiece opts <$> board) (makeCastlingFen board ur opts)
    = Result.ok ur
  ∧ ch " " ∉ makeCastlingFen board ur opts.
Proof.
  intros Hdom Hur Hlen.
  destruct (makeCastlingFen_shape board ur opts Hdom Hur)
    as (upper & lower & -> & Hu & Hl & Hul & Hll & Hfold).
  assert (Hchars : ∀ c, c ∈ upper ++ lower → 65 ≤ c ≤ 113).
  { intros c Hc. apply elem_of_app in Hc as [Hc|Hc].
    - eapply Forall_forall in Hu; [|exact Hc]. revert Hu.
      unfold isCastlingUpper, inRange.
      change (ch "K") with 75. change (ch "Q") with 81.
      change (ch "A") with 65. change (ch "H") with 72.
      rewrite !orb_true_iff, andb_true_iff. lia.
    - eapply Forall_forall in Hl; [|exact Hc]. revert Hl.
      unfold isCastlingLower, inRange.
      change (ch "k") with 107. change (ch "q") with 113.
      change (ch "a") with 97. change (ch "h") with 104.
      rewrite !orb_true_iff, andb_true_iff. lia. }
  case_bool_decide as Hnil.
  - split; [|by apply (bool_decide_eq_false_1 (_ ∈ _))].
    rewrite Hnil in Hfold. simpl in Hfold. by rewrite <- Hfold.
  - split.
    + unfold parseCastlingFen.
      rewrite bool_decide_eq_false_2.
      * rewrite castlingRegex_letters; try done.
        -- cbn [negb]. by rewrite Hfold.
        -- rewrite Hul. apply Hlen.
        -- rewrite Hll. apply Hlen.
      * intros Heq. assert (ch "-" ∈ upper ++ lower) as Hin
          by (rewrite Heq; by apply list_elem_of_singleton).
        apply Hchars in Hin. change (ch "-") with 45 in Hin. lia.
    + intros Hin. apply Hchars in Hin. change (ch " ") with 32 in Hin. lia.
Qed.

(** *** The whole setup *)

Lemma makeSquare_round_trip (sq : Z) :
  0 ≤ sq ≤ 63 →
  parseSquare (makeSquare sq) = Some sq
  ∧ makeSquare sq ≠ lit "-" ∧ (ch " " ∉ makeSquare sq).
Proof.
  intros H. split; [by apply parseSquare_makeSquare|].
  destruct (makeSquare_shape sq H) as (f & r & -> & Hf & Hr & _).
  split; [done|]. rewrite !elem_of_cons, elem_of_nil.
  change (ch " ") with 32. lia.
Qed.

Lemma makePockets_chars (m : Material) (c : Z) :
  c ∈ makePockets m → 65 ≤ c ≤ 122.
Proof.
  rewrite makePockets_text. rewrite !elem_of_app, !elem_of_replicate.
  intros H. repeat (destruct H as [[-> _]|H]; [vm_compute; split; discriminate|]).
  destruct H as [-> _]. vm_compute; split; discriminate.
Qed.

Lemma indexOfAux_first (pre post : JsString) (c pos : Z) :
  c ∉ pre →
  indexOfAux (pre ++ c :: post) c pos 0 = pos + Z.of_nat (length pre) ∨ pos < 0.
Proof.
  revert pos. induction pre as [|x pre IH]; intros pos Hpre.
  - destruct (decide (pos < 0)); [by right|left]. simpl.
    replace (0 <=? pos) with true by lia. rewrite Z.eqb_refl. simpl. lia.
  - apply not_elem_of_cons in Hpre as [Hx Hpre].
    destruct (decide (pos < 0)); [by right|left]. cbn [app indexOfAux].
    replace (x =? c) with false by lia. rewrite andb_false_r.
    destruct (IH (pos + 1) Hpre) as [->|?]; [|lia]. cbn [length]. lia.
Qed.

Lemma indexOf_first (pre post : JsString) (c : Z) :
  c ∉ pre → indexOf (pre ++ c :: post) c 0 = Z.of_nat (length pre).
Proof.
  intros H. unfold indexOf.
  destruct (indexOfAux_first pre post c 0 H) as [->|?]; lia.
Qed.

Lemma endsWith_snoc (s : JsString) (c : Z) : endsWith (s ++ [c]) c = true.
Proof. unfold endsWith. apply bool_decide_eq_true_2. apply last_snoc. Qed.

(** The board field with pockets is taken apart at the brackets. *)
Lemma pocket_field (bfen pk : JsString) :
  ch "[" ∉ bfen →
  let boardPart := bfen ++ lit "[" ++ pk ++ lit "]" in
  endsWith boardPart (ch "]") = true
  ∧ indexOf boardPart (ch "[") 0 = Z.of_nat (length bfen)
  ∧ substr boardPart 0 (Z.of_nat (length bfen)) = bfen
  ∧ substr boardPart (Z.of_nat (length bfen) + 1)
      (strlen boardPart - 1 - Z.of_nat (length bfen) - 1) = pk.
Proof.
  intros Hb boardPart. unfold boardPart. split_and!.
  - change (lit "]") with [ch "]"]. rewrite !app_assoc. apply endsWith_snoc.
  - change (lit "[" ++ pk ++ lit "]") with (ch "[" :: pk ++ lit "]").
    by apply indexOf_first.
  - unfold substr. change (Z.to_nat 0) with 0%nat. rewrite drop_0.
    rewrite Nat2Z.id. by rewrite take_app_length.
  - unfold substr, strlen. rewrite !length_app.
    change (length (lit "[")) with 1%nat. change (length (lit "]")) with 1%nat.
    replace (Z.to_nat (Z.of_nat (length bfen) + 1)) with (length bfen + 1)%nat by lia.
    replace (Z.to_nat (Z.of_nat (length bfen + (1 + (length pk + 1))) - 1
                       - Z.of_nat (length bfen) - 1)) with (length pk) by lia.
    rewrite (app_assoc bfen (lit "[")).
    replace (length bfen + 1)%nat with (length (bfen ++ lit "[")).
    + rewrite drop_app_length. by rewrite take_app_length.
    + by rewrite length_app.
Qed.

Lemma includes_false (s : JsString) (c : Z) : c ∉ s → includes s c = false.
Proof. intros H. unfold includes. by apply bool_decide_eq_false_2. Qed.

(** What is read back from the text of a setup whose fullmove number may
    be 0: everything in the range of the notation comes back, the
    fullmove number as at least 1. *)
Lemma parseFen_makeFen_written (s : Setup) (opts : option FenOpts) :
  Carried (withFullmoves s (Z.max 1 (fullmoves s))) →
  0 ≤ fullmoves s ≤ 9999 →
  optOf opts optEpd = false →
  parseFen (makeFen s opts)
  = Returns (Result.ok
      (withFullmoves (withBoard s (shownPiece opts <$> board s))
         (Z.max 1 (fullmoves s)))).
Proof.
  destruct s as [b pk t ur rc ep half full].
  intros [Hb Hp Hr Hrc Hep Hck Hh _] Hf Hepd.
  unfold withFullmoves in *.
  cbn [board pockets turn unmovedRooks remainingChecks epSquare halfmoves
       fullmoves] in *.
  unfold withBoard, makeFen.
  cbn [board pockets turn unmovedRooks remainingChecks epSquare halfmoves
       fullmoves].
  rewrite Hepd.
  pose proof (parseBoardFen_makeBoardFen b opts Hb) as Hboard.
  destruct (parseCastlingFen_makeCastlingFen b ur opts Hb Hr Hrc)
    as [Hcast Hcast_sp].
  destruct (numToString_small half Hh) as (Hhalf & Hhalf_sp & Hhalf_plus).
  destruct (numToString_small full ltac:(lia)) as (Hfull & Hfull_sp & _).
  assert (Hbsp : ∀ c, c = ch " " ∨ c = ch "[" ∨ c = ch "]" →
                      c ∉ makeBoardFen b opts).
  { intros c Hc. apply makeBoardFen_not_elem;
      destruct Hc as [->|[->| ->]]; vm_compute; intuition discriminate. }
  set (bfen := makeBoardFen b opts) in *.
  set (cfen := makeCastlingFen b ur opts) in *.
  (* the board field, with or without pockets *)
  set (boardField := bfen ++ match pk with
                             | Some pockets => lit "[" ++ makePockets pockets ++ lit "]"
                             | None => []
                             end).
  assert (Hfield_sp : ch " " ∉ boardField).
  { unfold boardField. destruct pk as [m|].
    - rewrite !elem_of_app. intros [H|[H|[H|H]]].
      + by apply (Hbsp (ch " ")); [left|].
      + vm_compute in H. by apply list_elem_of_singleton in H.
      + apply makePockets_chars in H. change (ch " ") with 32 in H. lia.
      + vm_compute in H. by apply list_elem_of_singleton in H.
    - rewrite app_nil_r. apply Hbsp. by left. }
  set (epText := match ep with Some square => makeSquare square | None => lit "-" end).
  assert (Hep_sp : ch " " ∉ epText).
  { unfold epText. destruct ep as [sq|].
    - by apply makeSquare_round_trip, Hep.
    - vm_compute. by intros ?%list_elem_of_singleton. }
  assert (Hturn_sp : ch " " ∉ turnLetter t).
  { destruct t; vm_compute; by intros ?%list_elem_of_singleton. }
  unfold parseFen. change (lit " ") with [ch " "].
  rewrite split_join.
  2: { by destruct rc. }
  2: { destruct rc as [checks|]; cbn [app]; repeat constructor; try done.
       destruct (Hck checks eq_refl) as [Hw Hbk].
       by destruct (remainingChecks_round_trip checks Hw Hbk) as (_ & _ & ?). }
  cbn [app shift]. cbv zeta.
  (* board and pockets *)
  assert (Hbp :
    (if endsWith boardField (ch "]")
     then
      if indexOf boardField (ch "[") 0 =? -1
      then None
      else Some
        (parseBoardFen (substr boardField 0 (indexOf boardField (ch "[") 0)),
         Result.map
           (parsePockets
              (substr boardField (indexOf boardField (ch "[") 0 + 1)
                 (strlen boardField - 1 - indexOf boardField (ch "[") 0 - 1)))
           Some)
     else
      if UtilFp.nthIndexOf boardField (ch "/") 7 =? -1
      then Some (parseBoardFen boardField, Result.ok None)
      else Some
        (parseBoardFen (substr boardField 0 (UtilFp.nthIndexOf boardField (ch "/") 7)),
         Result.map
           (parsePockets
              (substrFrom boardField (UtilFp.nthIndexOf boardField (ch "/") 7 + 1)))
           Some))
    = Some (Result.ok (shownPiece opts <$> b) : FenResult (gmap Z Piece),
            Result.ok pk : FenResult (option Material))).
  { unfold boardField. destruct pk as [m|].
    - destruct (pocket_field bfen (makePockets m)) as (-> & -> & -> & ->).
      { apply Hbsp. auto. }
      rewrite (proj2 (Z.eqb_neq (Z.of_nat (length bfen)) (-1))) by lia.
      rewrite Hboard, parsePockets_makePockets by by apply Hp. reflexivity.
    - rewrite app_nil_r.
      rewrite endsWith_false by (apply Hbsp; auto).
      rewrite nthIndexOf_none
        by (unfold bfen; rewrite makeBoardFen_slashes; simpl; lia).
      change (-1 =? -1) with true. cbv iota. by rewrite Hboard. }
  rewrite Hbp. clear Hbp.
  (* turn *)
  assert (Hturn :
    (if bool_decide (turnLetter t = lit "w") then Some White
     else if bool_decide (turnLetter t = lit "b") then Some Black else None)
    = Some t) by (by destruct t).
  rewrite Hturn. clear Hturn. cbn [Result.chain].
  rewrite Hcast.
  (* en passant square *)
  assert (Hepsq :
    (if negb (bool_decide (epText = lit "-"))
     then match parseSquare epText with
          | Some square => Some (Some square)
          | None => None
          end
     else Some None) = Some ep).
  { unfold epText. destruct ep as [sq|]; [|reflexivity].
    destruct (makeSquare_round_trip sq (Hep sq eq_refl)) as (-> & Hne & _).
    by rewrite bool_decide_eq_false_2. }
  rewrite Hepsq. clear Hepsq.
  destruct rc as [checks|]; cbn [app shift].
  - destruct (Hck checks eq_refl) as [Hw Hbk].
    destruct (remainingChecks_round_trip checks Hw Hbk) as (Hchecks & Hinc & _).
    rewrite Hinc. cbn [shift]. rewrite Hhalf, Hfull, Hchecks.
    cbn [length Nat.eqb negb Result.chain Result.map].
    reflexivity.
  - rewrite includes_false by done. cbn [shift]. rewrite Hhalf, Hfull.
    cbn [length Nat.eqb negb Result.chain Result.map].
    reflexivity.
Qed.

Lemma parseFen_makeFen_shown (s : Setup) (opts : option FenOpts) :
  Carried s → optOf opts optEpd = false →
  parseFen (makeFen s opts)
  = Returns (Result.ok (withBoard s (shownPiece opts <$> board s))).
Proof.
  intros Hs Hepd. pose proof (carried_fullmoves _ Hs) as Hf.
  assert (withFullmoves s (Z.max 1 (fullmoves s)) = s) as Hsame.
  { rewrite Z.max_r by lia. by destruct s. }
  rewrite parseFen_makeFen_written; [|by rewrite Hsame|lia|done].
  rewrite Z.max_r by lia. by destruct s.
Qed.

Lemma shown_noPromoted (b : gmap Z Piece) (opts : option FenOpts) :
  noPromoted b ∨ optOf opts optPromoted = true →
  shownPiece opts <$> b = b.
Proof.
  intros H. apply map_eq. intros sq. rewrite lookup_fmap.
  destruct (b !! sq) as [p|] eqn:Ep; [|done]. cbn. f_equal.
  destruct p as [r c pr]. unfold shownPiece. cbn [role color promoted].
  f_equal. destruct H as [H| ->]; [|done].
  apply H in Ep. cbn in Ep. subst. apply andb_false_r.
Qed.

Lemma withBoard_same (s : Setup) : withBoard s (board s) = s.
Proof. by destruct s. Qed.

(** The round trip under any options that keep the clocks: what is read
    back is the setup itself when the board has no promoted piece or the
    [promoted] option is on. *)
Lemma parseFen_makeFen_opts (s : Setup) (opts : option FenOpts) :
  Carried s → optOf opts optEpd = false →
  noPromoted (board s) ∨ optOf opts optPromoted = true →
  parseFen (makeFen s opts) = Returns (Result.ok s).
Proof.
  intros Hs Hepd Hprom. rewrite parseFen_makeFen_shown by done.
  by rewrite shown_noPromoted, withBoard_same.
Qed.

(** C1 (amended): for every setup in the range of the notation whose board
    has no promoted piece, [parseFen (makeFen setup)] succeeds and returns
    the setup itself, every field included. *)
Theorem parseFen_makeFen (s : Setup) :
  Carried s → noPromoted (board s) →
  parseFen (makeFen s None) = Returns (Result.ok s).
Proof.
  intros Hs Hprom. apply parseFen_makeFen_opts; [done|done|by left].
Qed.

Ltac board_range :=
  let sq := fresh "sq" in let p := fresh "p" in let H := fresh "H" in
  intros sq [p H]%elem_of_dom;
  repeat (rewrite lookup_insert in H; case_decide; [lia|]);
  by rewrite lookup_empty in H.

Lemma sampleSetup_carried : Carried sampleSetup.
Proof.
  split; cbn [sampleSetup board pockets turn unmovedRooks remainingChecks
              epSquare halfmoves fullmoves].
  - board_range.
  - intros m [= <-] [] []; vm_compute; discriminate.
  - intros sq Hsq. apply elem_of_union in Hsq as [->%elem_of_singleton| ->%elem_of_singleton].
    + exists (mkPiece Rook White false). split_and!; reflexivity.
    + exists (mkPiece Rook Black false). split_and!; reflexivity.
  - intros []; vm_compute; lia.
  - intros sq [= <-]. lia.
  - intros checks [= <-]. simpl. lia.
  - lia.
  - lia.
Qed.

Lemma sampleSetup_noPromoted : noPromoted (board sampleSetup).
Proof.
  intros sq p H. cbn [sampleSetup board] in H.
  repeat (rewrite lookup_insert in H; case_decide; [by injection H as <-|]).
  by rewrite lookup_empty in H.
Qed.

Lemma parseFen_makeFen_witness :
  parseFen (makeFen sampleSetup None) = Returns (Result.ok sampleSetup).
Proof.
  apply (parseFen_makeFen sampleSetup).
  - exact sampleSetup_carried.
  - exact sampleSetup_noPromoted.
Defined.

(** C1 (as stated) fails: [promotedQueenSetup] is in the range of the
    notation, but [makeFen] leaves out the promoted mark of its queen, so
    that the setup read back differs from it in the board. *)
Lemma promoted_mark_lost :
  Carried promotedQueenSetup
  ∧ parseFen (makeFen promotedQueenSetup None)
    = Returns (Result.ok
        (withBoard promotedQueenSetup
           (<[0 := mkPiece Queen White false]> (board promotedQueenSetup))))
  ∧ parseFen (makeFen promotedQueenSetup None)
    ≠ Returns (Result.ok promotedQueenSetup).
Proof.
  assert (Carried promotedQueenSetup) as Hc.
  { split; cbn [promotedQueenSetup board pockets turn unmovedRooks
                remainingChecks epSquare halfmoves fullmoves];
      try done; try lia.
    - board_range.
    - intros m [= <-] [] []; vm_compute; discriminate.
    - intros []; vm_compute; lia. }
  split; [exact Hc|]. split.
  - vm_compute. reflexivity.
  - intros H.
    apply (f_equal (λ r, match r with
                         | Returns (Result.ok s) => board s !! 0
                         | _ => None
                         end)) in H.
    vm_compute in H. discriminate H.
Qed.

(** The other bounds of [Carried] are needed as well: a fullmove number 0
    is read back as 1, a clock of five digits and a third unmoved rook of
    one color make the text unreadable. *)
Example fullmoves_zero_read_as_one :
  parseFen (makeFen (withClocks sampleSetup 0 0) None)
  = Returns (Result.ok (withClocks sampleSetup 0 1)).
Proof. vm_compute. reflexivity. Qed.

Example five_digit_clock_rejected :
  parseFen (makeFen (withClocks sampleSetup 10000 1) None)
  = Returns (fail ERR_HALFMOVES).
Proof. vm_compute. reflexivity. Qed.

Example third_rook_rejected :
  parseFen (makeFen threeRooksSetup None) = Returns (fail ERR_CASTLING).
Proof. vm_compute. reflexivity. Qed.

Example sampleSetup_text :
  makeFen sampleSetup None = lit "r3k3/8/8/4p3/8/8/8/4K2R[PBBnq] w Kq e6 3+2 0 12".
Proof. vm_compute. reflexivity. Qed.

Example promotedQueenSetup_text :
  makeFen promotedQueenSetup None = lit "4k3/8/8/8/8/8/8/Q3K3[] w - - 0 1"
  ∧ makeFen promotedQueenSetup (Some (mkFenOpts true false false))
    = lit "4k3/8/8/8/8/8/8/Q~3K3[] w - - 0 1".
Proof. split; vm_compute; reflexivity. Qed.

Example initial_position_round_trip :
  match parseFen INITIAL_FEN with
  | Returns (Result.ok s) => makeFen s None
  | _ => []
  end = INITIAL_FEN.
Proof. vm_compute. reflexivity. Qed.

(** The position of the README is read without error. *)
Example readme_position_parses :
  match parseFen (lit "r1bqkbnr/ppp2Qpp/2np4/4p3/2B1P3/8/PPPP1PPP/RNB1K1NR b KQkq - 0 4") with
  | Returns r => Result.isOk r
  | Throws => false
  end = true.
Proof. vm_compute. reflexivity. Qed.

(** ** The fullmove number and the fields left out *)

Ltac parseFen_cases :=
  unfold Result.chain, Result.map, fail in *;
  repeat (case_match; simplify_eq).

Lemma parseFen_fields_le (fen : JsString) (s : Setup) :
  parseFen fen = Returns (Result.ok s) →
  (length (split (ch " ") fen) ≤ 7)%nat.
Proof.
  intros H. unfold parseFen in H.
  destruct (split (ch " ") fen) as [|b [|t [|c [|e [|h [|h2 [|f [|l rest]]]]]]]];
    cbn [length]; try lia.
  exfalso. cbn [shift] in H. cbv zeta in H.
  destruct (includes h (ch "+")); cbn [shift] in H; parseFen_cases.
Qed.

(** The fullmove number of an accepted FEN is the number in its fullmove
    field, raised to 1 when that is 0. *)
Lemma parseFen_fullmoves_field (fen f : JsString) (s : Setup) :
  parseFen fen = Returns (Result.ok s) →
  split (ch " ") fen !! fullmovesIndex (split (ch " ") fen) = Some f →
  ∃ n, parseSmallUint f = Some n ∧ fullmoves s = Z.max 1 n.
Proof.
  intros H. pose proof (parseFen_fields_le fen s H) as Hlen.
  unfold parseFen in H. unfold fullmovesIndex, checksFirst.
  destruct (split (ch " ") fen) as [|b [|t [|c [|e [|h [|h2 [|f' [|l rest]]]]]]]];
    cbn [lookup list_lookup]; try discriminate;
    try (cbn [length] in Hlen; lia).
  - destruct (includes h (ch "+")); discriminate.
  - destruct (includes h (ch "+")) eqn:Hinc; cbn [lookup list_lookup];
      [discriminate|].
    intros [= <-]. cbn [shift] in H. cbv zeta in H. rewrite Hinc in H.
    cbn [shift] in H. parseFen_cases; eauto.
  - destruct (includes h (ch "+")) eqn:Hinc; cbn [lookup list_lookup];
      intros [= <-]; cbn [shift] in H; cbv zeta in H; rewrite Hinc in H;
      cbn [shift] in H; parseFen_cases; eauto.
Qed.

(** Another number in the fullmove field of an accepted FEN: the text is
    accepted as well and only the fullmove number changes. *)
Lemma parseFen_fullmoves_replace (fen fen' f' : JsString) (n : Z) (s : Setup) :
  parseFen fen = Returns (Result.ok s) →
  is_Some (split (ch " ") fen !! fullmovesIndex (split (ch " ") fen)) →
  parseSmallUint f' = Some n →
  split (ch " ") fen'
  = <[fullmovesIndex (split (ch " ") fen) := f']> (split (ch " ") fen) →
  parseFen fen' = Returns (Result.ok (withFullmoves s (Z.max 1 n))).
Proof.
  intros H [f Hf] Hn Hsplit. pose proof (parseFen_fields_le fen s H) as Hlen.
  unfold parseFen in *. rewrite Hsplit. clear Hsplit.
  unfold fullmovesIndex, checksFirst in *.
  destruct (split (ch " ") fen) as [|b [|t [|c [|e [|h [|h2 [|f0 [|l rest]]]]]]]];
    cbn [lookup list_lookup] in Hf; try discriminate Hf;
    try (cbn [length] in Hlen; lia).
  - destruct (includes h (ch "+")); discriminate Hf.
  - cbn [lookup list_lookup].
    destruct (includes h (ch "+")) eqn:Hinc; cbn [lookup list_lookup] in Hf;
      [discriminate Hf|].
    cbn [insert list_insert shift] in *. cbv zeta in *. rewrite Hinc in *.
    cbn [shift] in *. rewrite Hn. parseFen_cases; reflexivity.
  - cbn [lookup list_lookup].
    destruct (includes h (ch "+")) eqn:Hinc;
      cbn [insert list_insert shift] in *; cbv zeta in *; rewrite Hinc in *;
      cbn [shift] in *; rewrite Hn; parseFen_cases; reflexivity.
Qed.

Lemma carried_withFullmoves (s : Setup) (full : Z) :
  Carried s → 1 ≤ full ≤ 9999 → Carried (withFullmoves s full).
Proof. intros [] Hf. by split. Qed.

(** C8: a setup that [parseFen] returns has [fullmoves] at least 1, and a
    fullmove field [0] is not rejected but read as 1.  In full: the
    fullmove number returned is the number in the fullmove field raised to
    1 when it is 0; putting [0] in the fullmove field of any accepted FEN
    gives a text that is accepted, with [fullmoves] 1 and every other
    component unchanged; the text [makeFen] writes for a setup in the
    range of the notation with its fullmove number set to 0 is accepted
    and read back with [fullmoves] 1; and a six-field FEN ending in [0] is
    read exactly as the one ending in [1]. *)
Theorem parseFen_fullmoves_clamped :
  (∀ fen s, parseFen fen = Returns (Result.ok s) → 1 ≤ fullmoves s)
  ∧ (∀ fen f s,
       parseFen fen = Returns (Result.ok s) →
       split (ch " ") fen !! fullmovesIndex (split (ch " ") fen) = Some f →
       ∃ n, parseSmallUint f = Some n ∧ fullmoves s = Z.max 1 n)
  ∧ (∀ fen fen0 s,
       parseFen fen = Returns (Result.ok s) →
       is_Some (split (ch " ") fen !! fullmovesIndex (split (ch " ") fen)) →
       split (ch " ") fen0
       = <[fullmovesIndex (split (ch " ") fen) := lit "0"]> (split (ch " ") fen) →
       parseFen fen0 = Returns (Result.ok (withFullmoves s 1)))
  ∧ (∀ s opts,
       Carried s → optOf opts optEpd = false →
       parseFen (makeFen (withFullmoves s 0) opts)
       = Returns (Result.ok
           (withFullmoves (withBoard s (shownPiece opts <$> board s)) 1)))
  ∧ (∀ fen0 fen1 b t c e h,
       split (ch " ") fen0 = [b; t; c; e; h; lit "0"] →
       split (ch " ") fen1 = [b; t; c; e; h; lit "1"] →
       includes h (ch "+") = false →
       parseFen fen0 = parseFen fen1).
Proof.
  split_and!.
  - apply parseFen_fullmoves_positive.
  - apply parseFen_fullmoves_field.
  - intros fen fen0 s H Hf Hsplit.
    by apply (parseFen_fullmoves_replace fen fen0 (lit "0") 0 s).
  - intros s opts Hs Hepd.
    rewrite (parseFen_makeFen_written (withFullmoves s 0) opts);
      [reflexivity| |cbn [withFullmoves fullmoves]; lia|done].
    exact (carried_withFullmoves s 1 Hs ltac:(lia)).
  - apply parseFen_fullmoves_zero.
Qed.

Lemma parseFen_fullmoves_clamped_witness :
  parseFen (lit "8/8/8/8/8/8/8/8 w - - 3+3 0 0")
  = Returns (Result.ok
      (withFullmoves
         {| board := Board.empty; pockets := None; turn := White;
            unmovedRooks := SquareSet.empty;
            remainingChecks := Some (mkRemainingChecks 3 3);
            epSquare := None; halfmoves := 0; fullmoves := 25 |} 1))
  ∧ parseFen (makeFen (withFullmoves sampleSetup 0) None)
    = Returns (Result.ok
        (withFullmoves
           (withBoard sampleSetup (shownPiece None <$> board sampleSetup)) 1)).
Proof.
  split.
  - apply (proj1 (proj2 (proj2 parseFen_fullmoves_clamped))
             (lit "8/8/8/8/8/8/8/8 w - - 3+3 0 25")
             (lit "8/8/8/8/8/8/8/8 w - - 3+3 0 0")).
    + vm_compute. reflexivity.
    + vm_compute. eexists. reflexivity.
    + vm_compute. reflexivity.
  - apply (proj1 (proj2 (proj2 (proj2 parseFen_fullmoves_clamped)))
             sampleSetup None).
    + exact sampleSetup_carried.
    + reflexivity.
Defined.

(** A FEN cut after any of its fields is accepted when the whole is, and
    the components of the fields cut off take their defaults. *)
Lemma parseFen_prefix (fen fen' : JsString) (s : Setup) (k : nat) :
  parseFen fen = Returns (Result.ok s) → (1 ≤ k)%nat →
  split (ch " ") fen' = take k (split (ch " ") fen) →
  parseFen fen'
  = Returns (Result.ok (withDefaultsAfter k (split (ch " ") fen) s)).
Proof.
  intros H Hk Hsplit. pose proof (parseFen_fields_le fen s H) as Hlen.
  unfold parseFen in *. rewrite Hsplit. clear Hsplit.
  unfold withDefaultsAfter, checksIndex, halfmovesIndex, fullmovesIndex,
    checksFirst.
  destruct (split (ch " ") fen) as [|b [|t [|c [|e [|h [|h2 [|f [|l rest]]]]]]]];
    try (cbn [length] in Hlen; lia); [discriminate H|..];
    cbn [lookup list_lookup];
    try destruct (includes h (ch "+")) eqn:Hinc;
    destruct k as [|[|[|[|[|[|[|[|k]]]]]]]]; try lia;
    cbn [take shift Nat.leb] in *; cbv zeta in *;
    try rewrite Hinc in *; cbn [shift] in *;
    parseFen_cases; reflexivity.
Qed.

(** C9: a FEN that stops after the board, or after any later field, is
    accepted, and every field it leaves out takes its default: turn
    white, no unmoved rooks, no en passant square, no remaining checks,
    halfmoves 0, fullmoves 1.  In full: a valid board field alone gives
    exactly the setup of that board with the defaults; a FEN cut after
    any of its fields is accepted whenever the whole is, with the same
    setup but for the defaults in the components cut off; every such
    cut of the text [makeFen] writes for a setup in the range of the
    notation is accepted; and a FEN of one to five fields is read as the
    FEN completed with the default fields [w - - 0 1]. *)
Theorem parseFen_defaults :
  (∀ boardPart b,
      parseBoardFen boardPart = Result.ok b →
      parseFen boardPart = Returns (Result.ok
        {| board := b; pockets := None; turn := White;
           unmovedRooks := SquareSet.empty; remainingChecks := None;
           epSquare := None; halfmoves := 0; fullmoves := 1 |}))
  ∧ (∀ fen fen' s k,
      parseFen fen = Returns (Result.ok s) → (1 ≤ k)%nat →
      split (ch " ") fen' = take k (split (ch " ") fen) →
      parseFen fen'
      = Returns (Result.ok (withDefaultsAfter k (split (ch " ") fen) s)))
  ∧ (∀ s opts fen' k,
      Carried s → optOf opts optEpd = false → (1 ≤ k)%nat →
      split (ch " ") fen' = take k (split (ch " ") (makeFen s opts)) →
      parseFen fen'
      = Returns (Result.ok
          (withDefaultsAfter k (split (ch " ") (makeFen s opts))
             (withBoard s (shownPiece opts <$> board s)))))
  ∧ (∀ fen fen' parts,
      split (ch " ") fen = parts →
      (1 ≤ length parts ≤ 5)%nat →
      (∀ h, parts !! 4%nat = Some h → includes h (ch "+") = false) →
      split (ch " ") fen' = parts ++ drop (length parts - 1) defaultFields →
      parseFen fen = parseFen fen').
Proof.
  split_and!.
  - apply parseFen_board_only.
  - apply parseFen_prefix.
  - intros s opts fen' k Hs Hepd Hk Hsplit.
    apply (parseFen_prefix (makeFen s opts)); [|done|done].
    by apply parseFen_makeFen_shown.
  - apply parseFen_omitted_fields.
Qed.

Lemma parseFen_defaults_witness :
  parseFen EMPTY_BOARD_FEN = Returns (Result.ok
    {| board := Board.empty; pockets := None; turn := White;
       unmovedRooks := SquareSet.empty; remainingChecks := None;
       epSquare := None; halfmoves := 0; fullmoves := 1 |})
  ∧ parseFen (lit "8/8/8/8/8/8/8/8 b - - 1+2")
    = Returns (Result.ok
        (withDefaultsAfter 5 (split (ch " ") (lit "8/8/8/8/8/8/8/8 b - - 1+2 7 30"))
           {| board := Board.empty; pockets := None; turn := Black;
              unmovedRooks := SquareSet.empty;
              remainingChecks := Some (mkRemainingChecks 1 2);
              epSquare := None; halfmoves := 7; fullmoves := 30 |}))
  ∧ parseFen (lit "r3k3/8/8/4p3/8/8/8/4K2R[PBBnq] w Kq")
    = Returns (Result.ok
        (withDefaultsAfter 3 (split (ch " ") (makeFen sampleSetup None))
           (withBoard sampleSetup (shownPiece None <$> board sampleSetup)))).
Proof.
  split_and!.
  - apply (proj1 parseFen_defaults EMPTY_BOARD_FEN Board.empty). reflexivity.
  - apply (proj1 (proj2 parseFen_defaults)
             (lit "8/8/8/8/8/8/8/8 b - - 1+2 7 30")
             (lit "8/8/8/8/8/8/8/8 b - - 1+2")).
    + vm_compute. reflexivity.
    + lia.
    + vm_compute. reflexivity.
  - apply (proj1 (proj2 (proj2 parseFen_defaults)) sampleSetup None).
    + exact sampleSetup_carried.
    + reflexivity.
    + lia.
    + vm_compute. reflexivity.
Defined.

(** * Further properties of the code *)

(** ** Squares and distances ([util.ts]) *)

Lemma parseSquare_range (str : JsString) (sq : Z) :
  parseSquare str = Some sq →
  ∃ f r, str = [f; r] ∧ 97 ≤ f ≤ 104 ∧ 49 ≤ r ≤ 56
         ∧ sq = f - 97 + 8 * (r - 49).
Proof.
  intros H. unfold parseSquare in H.
  destruct str as [|f [|r [|? ?]]]; try discriminate H.
  unfold inRange in H. change (ch "a") with 97 in H. change (ch "h") with 104 in H.
  change (ch "1") with 49 in H. change (ch "8") with 56 in H.
  destruct ((97 <=? f) && (f <=? 104) && ((49 <=? r) && (r <=? 56))) eqn:E;
    [|discriminate H].
  injection H as <-. exists f, r. split; [done|].
  apply andb_true_iff in E as [E1 E2].
  apply andb_true_iff in E1 as [? ?]. apply andb_true_iff in E2 as [? ?]. lia.
Qed.

Lemma parseSquare_name (str : JsString) (sq : Z) :
  parseSquare str = Some sq → 0 ≤ sq ≤ 63 ∧ makeSquare sq = str.
Proof.
  intros H. apply parseSquare_range in H as (f & r & -> & Hf & Hr & ->).
  split; [lia|].
  destruct (makeSquare_shape (f - 97 + 8 * (r - 49)) ltac:(lia))
    as (f' & r' & -> & Hf' & Hr' & E).
  f_equal; [lia|]. f_equal. lia.
Qed.

(** X1: [parseSquare] reads a name as a square exactly when the square is
    one of 0..63 and the name is the one [makeSquare] writes for it. *)
Theorem makeSquare_parseSquare (str : JsString) (sq : Z) :
  parseSquare str = Some sq ↔ 0 ≤ sq ≤ 63 ∧ makeSquare sq = str.
Proof.
  split; [apply parseSquare_name|].
  intros [H <-]. by apply parseSquare_makeSquare.
Qed.

Lemma toInt32_range (n : Z) : - 2 ^ 31 ≤ toInt32 n < 2 ^ 31.
Proof.
  unfold toInt32. pose proof (Z.mod_pos_bound (n + 2 ^ 31) (2 ^ 32)). lia.
Qed.

Lemma toInt32_split (n : Z) :
  0 ≤ squareFile n ≤ 7 ∧ toInt32 n = squareFile n + 8 * squareRank n.
Proof.
  unfold squareFile, squareRank. generalize (toInt32 n). intros m.
  change (Z.land m 7) with (Z.land m (Z.ones 3)).
  rewrite Z.land_ones, Z.shiftr_div_pow2 by lia.
  change (2 ^ 3) with 8. pose proof (Z.mod_pos_bound m 8).
  pose proof (Z.div_mod m 8). lia.
Qed.

(** X2: for every integer, [squareFile] is in 0..7, the 32-bit value of
    the square is its file plus eight times its rank, and the rank is in
    0..7 exactly when that value is a square of the board. *)
Theorem squareFile_squareRank (n : Z) :
  0 ≤ squareFile n ≤ 7
  ∧ toInt32 n = squareFile n + 8 * squareRank n
  ∧ (0 ≤ squareRank n ≤ 7 ↔ 0 ≤ toInt32 n ≤ 63).
Proof. destruct (toInt32_split n) as [Hf Hsum]. split_and!; [lia..|lia]. Qed.

(** X3: a square outside the board (its 32-bit value not in 0..63) gets
    from [makeSquare] its file letter followed by the word [undefined],
    which [parseSquare] rejects. *)
Theorem makeSquare_off_board (sq : Z) :
  ¬ (0 ≤ toInt32 sq ≤ 63) →
  makeSquare sq = default [] (charAt (lit "abcdefgh") (squareFile sq))
                    ++ lit "undefined"
  ∧ length (makeSquare sq) = 10%nat
  ∧ parseSquare (makeSquare sq) = None.
Proof.
  intros H. destruct (toInt32_split sq) as [Hf Hsum].
  assert (charAt (lit "12345678") (squareRank sq) = None) as Hr.
  { unfold charAt. destruct (squareRank sq <? 0) eqn:E; [done|].
    apply Z.ltb_ge in E. rewrite fmap_None. apply lookup_ge_None.
    change (length (lit "12345678")) with 8%nat. lia. }
  unfold makeSquare. rewrite Hr.
  assert (squareFile sq = 0 ∨ squareFile sq = 1 ∨ squareFile sq = 2
          ∨ squareFile sq = 3 ∨ squareFile sq = 4 ∨ squareFile sq = 5
          ∨ squareFile sq = 6 ∨ squareFile sq = 7)
    as [->|[->|[->|[->|[->|[->|[->| ->]]]]]]] by lia; done.
Qed.

Lemma makeSquare_off_board_witness :
  makeSquare 64 = default [] (charAt (lit "abcdefgh") (squareFile 64))
                    ++ lit "undefined"
  ∧ length (makeSquare 64) = 10%nat
  ∧ parseSquare (makeSquare 64) = None.
Proof. apply (makeSquare_off_board 64). vm_compute. intros [_ H]. by apply H. Defined.

(** X4: [squareDist] is a distance on the board: it is symmetric, obeys
    the triangle inequality, is at most 7 between two squares of 0..63 and
    is 0 between them only when they are the same square. *)
Theorem squareDist_metric :
  (∀ a b, squareDist a b = squareDist b a)
  ∧ (∀ a b c, squareDist a c ≤ squareDist a b + squareDist b c)
  ∧ (∀ a b, 0 ≤ a ≤ 63 → 0 ≤ b ≤ 63 →
       0 ≤ squareDist a b ≤ 7 ∧ (squareDist a b = 0 ↔ a = b)).
Proof.
  split; [|split].
  - intros a b. unfold squareDist. cbv zeta. lia.
  - intros a b c. unfold squareDist. cbv zeta. lia.
  - intros a b Ha Hb. unfold squareDist. cbv zeta.
    rewrite !squareFile_mod, !squareRank_div by done.
    pose proof (Z.mod_pos_bound a 8). pose proof (Z.mod_pos_bound b 8).
    pose proof (Z.div_mod a 8). pose proof (Z.div_mod b 8).
    lia.
Qed.

Lemma squareDist_metric_witness :
  0 ≤ squareDist 0 63 ≤ 7 ∧ (squareDist 0 63 = 0 ↔ 0 = 63).
Proof. apply (proj2 (proj2 squareDist_metric) 0 63); lia. Defined.

(** ** Roles and moves ([util.ts]) *)

Lemma charToRole_Some (c : JsString) (r : Role) :
  Util.charToRole c = Some r ↔ c = [roleUnit r] ∨ c = [upperUnit (roleUnit r)].
Proof.
  split.
  - unfold Util.charToRole.
    repeat (case_bool_decide as E;
            [intros [= <-]; rewrite E; vm_compute; auto
            |clear E; cbn [orb]; try (case_bool_decide as E;
               [intros [= <-]; rewrite E; vm_compute; auto|clear E])]).
    intros [=].
  - intros [-> | ->]; by destruct r.
Qed.

(** X5: [charToRole] reads back the letter [roleToChar] writes, in lower
    and in upper case, and accepts no other string. *)
Theorem charToRole_roleToChar :
  (∀ r, Util.charToRole (roleToChar r) = Some r
        ∧ Util.charToRole (toUpperCase (roleToChar r)) = Some r)
  ∧ (∀ c r, Util.charToRole c = Some r →
            c = roleToChar r ∨ c = toUpperCase (roleToChar r)).
Proof.
  split.
  - intros r. by destruct r.
  - intros c r H. apply charToRole_Some in H. rewrite roleToChar_unit. exact H.
Qed.

Lemma charToRole_roleToChar_witness :
  lit "N" = roleToChar Knight ∨ lit "N" = toUpperCase (roleToChar Knight).
Proof. apply (proj2 charToRole_roleToChar (lit "N") Knight). reflexivity. Defined.

Lemma parseUci_length (str : JsString) (m : Move) :
  parseUci str = Some m → length str = 4%nat ∨ length str = 5%nat.
Proof.
  unfold parseUci, strlen. intros H.
  destruct (Z.of_nat (length str) =? 4) eqn:E4; [left; lia|].
  destruct (Z.of_nat (length str) =? 5) eqn:E5; [right; lia|].
  rewrite andb_false_r in H. discriminate H.
Qed.

Lemma parseUci_five_at (a c d e : Z) : parseUci [a; 64; c; d; e] = None.
Proof.
  assert (parseSquare [a; 64] = None) as Hsq.
  { unfold parseSquare. change (inRange "1" "8" 64) with false.
    by rewrite andb_false_r. }
  unfold parseUci.
  change (bool_decide (charAt [a; 64; c; d; e] 1 = Some (lit "@"))
          && (strlen [a; 64; c; d; e] =? 4)) with false.
  change (slice [a; 64; c; d; e] 0 2) with [a; 64]. rewrite Hsq.
  cbv iota. by repeat case_match.
Qed.

Lemma parseUci_shape (str : JsString) (m : Move) :
  parseUci str = Some m →
  (∃ c f r role to, str = [c; 64; f; r] ∧ Util.charToRole [c] = Some role
     ∧ parseSquare [f; r] = Some to ∧ m = DropMove role to)
  ∨ (∃ f1 r1 f2 r2 from to, str = [f1; r1; f2; r2]
     ∧ parseSquare [f1; r1] = Some from ∧ parseSquare [f2; r2] = Some to
     ∧ m = NormalMove from to None)
  ∨ (∃ f1 r1 f2 r2 c from to p, str = [f1; r1; f2; r2; c]
     ∧ parseSquare [f1; r1] = Some from ∧ parseSquare [f2; r2] = Some to
     ∧ Util.charToRole [c] = Some p ∧ m = NormalMove from to (Some p)).
Proof.
  intros H. pose proof (parseUci_length str m H) as Hlen.
  destruct str as [|a [|b [|c [|d [|e [|? ?]]]]]];
    try (exfalso; simpl in Hlen; lia).
  - destruct (decide (b = 64)) as [->|Hb].
    + rewrite parseUci_drop in H.
      destruct (Util.charToRole [a]) as [role|] eqn:Er; [|discriminate H].
      destruct (parseSquare [c; d]) as [to|] eqn:Et; [|discriminate H].
      injection H as <-. left. by exists a, c, d, role, to.
    + rewrite parseUci_four in H by done.
      destruct (parseSquare [a; b]) as [from|] eqn:Ef; [|discriminate H].
      destruct (parseSquare [c; d]) as [to|] eqn:Et; [|discriminate H].
      injection H as <-. right. left. by exists a, b, c, d, from, to.
  - destruct (decide (b = 64)) as [->|Hb];
      [by rewrite parseUci_five_at in H|].
    rewrite parseUci_five in H by done.
    destruct (Util.charToRole [e]) as [p|] eqn:Ep; [|discriminate H].
    destruct (parseSquare [a; b]) as [from|] eqn:Ef; [|discriminate H].
    destruct (parseSquare [c; d]) as [to|] eqn:Et; [|discriminate H].
    injection H as <-. right. right. by exists a, b, c, d, e, from, to, p.
Qed.

(** X6: a string that [parseUci] accepts has 4 or 5 code units, and the
    move it returns has its squares in 0..63. *)
Theorem parseUci_valid (str : JsString) (m : Move) :
  parseUci str = Some m →
  validMove m ∧ (length str = 4%nat ∨ length str = 5%nat).
Proof.
  intros H.
  destruct (parseUci_shape str m H)
    as [(c & f & r & role & to & -> & _ & Ht & ->)
       |[(f1 & r1 & f2 & r2 & from & to & -> & Hf & Ht & ->)
        |(f1 & r1 & f2 & r2 & c & from & to & p & -> & Hf & Ht & _ & ->)]];
    cbn [validMove length].
  - apply parseSquare_range in Ht as (? & ? & _ & ? & ? & ->). split; [lia|auto].
  - apply parseSquare_range in Hf as (? & ? & _ & ? & ? & ->).
    apply parseSquare_range in Ht as (? & ? & _ & ? & ? & ->). split; [lia|auto].
  - apply parseSquare_range in Hf as (? & ? & _ & ? & ? & ->).
    apply parseSquare_range in Ht as (? & ? & _ & ? & ? & ->). split; [lia|auto].
Qed.

Lemma parseUci_valid_witness :
  validMove (NormalMove 12 28 None)
  ∧ (length (lit "e2e4") = 4%nat ∨ length (lit "e2e4") = 5%nat).
Proof. apply (parseUci_valid (lit "e2e4") (NormalMove 12 28 None)). reflexivity. Defined.

Lemma lowerUnit_square (f r : Z) :
  97 ≤ f ≤ 104 → 49 ≤ r ≤ 56 → lowerUnit f = f ∧ lowerUnit r = r.
Proof.
  intros Hf Hr. unfold lowerUnit. change (ch "A") with 65. change (ch "Z") with 90.
  repeat case_match; lia.
Qed.

Lemma lowerUnit_role (c : Z) (role : Role) :
  Util.charToRole [c] = Some role → lowerUnit c = roleUnit role.
Proof.
  intros H. apply charToRole_Some in H as [[= ->]|[= ->]]; by destruct role.
Qed.

(** X7: [makeUci] writes a move that [parseUci] returned as the string it
    was read from, up to the case of the role letter (a drop is written
    with an upper-case letter, a promotion with a lower-case one). *)
Theorem makeUci_parseUci (str : JsString) (m : Move) :
  parseUci str = Some m → toLowerCase (makeUci m) = toLowerCase str.
Proof.
  intros H.
  destruct (parseUci_shape str m H)
    as [(c & f & r & role & to & -> & Hr & Ht & ->)
       |[(f1 & r1 & f2 & r2 & from & to & -> & Hf & Ht & ->)
        |(f1 & r1 & f2 & r2 & c & from & to & p & -> & Hf & Ht & Hp & ->)]];
    cbn [makeUci].
  - destruct (parseSquare_name _ _ Ht) as [_ ->].
    apply lowerUnit_role in Hr. rewrite roleToChar_unit.
    change (toLowerCase (toUpperCase [roleUnit role] ++ lit "@" ++ [f; r]))
      with (lowerUnit (upperUnit (roleUnit role)) :: 64 :: toLowerCase [f; r]).
    change (toLowerCase [c; 64; f; r]) with (lowerUnit c :: 64 :: toLowerCase [f; r]).
    rewrite Hr. f_equal. by destruct role.
  - destruct (parseSquare_name _ _ Hf) as [_ ->].
    destruct (parseSquare_name _ _ Ht) as [_ ->].
    by rewrite app_nil_r.
  - destruct (parseSquare_name _ _ Hf) as [_ ->].
    destruct (parseSquare_name _ _ Ht) as [_ ->].
    apply lowerUnit_role in Hp. rewrite roleToChar_unit.
    change (toLowerCase ([f1; r1] ++ [f2; r2] ++ [roleUnit p]))
      with (toLowerCase [f1; r1; f2; r2] ++ [lowerUnit (roleUnit p)]).
    change (toLowerCase [f1; r1; f2; r2; c])
      with (toLowerCase [f1; r1; f2; r2] ++ [lowerUnit c]).
    rewrite Hp. do 2 f_equal. by destruct p.
Qed.

Lemma makeUci_parseUci_witness :
  toLowerCase (makeUci (NormalMove 52 60 (Some Queen))) = toLowerCase (lit "e7e8Q").
Proof.
  apply (makeUci_parseUci (lit "e7e8Q") (NormalMove 52 60 (Some Queen))).
  reflexivity.
Defined.

(** ** Numbers and check counts ([fen.ts]) *)

Lemma isDigit_range (c : Z) : isDigit c = true → 48 ≤ c ≤ 57.
Proof.
  unfold isDigit, inRange. change (ch "0") with 48. change (ch "9") with 57.
  intros H. apply andb_true_iff in H as [? ?]. lia.
Qed.

Lemma parseSmallUint_Some (str : JsString) (n : Z) :
  parseSmallUint str = Some n ↔
  (1 ≤ length str ≤ 4)%nat ∧ Forall (λ c, 48 ≤ c ≤ 57) str
  ∧ n = parseIntDigits str.
Proof.
  unfold parseSmallUint, strlen. split.
  - intros H.
    destruct (1 <=? Z.of_nat (length str)) eqn:E1; [|discriminate H].
    destruct (Z.of_nat (length str) <=? 4) eqn:E2; [|discriminate H].
    destruct (forallb isDigit str) eqn:F; [|discriminate H].
    injection H as <-. split; [lia|]. split; [|done].
    apply Forall_forall. intros c Hc. apply isDigit_range.
    apply list_elem_of_In in Hc.
    by apply (proj1 (forallb_forall _ _) F).
  - intros (Hlen & Hd & ->).
    rewrite (proj2 (Z.leb_le _ _)), (proj2 (Z.leb_le _ _)) by lia.
    replace (forallb isDigit str) with true; [done|].
    symmetry. apply forallb_forall. intros c Hc. apply list_elem_of_In in Hc.
    rewrite Forall_forall in Hd. specialize (Hd c Hc).
    unfold isDigit, inRange. change (ch "0") with 48. change (ch "9") with 57.
    apply andb_true_iff. split; apply Z.leb_le; lia.
Qed.

Lemma parseIntDigits_bounds (str : JsString) :
  (length str ≤ 4)%nat → Forall (λ c, 48 ≤ c ≤ 57) str →
  0 ≤ parseIntDigits str ≤ 9999.
Proof.
  intros Hlen Hd. unfold parseIntDigits. change (ch "0") with 48.
  destruct str as [|a [|b [|c [|d [|? ?]]]]]; cbn [foldl length] in *;
    repeat match goal with
           | H : Forall _ (_ :: _) |- _ => apply Forall_cons in H as [? H]
           end; lia.
Qed.

(** X8: a string that [parseSmallUint] accepts is made of one to four
    decimal digits, and the number returned is in 0..9999. *)
Theorem parseSmallUint_range (str : JsString) (n : Z) :
  parseSmallUint str = Some n →
  0 ≤ n ≤ 9999 ∧ (1 ≤ length str ≤ 4)%nat ∧ Forall (λ c, 48 ≤ c ≤ 57) str.
Proof.
  intros H. apply parseSmallUint_Some in H as (Hlen & Hd & ->).
  split; [apply parseIntDigits_bounds; [lia|done]|done].
Qed.

Lemma parseSmallUint_range_witness :
  0 ≤ 42 ≤ 9999 ∧ (1 ≤ length (lit "0042") ≤ 4)%nat
  ∧ Forall (λ c, 48 ≤ c ≤ 57) (lit "0042").
Proof. apply (parseSmallUint_range (lit "0042") 42). reflexivity. Defined.

(** X9: [parseSmallUint] reads back the decimal text of a number exactly
    when the number is in 0..9999. *)
Theorem parseSmallUint_numToString (n : Z) :
  parseSmallUint (numToString n) = Some n ↔ 0 ≤ n ≤ 9999.
Proof.
  split.
  - intros H. apply parseSmallUint_Some in H as (Hlen & Hd & E).
    rewrite E. apply parseIntDigits_bounds; [lia|done].
  - intros H. by apply numToString_small.
Qed.

(** X10: zeros in front of a number do not change what [parseSmallUint]
    reads, as long as the text keeps to four digits. *)
Theorem parseSmallUint_leading_zero (str : JsString) :
  (1 ≤ length str ≤ 3)%nat →
  parseSmallUint (ch "0" :: str) = parseSmallUint str.
Proof.
  intros Hlen. unfold parseSmallUint, strlen. cbn [length forallb].
  change (isDigit (ch "0")) with true. cbn [andb].
  rewrite !(proj2 (Z.leb_le 1 _)) by lia.
  rewrite !(proj2 (Z.leb_le _ 4)) by lia.
  cbn [andb]. destruct (forallb isDigit str); [|done].
  reflexivity.
Qed.

Lemma parseSmallUint_leading_zero_witness :
  parseSmallUint (ch "0" :: lit "07") = parseSmallUint (lit "07").
Proof. apply (parseSmallUint_leading_zero (lit "07")). simpl. lia. Defined.

Lemma checksInRange_Some (white black : option Z) (w b : Z) :
  checksInRange white black = Some (w, b) ↔
  white = Some w ∧ black = Some b ∧ w ≤ 3 ∧ b ≤ 3.
Proof.
  unfold checksInRange. destruct white as [w'|], black as [b'|];
    try (split; [intros [=]|intros (? & ? & _); discriminate]).
  destruct (3 <? w') eqn:E1; destruct (3 <? b') eqn:E2; cbn [orb];
    (split; [intros [=]; subst; split_and!; try done; lia
            |intros ([= ->] & [= ->] & ? & ?); try done; lia]).
Qed.

Lemma parseRemainingChecks_bounds (part : JsString) (checks : RemainingChecks) :
  parseRemainingChecks part = Result.ok checks →
  0 ≤ rcWhite checks ≤ 3 ∧ 0 ≤ rcBlack checks ≤ 3.
Proof.
  unfold parseRemainingChecks.
  destruct (split (ch "+") part) as [|p0 [|p1 [|p2 [|? ?]]]]; try discriminate.
  - destruct (checksInRange _ _) as [[w b]|] eqn:E; [|discriminate].
    intros [= <-]. apply checksInRange_Some in E as (Hw & Hb & ? & ?).
    apply parseSmallUint_Some in Hw as (Lw & Dw & ->).
    apply parseSmallUint_Some in Hb as (Lb & Db & ->).
    pose proof (parseIntDigits_bounds p0 ltac:(lia) Dw).
    pose proof (parseIntDigits_bounds p1 ltac:(lia) Db).
    cbn [rcWhite rcBlack]. lia.
  - case_bool_decide; [|discriminate].
    destruct (checksInRange _ _) as [[w b]|] eqn:E; [|discriminate].
    intros [= <-]. apply checksInRange_Some in E as (Hw & Hb & ? & ?).
    apply parseSmallUint_Some in Hw as (Lw & Dw & ->).
    apply parseSmallUint_Some in Hb as (Lb & Db & ->).
    pose proof (parseIntDigits_bounds p1 ltac:(lia) Dw).
    pose proof (parseIntDigits_bounds p2 ltac:(lia) Db).
    cbn [rcWhite rcBlack]. lia.
Qed.

(** X11: [parseRemainingChecks] reads back what [makeRemainingChecks]
    writes exactly when both counts are in 0..3; every count it returns is
    in that range. *)
Theorem parseRemainingChecks_makeRemainingChecks :
  (∀ checks,
     parseRemainingChecks (makeRemainingChecks checks) = Result.ok checks
     ↔ 0 ≤ rcWhite checks ≤ 3 ∧ 0 ≤ rcBlack checks ≤ 3)
  ∧ (∀ part checks,
       parseRemainingChecks part = Result.ok checks →
       0 ≤ rcWhite checks ≤ 3 ∧ 0 ≤ rcBlack checks ≤ 3).
Proof.
  split.
  - intros checks. split; [apply parseRemainingChecks_bounds|].
    intros [Hw Hb]. by apply remainingChecks_round_trip.
  - apply parseRemainingChecks_bounds.
Qed.

Lemma parseRemainingChecks_makeRemainingChecks_witness :
  0 ≤ rcWhite (mkRemainingChecks 3 1) ≤ 3
  ∧ 0 ≤ rcBlack (mkRemainingChecks 3 1) ≤ 3.
Proof.
  apply (proj2 parseRemainingChecks_makeRemainingChecks
           (lit "+0+2") (mkRemainingChecks 3 1)).
  reflexivity.
Defined.

Lemma split_head_empty (sep : Z) (s : JsString) (rest : list JsString) :
  split sep s = [] :: rest → s = [] ∨ head s = Some sep.
Proof.
  destruct s as [|c s']; [auto|]. cbn [split head].
  destruct (c =? sep) eqn:E; [intros _; right; f_equal; lia|].
  destruct (split sep s'); discriminate.
Qed.

(** X12: the two forms of the check counts.  A text [w+b] gives the checks
    that remain; the same text after a [+] gives the checks already given,
    and is read as 3 minus each number. *)
Theorem parseRemainingChecks_given (part : JsString) (w b : Z) :
  head part ≠ Some (ch "+") →
  parseRemainingChecks part = Result.ok (mkRemainingChecks w b) →
  parseRemainingChecks (ch "+" :: part)
  = Result.ok (mkRemainingChecks (3 - w) (3 - b)).
Proof.
  intros Hhead. unfold parseRemainingChecks. cbn [split].
  rewrite Z.eqb_refl.
  destruct (split (ch "+") part) as [|p0 [|p1 [|p2 [|? ?]]]] eqn:E;
    try discriminate.
  - destruct (checksInRange _ _) as [[w' b']|]; [|discriminate].
    intros [= -> ->]. by rewrite bool_decide_eq_true_2.
  - case_bool_decide as E0; [|discriminate]. subst p0.
    destruct (split_head_empty _ _ _ E) as [->|E']; [discriminate E|done].
Qed.

Lemma parseRemainingChecks_given_witness :
  parseRemainingChecks (ch "+" :: lit "1+2")
  = Result.ok (mkRemainingChecks (3 - 1) (3 - 2)).
Proof.
  apply (parseRemainingChecks_given (lit "1+2") 1 2); [discriminate|reflexivity].
Defined.

(** ** Pockets and pieces ([fen.ts]) *)

Lemma charToPiece_plain (c : JsString) (p : Piece) :
  charToPiece c = Some p → promoted p = false.
Proof.
  unfold charToPiece. destruct (Util.charToRole _); [|done]. by intros [= <-].
Qed.

Lemma pocketLetters_cons (c : Color) (r : Role) (x : Z) (s : JsString) :
  pocketLetters c r (x :: s)
  = (if decide (charToPiece [x] = Some (mkPiece r c false)) then 1 else 0)
    + pocketLetters c r s.
Proof.
  unfold pocketLetters. rewrite filter_cons. case_decide; cbn [length]; lia.
Qed.

Lemma parsePocketsLoop_counts (s : JsString) (m m' : Material) :
  parsePocketsLoop s m = Result.ok m' →
  Forall (λ x, is_Some (charToPiece [x])) s
  ∧ ∀ c r, Material.count (Material.side m' c) r
           = Material.count (Material.side m c) r + pocketLetters c r s.
Proof.
  revert m. induction s as [|x s IH]; intros m.
  - intros [= <-]. split; [constructor|]. intros c r.
    unfold pocketLetters. cbn [filter list_filter length]. lia.
  - cbn [parsePocketsLoop].
    destruct (charToPiece [x]) as [p|] eqn:Ep; [|discriminate].
    intros H. apply IH in H as [HF HC]. split.
    + constructor; [by rewrite Ep|done].
    + intros c r. rewrite HC, count_incr, pocketLetters_cons, Ep.
      pose proof (charToPiece_plain _ _ Ep) as Hpl.
      destruct p as [pr pc pp]. cbn [color role promoted] in *. subst pp.
      destruct (decide (pc = c ∧ pr = r)) as [[-> ->]|Hn].
      * rewrite decide_True by done. lia.
      * rewrite decide_False; [lia|]. intros [= -> ->]. by apply Hn.
Qed.

Lemma parsePocketsLoop_accepts (s : JsString) (m : Material) :
  Forall (λ x, is_Some (charToPiece [x])) s →
  ∃ m', parsePocketsLoop s m = Result.ok m'.
Proof.
  revert m. induction s as [|x s IH]; intros m HF; [by eexists|].
  apply Forall_cons in HF as [[p Hp] HF]. cbn [parsePocketsLoop].
  rewrite Hp. by apply IH.
Qed.

Lemma count_empty (c : Color) (r : Role) :
  Material.count (Material.side Material.empty c) r = 0.
Proof. by destruct c, r. Qed.

(** X13: [parsePockets] accepts a text exactly when [charToPiece] reads
    every code unit of it, and the pockets it returns count, for each
    color and role, the code units read as that piece. *)
Theorem parsePockets_counts (s : JsString) (m : Material) :
  parsePockets s = Result.ok m ↔
  Forall (λ x, is_Some (charToPiece [x])) s
  ∧ ∀ c r, Material.count (Material.side m c) r = pocketLetters c r s.
Proof.
  unfold parsePockets. split.
  - intros H. apply parsePocketsLoop_counts in H as [HF HC].
    split; [done|]. intros c r. rewrite HC, count_empty. lia.
  - intros [HF HC].
    destruct (parsePocketsLoop_accepts s Material.empty HF) as [m' Hm'].
    rewrite Hm'. f_equal. apply material_ext. intros c r.
    apply parsePocketsLoop_counts in Hm' as [_ HC'].
    rewrite HC', HC, count_empty. lia.
Qed.

Lemma incr_comm (m : Material) (c c' : Color) (r r' : Role) :
  Material.incr (Material.incr m c r) c' r'
  = Material.incr (Material.incr m c' r') c r.
Proof.
  apply material_ext. intros c0 r0. rewrite !count_incr. lia.
Qed.

Lemma parsePocketsLoop_perm (s s' : JsString) :
  s ≡ₚ s' → ∀ m, parsePocketsLoop s m = parsePocketsLoop s' m.
Proof.
  induction 1 as [|x s s' _ IH|x y s|s s' s'' _ IH1 _ IH2]; intros m.
  - done.
  - cbn [parsePocketsLoop]. destruct (charToPiece [x]); [apply IH|done].
  - cbn [parsePocketsLoop].
    destruct (charToPiece [x]) as [p|], (charToPiece [y]) as [q|]; try done.
    by rewrite incr_comm.
  - by rewrite IH1, IH2.
Qed.

(** X14: the order of the letters of a pocket text does not matter to
    [parsePockets]: two texts with the same code units in another order
    give the same pockets, or the same error. *)
Theorem parsePockets_permutation (s s' : JsString) :
  s ≡ₚ s' → parsePockets s = parsePockets s'.
Proof. intros H. unfold parsePockets. by apply parsePocketsLoop_perm. Qed.

Lemma parsePockets_permutation_witness :
  parsePockets (lit "Qnp") = parsePockets (lit "nQp").
Proof. apply (parsePockets_permutation (lit "Qnp") (lit "nQp")). apply perm_swap. Defined.

(** X15: [parsePockets] reads back what [makePockets] writes exactly when
    no count of the pockets is negative. *)
Theorem parsePockets_makePockets_exact (m : Material) :
  parsePockets (makePockets m) = Result.ok m ↔ nonNegative m.
Proof.
  split; [|apply parsePockets_makePockets].
  intros H c r. unfold parsePockets in H.
  apply parsePocketsLoop_counts in H as [_ HC].
  rewrite HC, count_empty. unfold pocketLetters. lia.
Qed.

(** X16: [parsePiece] reads back the text [makePiece] writes for a piece;
    the promoted mark comes back only when the [promoted] option had it
    written. *)
Theorem parsePiece_makePiece (p : Piece) (opts : option FenOpts) :
  parsePiece (makePiece p opts) = Some (shownPiece opts p).
Proof.
  destruct p as [r c pr], opts as [[a s e]|];
    destruct r, c, pr; try destruct a; reflexivity.
Qed.

(** X17: [parsePiece] accepts exactly one code unit that [charToPiece]
    reads, alone or followed by a tilde; with the tilde the piece is
    marked as promoted. *)
Theorem parsePiece_shape (str : JsString) (p : Piece) :
  parsePiece str = Some p ↔
  ∃ c q, charToPiece [c] = Some q
         ∧ ((str = [c] ∧ p = q) ∨ (str = [c; ch "~"] ∧ p = setPromoted q)).
Proof.
  split.
  - destruct str as [|c [|t [|? ?]]]; [done| | |].
    + unfold parsePiece. destruct (charToPiece [c]) as [q|] eqn:E; [|done].
      change ((strlen [c] =? 2) && bool_decide (charAt [c] 1 = Some (lit "~")))
        with false.
      change (1 <? strlen [c]) with false. cbv iota.
      intros [= <-]. exists c, q. auto.
    + unfold parsePiece. destruct (charToPiece [c]) as [q|] eqn:E; [|done].
      change (strlen [c; t] =? 2) with true.
      change (1 <? strlen [c; t]) with true.
      change (charAt [c; t] 1) with (Some [t]). cbn [andb].
      case_bool_decide as Ht; [|done].
      intros [= <-]. injection Ht as ->. exists c, q. auto.
    + unfold parsePiece. destruct (charToPiece [c]) as [q|] eqn:E; [|done].
      assert ((strlen (c :: t :: z :: l) =? 2) = false) as ->
        by (apply Z.eqb_neq; unfold strlen; cbn [length]; lia).
      assert ((1 <? strlen (c :: t :: z :: l)) = true) as ->
        by (apply Z.ltb_lt; unfold strlen; cbn [length]; lia).
      done.
  - intros (c & q & Hq & [[-> ->]|[-> ->]]); unfold parsePiece; rewrite Hq.
    + reflexivity.
    + reflexivity.
Qed.

(** ** Castling rights ([fen.ts]) *)

Lemma scanFiles_adds (b : gmap Z Piece) (col : Color) (rank : Z)
    (files : list Z) (u : gset Z) :
  scanFiles b col rank files u = u
  ∨ ∃ sq p, scanFiles b col rank files u = {[sq]} ∪ u
            ∧ b !! sq = Some p ∧ color p = col ∧ role p = Rook.
Proof.
  induction files as [|f files IH]; cbn [scanFiles]; [by left|].
  unfold Board.get.
  destruct (b !! (f + 8 * rank)) as [p|] eqn:E; [|done].
  destruct (bool_decide (color p = col) && bool_decide (role p = King));
    [by left|].
  destruct (bool_decide (color p = col) && bool_decide (role p = Rook)) eqn:R;
    [|done].
  apply andb_true_iff in R as [Hc Hr].
  apply bool_decide_eq_true_1 in Hc, Hr.
  right. by exists (f + 8 * rank), p.
Qed.

Lemma size_union_le (X Y : gset Z) : (size (X ∪ Y) ≤ size X + size Y)%nat.
Proof.
  rewrite size_union_alt.
  assert (size (Y ∖ X) ≤ size Y)%nat; [|lia].
  apply subseteq_size. intros x. rewrite elem_of_difference. tauto.
Qed.

Lemma castlingFold_adds (b : gmap Z Piece) (col : Color) (s : JsString)
    (u : gset Z) :
  Forall (λ c, (if c =? lowerUnit c then Black else White) = col) s →
  ∃ A : gset Z,
    foldl (castlingStep b) u s = u ∪ A
    ∧ (size A ≤ length s)%nat
    ∧ ∀ sq, sq ∈ A → ∃ p, b !! sq = Some p ∧ color p = col ∧ role p = Rook.
Proof.
  intros Hs. revert u. induction Hs as [|c s Hc _ IH]; intros u.
  - exists ∅. split_and!.
    + cbn [foldl]. apply set_eq. intros x.
      rewrite elem_of_union, elem_of_empty. tauto.
    + rewrite size_empty. lia.
    + intros sq Hsq. by apply elem_of_empty in Hsq.
  - cbn [foldl].
    assert (castlingStep b u c = u
            ∨ ∃ sq p, castlingStep b u c = {[sq]} ∪ u
                      ∧ b !! sq = Some p ∧ color p = col ∧ role p = Rook)
      as [->|(sq & p & -> & Hp & Hcol & Hr)].
    { unfold castlingStep. rewrite Hc. apply scanFiles_adds. }
    + destruct (IH u) as (A & -> & Hsz & HA). exists A.
      split_and!; [done|cbn [length]; lia|done].
    + destruct (IH ({[sq]} ∪ u)) as (A & -> & Hsz & HA).
      exists ({[sq]} ∪ A). split_and!.
      * apply set_eq. intros x. rewrite !elem_of_union. tauto.
      * pose proof (size_union_le {[sq]} A) as Hle.
        rewrite size_singleton in Hle. cbn [length]. lia.
      * intros x. rewrite elem_of_union, elem_of_singleton.
        intros [->|Hx]; [by exists p|by apply HA].
Qed.

Lemma castlingUpper_white (c : Z) :
  isCastlingUpper c = true → (if c =? lowerUnit c then Black else White) = White.
Proof.
  unfold isCastlingUpper, inRange, lowerUnit.
  change (ch "K") with 75. change (ch "Q") with 81.
  change (ch "A") with 65. change (ch "H") with 72. change (ch "Z") with 90.
  change (ch "k") with 107.
  intros H. repeat case_match; try done; lia.
Qed.

Lemma castlingLower_black (c : Z) :
  isCastlingLower c = true → (if c =? lowerUnit c then Black else White) = Black.
Proof.
  unfold isCastlingLower, inRange, lowerUnit.
  change (ch "k") with 107. change (ch "q") with 113.
  change (ch "a") with 97. change (ch "h") with 104.
  change (ch "A") with 65. change (ch "Z") with 90.
  intros H. repeat case_match; try done; lia.
Qed.

Lemma castlingRegex_split (s : JsString) :
  castlingRegex s = true →
  ∃ upper lower, s = upper ++ lower
    ∧ Forall (λ c, isCastlingUpper c = true) upper
    ∧ Forall (λ c, isCastlingLower c = true) lower
    ∧ (length upper ≤ 2)%nat ∧ (length lower ≤ 2)%nat.
Proof.
  unfold castlingRegex. rewrite existsb_exists. intros (n & Hn & H).
  apply andb_true_iff in H as [H Hlen]. apply andb_true_iff in H as [Hu Hl].
  exists (take n s), (drop n s). split_and!.
  - by rewrite take_drop.
  - apply Forall_forall. intros c Hc. apply list_elem_of_In in Hc.
    by apply (proj1 (forallb_forall _ _) Hu).
  - apply Forall_forall. intros c Hc. apply list_elem_of_In in Hc.
    by apply (proj1 (forallb_forall _ _) Hl).
  - rewrite length_take. cbn [In] in Hn. lia.
  - by apply Nat.leb_le in Hlen.
Qed.

Lemma castlingFold_count (b : gmap Z Piece) (s : JsString) :
  castlingRegex s = true →
  (∀ c, (size (SquareSet.intersect (foldl (castlingStep b) SquareSet.empty s)
                 (Board.pieces b c Rook)) ≤ 2)%nat)
  ∧ (size (foldl (castlingStep b) SquareSet.empty s) ≤ 4)%nat.
Proof.
  intros H.
  destruct (castlingRegex_split s H) as (upper & lower & -> & Hu & Hl & Lu & Ll).
  rewrite foldl_app.
  destruct (castlingFold_adds b White upper SquareSet.empty) as (Aw & -> & Sw & Hw).
  { eapply Forall_impl; [exact Hu|]. apply castlingUpper_white. }
  destruct (castlingFold_adds b Black lower (SquareSet.empty ∪ Aw))
    as (Ab & -> & Sb & Hb).
  { eapply Forall_impl; [exact Hl|]. apply castlingLower_black. }
  unfold SquareSet.empty, SquareSet.intersect. split.
  - intros c.
    assert ((∅ ∪ Aw ∪ Ab) ∩ Board.pieces b c Rook
            ⊆ (if decide (c = White) then Aw else Ab)) as Hsub.
    { intros x. rewrite elem_of_intersection, !elem_of_union, elem_of_pieces.
      intros [[[Hx|Hx]|Hx] (p & Hp & Hc & _)].
      - by apply elem_of_empty in Hx.
      - destruct (Hw x Hx) as (q & Hq & Hqc & _).
        rewrite Hp in Hq. injection Hq as <-.
        rewrite <- Hc, Hqc. by rewrite decide_True.
      - destruct (Hb x Hx) as (q & Hq & Hqc & _).
        rewrite Hp in Hq. injection Hq as <-.
        rewrite <- Hc, Hqc. by rewrite decide_False. }
    apply subseteq_size in Hsub. destruct (decide (c = White)); lia.
  - pose proof (size_union_le (∅ ∪ Aw) Ab).
    pose proof (size_union_le ∅ Aw).
    pose proof (size_empty (C := gset Z)). lia.
Qed.

(** X18: the set that [parseCastlingFen] returns has at most two rooks of
    each color, so at most four squares. *)
Theorem parseCastlingFen_count (b : gmap Z Piece) (str : JsString) (u : gset Z) :
  parseCastlingFen b str = Result.ok u →
  (∀ c, (size (SquareSet.intersect u (Board.pieces b c Rook)) ≤ 2)%nat)
  ∧ (size u ≤ 4)%nat.
Proof.
  unfold parseCastlingFen. case_bool_decide.
  - intros [= <-]. unfold SquareSet.empty, SquareSet.intersect. split.
    + intros c.
      assert (∅ ∩ Board.pieces b c Rook ⊆ (∅ : gset Z)) as Hsub.
      { intros x. rewrite elem_of_intersection. tauto. }
      apply subseteq_size in Hsub. rewrite size_empty in Hsub. lia.
    + rewrite size_empty. lia.
  - destruct (castlingRegex str) eqn:R; cbn [negb]; [|intros [=]].
    intros [= <-]. by apply castlingFold_count.
Qed.

Lemma parseCastlingFen_count_witness :
  (∀ c, (size (SquareSet.intersect {[0%Z]}
                 (Board.pieces (<[0%Z := mkPiece Rook White false]> ∅) c Rook))
         ≤ 2)%nat)
  ∧ (size ({[0%Z]} : gset Z) ≤ 4)%nat.
Proof.
  apply (parseCastlingFen_count (<[0 := mkPiece Rook White false]> ∅) (lit "Q")).
  vm_compute. reflexivity.
Defined.

Lemma castlingLetter_shredder (c : Color) (king : option Z)
    (cands : gset Z) (rook : Z) :
  castlingLetter true c king cands rook
  = [(if decide (c = White) then ch "A" else ch "a") + squareFile rook].
Proof.
  unfold castlingLetter. cbn [negb andb].
  fold (squareFile rook). destruct (toInt32_split rook) as [Hf _].
  assert (squareFile rook = 0 ∨ squareFile rook = 1 ∨ squareFile rook = 2
          ∨ squareFile rook = 3 ∨ squareFile rook = 4 ∨ squareFile rook = 5
          ∨ squareFile rook = 6 ∨ squareFile rook = 7)
    as [->|[->|[->|[->|[->|[->|[->| ->]]]]]]] by lia;
    by destruct c.
Qed.

Lemma concat_singletons {A B} (f : A → B) (l : list A) :
  concat ((λ x, [f x]) <$> l) = f <$> l.
Proof. induction l as [|x l IH]; [done|]. cbn. by rewrite IH. Qed.

(** X19: with the [shredder] option, [makeCastlingFen] writes every
    unmoved rook as the letter of its file, upper case for white and lower
    case for black, white rooks first and each color from the h-file down;
    it writes a dash when there is none. *)
Theorem makeCastlingFen_shredder (b : gmap Z Piece) (ur : gset Z)
    (opts : option FenOpts) :
  optOf opts optShredder = true →
  makeCastlingFen b ur opts
  = let fen := ((λ rook, ch "A" + squareFile rook) <$> writtenRooks b ur White)
               ++ ((λ rook, ch "a" + squareFile rook) <$> writtenRooks b ur Black) in
    if bool_decide (fen = []) then lit "-" else fen.
Proof.
  intros H. unfold makeCastlingFen, COLORS. cbn [foldl].
  rewrite !makeCastlingFenColor_text, H. cbn [app].
  rewrite (list_fmap_ext _ (λ rook, [ch "A" + squareFile rook])
             (writtenRooks b ur White))
    by (intros; apply castlingLetter_shredder).
  rewrite (list_fmap_ext _ (λ rook, [ch "a" + squareFile rook])
             (writtenRooks b ur Black))
    by (intros; apply castlingLetter_shredder).
  by rewrite !concat_singletons.
Qed.

Lemma makeCastlingFen_shredder_witness :
  makeCastlingFen (board sampleSetup) (unmovedRooks sampleSetup)
    (Some (mkFenOpts false true false))
  = let fen := ((λ rook, ch "A" + squareFile rook)
                  <$> writtenRooks (board sampleSetup) (unmovedRooks sampleSetup) White)
               ++ ((λ rook, ch "a" + squareFile rook)
                  <$> writtenRooks (board sampleSetup) (unmovedRooks sampleSetup) Black) in
    if bool_decide (fen = []) then lit "-" else fen.
Proof.
  apply (makeCastlingFen_shredder (board sampleSetup) (unmovedRooks sampleSetup)
           (Some (mkFenOpts false true false))).
  reflexivity.
Defined.

Lemma scanFiles_fmap (g : Piece → Piece) (b : gmap Z Piece) (c : Color)
    (rank : Z) (files : list Z) (u : gset Z) :
  (∀ p, color (g p) = color p ∧ role (g p) = role p) →
  scanFiles (g <$> b) c rank files u = scanFiles b c rank files u.
Proof.
  intros Hg. induction files as [|f files IH]; [done|].
  cbn [scanFiles]. unfold Board.get. rewrite lookup_fmap.
  destruct (b !! (f + 8 * rank)) as [p|]; cbn [fmap option_fmap option_map];
    [|exact IH].
  destruct (Hg p) as [-> ->]. by rewrite IH.
Qed.

Lemma castlingFold_fmap (g : Piece → Piece) (b : gmap Z Piece)
    (s : JsString) (u : gset Z) :
  (∀ p, color (g p) = color p ∧ role (g p) = role p) →
  foldl (castlingStep (g <$> b)) u s = foldl (castlingStep b) u s.
Proof.
  intros Hg. revert u. induction s as [|c s IH]; intros u; [done|].
  cbn [foldl]. rewrite IH. f_equal. unfold castlingStep.
  by apply scanFiles_fmap.
Qed.

Lemma parseCastlingFen_fmap (g : Piece → Piece) (b : gmap Z Piece)
    (s : JsString) :
  (∀ p, color (g p) = color p ∧ role (g p) = role p) →
  parseCastlingFen (g <$> b) s = parseCastlingFen b s.
Proof.
  intros Hg. unfold parseCastlingFen. by rewrite castlingFold_fmap.
Qed.

(** X20: on one and the same board, [parseCastlingFen] reads back the set
    of unmoved rooks that [makeCastlingFen] wrote, with or without the
    [shredder] option, when the rooks stand on their home ranks and are at
    most two for each color. *)
Theorem parseCastlingFen_makeCastlingFen_board (b : gmap Z Piece)
    (ur : gset Z) (opts : option FenOpts) :
  (∀ sq, sq ∈ dom b → 0 ≤ sq ≤ 63) →
  (∀ sq, sq ∈ ur → isHomeRook b sq) →
  (∀ c, (length (writtenRooks b ur c) ≤ 2)%nat) →
  parseCastlingFen b (makeCastlingFen b ur opts) = Result.ok ur.
Proof.
  intros Hb Hr Hn.
  destruct (parseCastlingFen_makeCastlingFen b ur opts Hb Hr Hn) as [H _].
  by rewrite parseCastlingFen_fmap in H.
Qed.

Lemma parseCastlingFen_makeCastlingFen_board_witness :
  parseCastlingFen (board sampleSetup)
    (makeCastlingFen (board sampleSetup) (unmovedRooks sampleSetup) None)
  = Result.ok (unmovedRooks sampleSetup).
Proof.
  apply (parseCastlingFen_makeCastlingFen_board (board sampleSetup)
           (unmovedRooks sampleSetup) None).
  - apply (carried_board _ sampleSetup_carried).
  - apply (carried_rooks _ sampleSetup_carried).
  - apply (carried_rook_count _ sampleSetup_carried).
Defined.

(** ** What [parseFen] returns ([fen.ts]) *)

Lemma dom_set_range (b : gmap Z Piece) (r f : Z) (p : Piece) :
  (∀ sq, sq ∈ dom b → 0 ≤ sq ≤ 63) → 0 ≤ f → r ≤ 7 →
  (8 <=? f) || (r <? 0) = false →
  ∀ sq, sq ∈ dom (Board.set b (f + r * 8) p) → 0 ≤ sq ≤ 63.
Proof.
  intros Hb Hf Hr Hc sq. unfold Board.set.
  rewrite dom_insert, elem_of_union, elem_of_singleton.
  apply orb_false_iff in Hc as [H1 H2].
  apply Z.leb_gt in H1. apply Z.ltb_ge in H2.
  intros [->|H]; [lia|by apply Hb].
Qed.

Lemma parseIntUnit_nonneg (c : Z) : 0 ≤ default 0 (parseIntUnit c).
Proof.
  unfold parseIntUnit. destruct (isDigit c) eqn:E; simpl; [|lia].
  apply isDigit_range in E. change (ch "0") with 48. lia.
Qed.

Lemma parseBoardFenLoop_dom (n : nat) (s : JsString) (b : gmap Z Piece)
    (r f : Z) (b' : gmap Z Piece) (r' f' : Z) :
  (length s ≤ n)%nat →
  parseBoardFenLoop s b r f = Result.ok (b', r', f') →
  0 ≤ f → r ≤ 7 →
  (∀ sq, sq ∈ dom b → 0 ≤ sq ≤ 63) →
  ∀ sq, sq ∈ dom b' → 0 ≤ sq ≤ 63.
Proof.
  revert s b r f. induction n as [|n IH]; intros s b r f Hlen.
  - destruct s; [|cbn [length] in Hlen; lia].
    cbn [parseBoardFenLoop]. intros [= <- <- <-]. auto.
  - destruct s as [|c rest];
      [cbn [parseBoardFenLoop]; intros [= <- <- <-]; auto|].
    cbn [length] in Hlen. cbn [parseBoardFenLoop]. unfold fail.
    destruct ((c =? ch "/") && (f =? 8)).
    { intros H Hf Hr Hb. eapply (IH rest); [lia|exact H|lia|lia|done]. }
    destruct (truthyNumber (parseIntUnit c)).
    { intros H Hf Hr Hb. pose proof (parseIntUnit_nonneg c).
      eapply (IH rest); [lia|exact H|lia|lia|done]. }
    destruct ((8 <=? f) || (r <? 0)) eqn:E; [discriminate|].
    destruct (charToPiece [c]) as [p|]; [|discriminate].
    destruct rest as [|t rest'].
    { intros H Hf Hr Hb.
      eapply (IH []); [cbn [length]; lia|exact H|lia|lia|by apply dom_set_range]. }
    destruct (t =? ch "~").
    + intros H Hf Hr Hb. cbn [length] in Hlen.
      eapply (IH rest'); [lia|exact H|lia|lia|by apply dom_set_range].
    + intros H Hf Hr Hb.
      eapply (IH (t :: rest')); [lia|exact H|lia|lia|by apply dom_set_range].
Qed.

Lemma parseBoardFen_dom (s : JsString) (b : gmap Z Piece) :
  parseBoardFen s = Result.ok b → ∀ sq, sq ∈ dom b → 0 ≤ sq ≤ 63.
Proof.
  unfold parseBoardFen.
  destruct (parseBoardFenLoop s Board.empty 7 0) as [[[b' r'] f']|e] eqn:E;
    [|discriminate].
  destruct (negb (r' =? 0) || negb (f' =? 8)); [discriminate|].
  intros [= <-].
  eapply (parseBoardFenLoop_dom (length s)); [done|exact E|lia|lia|].
  intros sq Hsq. unfold Board.empty in Hsq. rewrite dom_empty in Hsq.
  by apply elem_of_empty in Hsq.
Qed.

Lemma ascending_length (s : gset Z) :
  (length (SquareSet.ascending s) ≤ size s)%nat.
Proof.
  unfold SquareSet.ascending, size, set_size. cbn [compose].
  apply submseteq_length, NoDup_submseteq.
  - apply NoDup_filter, NoDup_seqZ.
  - intros x Hx. apply list_elem_of_filter in Hx as [Hx _].
    by apply elem_of_elements.
Qed.

Lemma parseCastlingFen_carried (b : gmap Z Piece) (str : JsString) (u : gset Z) :
  parseCastlingFen b str = Result.ok u →
  (∀ sq, sq ∈ u → isHomeRook b sq)
  ∧ ∀ c, (length (writtenRooks b u c) ≤ 2)%nat.
Proof.
  intros H.
  assert ((∀ sq, sq ∈ u → isHomeRook b sq)
          ∧ ∀ c, (size (SquareSet.intersect u (Board.pieces b c Rook)) ≤ 2)%nat)
    as [Hhome Hcount].
  { unfold parseCastlingFen in H. case_bool_decide.
    - injection H as <-. unfold SquareSet.empty, SquareSet.intersect. split.
      + intros sq Hsq. by apply elem_of_empty in Hsq.
      + intros c.
        assert (∅ ∩ Board.pieces b c Rook ⊆ (∅ : gset Z)) as Hsub.
        { intros x. rewrite elem_of_intersection. tauto. }
        apply subseteq_size in Hsub. rewrite size_empty in Hsub. lia.
    - destruct (castlingRegex str) eqn:R; cbn [negb] in H; [|discriminate H].
      injection H as <-. split.
      + apply castlingFold_home; [by apply castlingRegex_chars|].
        intros sq Hsq. by apply elem_of_empty in Hsq.
      + by apply castlingFold_count. }
  split; [done|]. intros c. unfold writtenRooks, SquareSet.reversed.
  rewrite length_reverse.
  pose proof (ascending_length (SquareSet.intersect u (candidates b c))) as H1.
  assert (SquareSet.intersect u (candidates b c)
          ⊆ SquareSet.intersect u (Board.pieces b c Rook)) as Hsub.
  { unfold candidates, SquareSet.intersect. intros x.
    rewrite !elem_of_intersection. tauto. }
  apply subseteq_size in Hsub. specialize (Hcount c). lia.
Qed.

Lemma parseFen_fields (fen : JsString) (s : Setup) :
  parseFen fen = Returns (Result.ok s) →
  (∃ bt, parseBoardFen bt = Result.ok (board s))
  ∧ (∀ m, pockets s = Some m → ∃ pt, parsePockets pt = Result.ok m)
  ∧ (unmovedRooks s = SquareSet.empty
     ∨ ∃ ct, parseCastlingFen (board s) ct = Result.ok (unmovedRooks s))
  ∧ (∀ sq, epSquare s = Some sq → ∃ et, parseSquare et = Some sq)
  ∧ (∀ rc, remainingChecks s = Some rc →
           ∃ rt, parseRemainingChecks rt = Result.ok rc)
  ∧ (halfmoves s = 0 ∨ ∃ ht, parseSmallUint ht = Some (halfmoves s))
  ∧ (∃ n, fullmoves s = Z.max 1 n
          ∧ (n = 1 ∨ ∃ ft, parseSmallUint ft = Some n)).
Proof.
  intros H. unfold parseFen in H.
  unfold Result.chain, Result.map, fail in H.
  repeat (case_match; simplify_eq);
    cbn [board pockets unmovedRooks epSquare remainingChecks halfmoves fullmoves];
    split_and!; eauto; try (intros; simplify_eq; eauto).
Qed.

Lemma parseFen_result_carried (fen : JsString) (s : Setup) :
  parseFen fen = Returns (Result.ok s) → Carried s.
Proof.
  intros H.
  destruct (parseFen_fields fen s H)
    as ((bt & Hb) & Hp & Hc & He & Hr & Hh & (n & Hf & Hn)).
  split.
  - by apply (parseBoardFen_dom bt).
  - intros m Hm. destruct (Hp m Hm) as [pt Hpt]. unfold parsePockets in Hpt.
    apply parsePocketsLoop_counts in Hpt as [_ HC].
    intros c r. rewrite HC, count_empty. unfold pocketLetters. lia.
  - destruct Hc as [->|[ct Hct]].
    + intros sq Hsq. by apply elem_of_empty in Hsq.
    + by apply parseCastlingFen_carried in Hct as [? _].
  - destruct Hc as [->|[ct Hct]].
    + intros c. unfold writtenRooks, SquareSet.reversed. rewrite length_reverse.
      pose proof (ascending_length
        (SquareSet.intersect SquareSet.empty (candidates (board s) c))) as H1.
      assert (SquareSet.intersect SquareSet.empty (candidates (board s) c)
              ⊆ (∅ : gset Z)) as Hsub.
      { unfold SquareSet.intersect, SquareSet.empty. intros x.
        rewrite elem_of_intersection. tauto. }
      apply subseteq_size in Hsub. rewrite size_empty in Hsub. lia.
    + by apply parseCastlingFen_carried in Hct as [_ ?].
  - intros sq Hsq. destruct (He sq Hsq) as [et Het].
    apply parseSquare_range in Het as (? & ? & _ & ? & ? & ->). lia.
  - intros rc Hrc. destruct (Hr rc Hrc) as [rt Hrt].
    by apply parseRemainingChecks_bounds in Hrt.
  - destruct Hh as [->|[ht Hht]]; [lia|].
    apply parseSmallUint_Some in Hht as (Hl & Hd & ->).
    apply parseIntDigits_bounds; [lia|done].
  - rewrite Hf. destruct Hn as [->|[ft Hft]]; [lia|].
    apply parseSmallUint_Some in Hft as (Hl & Hd & ->).
    pose proof (parseIntDigits_bounds ft ltac:(lia) Hd). lia.
Qed.

(** X21: every setup that [parseFen] returns is in the range of the
    notation: board squares and en passant square in 0..63, natural pocket
    counts, unmoved rooks on their home ranks and at most two for each
    color, check counts in 0..3, a halfmove clock in 0..9999 and a fullmove
    number in 1..9999. *)
Theorem parseFen_carried (fen : JsString) (s : Setup) :
  parseFen fen = Returns (Result.ok s) → Carried s.
Proof. apply parseFen_result_carried. Qed.

Lemma parseFen_carried_witness : Carried sampleSetup.
Proof.
  apply (parseFen_carried
           (lit "r3k3/8/8/4p3/8/8/8/4K2R[PBBnq] w Kq e6 3+2 0 12")).
  vm_compute. reflexivity.
Defined.

(** X22: writing a setup that [parseFen] returned and reading it again
    gives the same setup, when the [promoted] option is on and the clocks
    are written; without the [promoted] option the promoted marks of the
    board are the only thing lost. *)
Theorem parseFen_makeFen_parseFen (fen : JsString) (s : Setup)
    (opts : option FenOpts) :
  parseFen fen = Returns (Result.ok s) →
  optOf opts optEpd = false →
  parseFen (makeFen s opts)
  = Returns (Result.ok (withBoard s (shownPiece opts <$> board s)))
  ∧ (optOf opts optPromoted = true →
     parseFen (makeFen s opts) = Returns (Result.ok s)).
Proof.
  intros H Hepd. apply parseFen_result_carried in H. split.
  - by apply parseFen_makeFen_shown.
  - intros Hp. apply parseFen_makeFen_opts; auto.
Qed.

Lemma parseFen_makeFen_parseFen_witness :
  parseFen (makeFen sampleSetup (Some (mkFenOpts true false false)))
  = Returns (Result.ok
      (withBoard sampleSetup
         (shownPiece (Some (mkFenOpts true false false)) <$> board sampleSetup)))
  ∧ (optOf (Some (mkFenOpts true false false)) optPromoted = true →
     parseFen (makeFen sampleSetup (Some (mkFenOpts true false false)))
     = Returns (Result.ok sampleSetup)).
Proof.
  apply (parseFen_makeFen_parseFen
           (lit "r3k3/8/8/4p3/8/8/8/4K2R[PBBnq] w Kq e6 3+2 0 12") sampleSetup
           (Some (mkFenOpts true false false))).
  - vm_compute. reflexivity.
  - reflexivity.
Defined.

(** ** The fields of a FEN ([fen.ts]) *)

(** X23: a FEN that [parseFen] accepts has at most seven fields, and one
    with seven fields carries check counts. *)
Theorem parseFen_field_count (fen : JsString) (s : Setup) :
  parseFen fen = Returns (Result.ok s) →
  (1 ≤ length (split (ch " ") fen) ≤ 7)%nat
  ∧ (length (split (ch " ") fen) = 7%nat → is_Some (remainingChecks s)).
Proof.
  intros H. split.
  - split; [|by eapply parseFen_fields_le].
    pose proof (split_nonempty (ch " ") fen).
    destruct (split (ch " ") fen); [done|cbn [length]; lia].
  - intros Hlen. unfold parseFen in H.
    destruct (split (ch " ") fen) as [|b [|t [|c [|e [|h [|h2 [|f [|l rest]]]]]]]];
      try discriminate Hlen.
    cbn [shift] in H. cbv zeta in H.
    destruct (includes h (ch "+")); cbn [shift] in H; parseFen_cases;
      cbn [remainingChecks]; eauto.
Qed.

Lemma parseFen_field_count_witness :
  (1 ≤ length (split (ch " ") EMPTY_FEN) ≤ 7)%nat
  ∧ (length (split (ch " ") EMPTY_FEN) = 7%nat →
     is_Some (remainingChecks
       {| board := ∅; pockets := None; turn := White; unmovedRooks := ∅;
          remainingChecks := None; epSquare := None;
          halfmoves := 0; fullmoves := 1 |})).
Proof. apply (parseFen_field_count EMPTY_FEN). vm_compute. reflexivity. Defined.

(** X24: the check counts may stand before the clocks or after them:
    [parseFen] gives the same result, or the same error, for both
    orders. *)
Theorem parseFen_remaining_checks_position
    (fen0 fen1 b t c e rc h f : JsString) :
  split (ch " ") fen0 = [b; t; c; e; rc; h; f] →
  split (ch " ") fen1 = [b; t; c; e; h; f; rc] →
  includes rc (ch "+") = true →
  includes h (ch "+") = false →
  parseFen fen0 = parseFen fen1.
Proof.
  intros H0 H1 Hrc Hh. unfold parseFen. rewrite H0, H1.
  cbn [shift]. cbv zeta. rewrite Hrc, Hh. cbn [shift]. reflexivity.
Qed.

Lemma parseFen_remaining_checks_position_witness :
  parseFen (lit "8/8/8/8/8/8/8/8 w - - 3+3 0 1")
  = parseFen (lit "8/8/8/8/8/8/8/8 w - - 0 1 3+3").
Proof.
  apply (parseFen_remaining_checks_position _ _
           (lit "8/8/8/8/8/8/8/8") (lit "w") (lit "-") (lit "-")
           (lit "3+3") (lit "0") (lit "1")); reflexivity.
Defined.

Lemma split_app (sep : Z) (a b : JsString) :
  split sep (a ++ sep :: b) = split sep a ++ split sep b.
Proof.
  induction a as [|c a IH]; cbn [app split].
  - by rewrite Z.eqb_refl.
  - destruct (c =? sep); [by rewrite IH|]. rewrite IH.
    pose proof (split_nonempty sep a). by destruct (split sep a).
Qed.

Lemma digits_no_unit (str : JsString) (n c : Z) :
  parseSmallUint str = Some n → ¬ (48 ≤ c ≤ 57) → c ∉ str.
Proof.
  intros H Hc Hin. apply parseSmallUint_Some in H as (_ & Hd & _).
  rewrite Forall_forall in Hd. apply Hd in Hin. lia.
Qed.

Lemma digits_head (str : JsString) (n : Z) :
  parseSmallUint str = Some n → ∃ d rest, str = d :: rest ∧ 48 ≤ d ≤ 57.
Proof.
  intros H. apply parseSmallUint_Some in H as (Hl & Hd & _).
  destruct str as [|d rest]; [cbn [length] in Hl; lia|].
  apply Forall_cons in Hd as [? _]. eauto.
Qed.

Lemma digits_not_turn (str : JsString) (n : Z) :
  parseSmallUint str = Some n →
  bool_decide (str = lit "w") = false ∧ bool_decide (str = lit "b") = false
  ∧ bool_decide (str = lit "-") = false.
Proof.
  intros H. destruct (digits_head str n H) as (d & rest & -> & Hd).
  change (lit "w") with [119]. change (lit "b") with [98].
  change (lit "-") with [45].
  split_and!; apply bool_decide_eq_false_2; intros [= -> _]; lia.
Qed.

Lemma digits_not_square (str : JsString) (n : Z) :
  parseSmallUint str = Some n → parseSquare str = None.
Proof.
  intros H. destruct (digits_head str n H) as (d & rest & -> & Hd).
  destruct (parseSquare (d :: rest)) as [sq|] eqn:E; [|done].
  apply parseSquare_range in E as (f & r & [= -> _] & ? & _). lia.
Qed.

Lemma digits_not_checks (str : JsString) (n : Z) :
  parseSmallUint str = Some n →
  parseRemainingChecks str = fail ERR_REMAINING_CHECKS.
Proof.
  intros H. unfold parseRemainingChecks.
  rewrite split_no_sep; [done|].
  apply (digits_no_unit str n); [done|]. change (ch "+") with 43. lia.
Qed.

Lemma parseFen_drop_clocks (x h f : JsString) (hn fn : Z) (s : Setup) :
  parseSmallUint h = Some hn → parseSmallUint f = Some fn →
  parseFen (x ++ lit " " ++ h ++ lit " " ++ f) = Returns (Result.ok s) →
  parseFen x = Returns (Result.ok (withClocks s 0 1)).
Proof.
  intros Hh Hf H. pose proof (parseFen_fields_le _ _ H) as Hlen.
  assert (split (ch " ") (x ++ lit " " ++ h ++ lit " " ++ f)
          = split (ch " ") x ++ [h; f]) as Hsplit.
  { change (lit " " ++ h ++ lit " " ++ f) with (ch " " :: h ++ ch " " :: f).
    rewrite split_app, split_app_sep, (split_no_sep _ f); [done| |].
    - apply (digits_no_unit f fn); [done|]. change (ch " ") with 32. lia.
    - apply (digits_no_unit h hn); [done|]. change (ch " ") with 32. lia. }
  rewrite Hsplit in Hlen. rewrite length_app in Hlen. cbn [length] in Hlen.
  unfold parseFen in *. rewrite Hsplit in H. clear Hsplit.
  destruct (digits_not_turn h hn Hh) as (Hw & Hb & Hd).
  destruct (digits_not_turn f fn Hf) as (_ & _ & Hfd).
  pose proof (digits_not_square h hn Hh) as Hsq.
  pose proof (digits_not_square f fn Hf) as Hfsq.
  pose proof (digits_not_checks f fn Hf) as Hck.
  assert (includes h (ch "+") = false) as Hplus.
  { apply includes_false, (digits_no_unit h hn); [done|].
    change (ch "+") with 43. lia. }
  pose proof (split_nonempty (ch " ") x) as Hne.
  destruct (split (ch " ") x) as [|b [|t [|c [|e [|x5 [|x6 rest]]]]]];
    cbn [app shift] in H; cbn [shift]; cbv zeta in H; cbv zeta.
  - done.
  - rewrite Hw, Hb in H. parseFen_cases.
  - rewrite Hfd, Hfsq in H. cbn [negb] in H. parseFen_cases.
  - rewrite Hd, Hsq in H. cbn [negb] in H. parseFen_cases.
  - rewrite Hplus in H. cbn [shift] in H. rewrite Hh, Hf in H.
    parseFen_cases; reflexivity.
  - destruct (includes x5 (ch "+")); cbn [shift] in H; cbn [shift].
    + rewrite Hh, Hf in H. parseFen_cases; reflexivity.
    + rewrite Hck in H. parseFen_cases.
  - cbn [length] in Hlen. lia.
Qed.

(** X25: leaving out the clocks.  When a FEN that ends with a halfmove
    clock and a fullmove number is accepted, the text without these two
    fields is accepted as well and gives the same setup with the clocks 0
    and 1. *)
Theorem parseFen_without_clocks (x h f : JsString) (hn fn : Z) (s : Setup) :
  parseSmallUint h = Some hn → parseSmallUint f = Some fn →
  parseFen (x ++ lit " " ++ h ++ lit " " ++ f) = Returns (Result.ok s) →
  parseFen x = Returns (Result.ok (withClocks s 0 1))
  ∧ halfmoves s = hn ∧ fullmoves s = Z.max 1 fn.
Proof.
  intros Hh Hf H. split; [exact (parseFen_drop_clocks x h f hn fn s Hh Hf H)|].
  assert (split (ch " ") (x ++ lit " " ++ h ++ lit " " ++ f)
          = split (ch " ") x ++ [h; f]) as Hsplit.
  { change (lit " " ++ h ++ lit " " ++ f) with (ch " " :: h ++ ch " " :: f).
    rewrite split_app, split_app_sep, (split_no_sep _ f); [done| |].
    - apply (digits_no_unit f fn); [done|]. change (ch " ") with 32. lia.
    - apply (digits_no_unit h hn); [done|]. change (ch " ") with 32. lia. }
  pose proof (parseFen_fields_le _ _ H) as Hlen.
  rewrite Hsplit in Hlen. rewrite length_app in Hlen. cbn [length] in Hlen.
  unfold parseFen in H. rewrite Hsplit in H. clear Hsplit.
  destruct (digits_not_turn h hn Hh) as (Hw & Hb & Hd).
  destruct (digits_not_turn f fn Hf) as (_ & _ & Hfd).
  pose proof (digits_not_square h hn Hh) as Hsq.
  pose proof (digits_not_square f fn Hf) as Hfsq.
  pose proof (digits_not_checks f fn Hf) as Hck.
  assert (includes h (ch "+") = false) as Hplus.
  { apply includes_false, (digits_no_unit h hn); [done|].
    change (ch "+") with 43. lia. }
  pose proof (split_nonempty (ch " ") x) as Hne.
  destruct (split (ch " ") x) as [|b [|t [|c [|e [|x5 [|x6 rest]]]]]];
    cbn [app shift] in H; cbv zeta in H.
  - done.
  - rewrite Hw, Hb in H. parseFen_cases.
  - rewrite Hfd, Hfsq in H. cbn [negb] in H. parseFen_cases.
  - rewrite Hd, Hsq in H. cbn [negb] in H. parseFen_cases.
  - rewrite Hplus in H. cbn [shift] in H. rewrite Hh, Hf in H.
    parseFen_cases; done.
  - destruct (includes x5 (ch "+")); cbn [shift] in H.
    + rewrite Hh, Hf in H. parseFen_cases; done.
    + rewrite Hck in H. parseFen_cases.
  - cbn [length] in Hlen. lia.
Qed.

Lemma parseFen_without_clocks_witness :
  parseFen (lit "8/8/8/8/8/8/8/8 b - e3")
  = Returns (Result.ok (withClocks
      {| board := ∅; pockets := None; turn := Black; unmovedRooks := ∅;
         remainingChecks := None; epSquare := Some 20;
         halfmoves := 7; fullmoves := 30 |} 0 1))
  ∧ halfmoves
      {| board := ∅; pockets := None; turn := Black; unmovedRooks := ∅;
         remainingChecks := None; epSquare := Some 20;
         halfmoves := 7; fullmoves := 30 |} = 7
  ∧ fullmoves
      {| board := ∅; pockets := None; turn := Black; unmovedRooks := ∅;
         remainingChecks := None; epSquare := Some 20;
         halfmoves := 7; fullmoves := 30 |} = Z.max 1 30.
Proof.
  apply (parseFen_without_clocks (lit "8/8/8/8/8/8/8/8 b - e3")
           (lit "7") (lit "30") 7 30).
  - reflexivity.
  - reflexivity.
  - vm_compute. reflexivity.
Defined.


Lemma join_clocks (sep : JsString) (parts : list JsString) (h f : JsString) :
  parts ≠ [] →
  join sep (parts ++ [h; f]) = join sep parts ++ sep ++ h ++ sep ++ f.
Proof.
  induction parts as [|p parts IH]; [done|]. intros _.
  destruct parts as [|q parts]; [reflexivity|].
  change (join sep ((p :: q :: parts) ++ [h; f]))
    with (p ++ sep ++ join sep ((q :: parts) ++ [h; f])).
  rewrite IH by done.
  change (join sep (p :: q :: parts)) with (p ++ sep ++ join sep (q :: parts)).
  by rewrite <- !app_assoc.
Qed.

Lemma foldl_pointwise {A B} (g g' : A → B → A) (l : list B) (a : A) :
  (∀ a x, g a x = g' a x) → foldl g a l = foldl g' a l.
Proof.
  intros H. revert a. induction l as [|x l IH]; intros a; [done|].
  cbn [foldl]. by rewrite H, IH.
Qed.

Lemma makePiece_epd (p : Piece) (pr sh e e' : bool) :
  makePiece p (Some (mkFenOpts pr sh e)) = makePiece p (Some (mkFenOpts pr sh e')).
Proof. unfold makePiece. reflexivity. Qed.

Lemma makeBoardFen_epd (b : gmap Z Piece) (pr sh e e' : bool) :
  makeBoardFen b (Some (mkFenOpts pr sh e))
  = makeBoardFen b (Some (mkFenOpts pr sh e')).
Proof.
  assert (∀ st rank,
            makeBoardFenRank b (Some (mkFenOpts pr sh e)) st rank
            = makeBoardFenRank b (Some (mkFenOpts pr sh e')) st rank) as H.
  { intros st rank. unfold makeBoardFenRank.
    apply foldl_pointwise. intros st' file.
    unfold makeBoardFenSquare.
    destruct (Board.get b (file + rank * 8)); [|reflexivity].
    rewrite (makePiece_epd _ pr sh e e'). reflexivity. }
  unfold makeBoardFen. rewrite (foldl_pointwise _ _ _ _ H). reflexivity.
Qed.

Lemma makeCastlingFen_epd (b : gmap Z Piece) (ur : gset Z) (pr sh e e' : bool) :
  makeCastlingFen b ur (Some (mkFenOpts pr sh e))
  = makeCastlingFen b ur (Some (mkFenOpts pr sh e')).
Proof. unfold makeCastlingFen. reflexivity. Qed.

Lemma shownPiece_epd (pr sh e e' : bool) :
  shownPiece (Some (mkFenOpts pr sh e)) = shownPiece (Some (mkFenOpts pr sh e')).
Proof. unfold shownPiece. reflexivity. Qed.

Lemma makeFen_clocks (s : Setup) (promoted shredder : bool) :
  makeFen s (Some (mkFenOpts promoted shredder false))
  = makeFen s (Some (mkFenOpts promoted shredder true))
    ++ lit " " ++ numToString (halfmoves s)
    ++ lit " " ++ numToString (fullmoves s).
Proof.
  unfold makeFen. cbn [optOf optEpd]. rewrite app_nil_r.
  rewrite (makeBoardFen_epd _ _ _ false true).
  rewrite (makeCastlingFen_epd _ _ _ _ false true).
  rewrite (app_assoc _ _ [numToString (halfmoves s); numToString (fullmoves s)]).
  by rewrite join_clocks by done.
Qed.

(** X26: with the [epd] option [makeFen] leaves out the clocks, and
    [parseFen] reads the text back as the setup with the halfmove clock 0
    and the fullmove number 1 (and, as always, with the promoted marks that
    the [promoted] option had written). *)
Theorem parseFen_makeFen_epd (s : Setup) (opts : option FenOpts) :
  Carried s → optOf opts optEpd = true →
  parseFen (makeFen s opts)
  = Returns (Result.ok
      (withClocks (withBoard s (shownPiece opts <$> board s)) 0 1)).
Proof.
  intros Hs Hepd. destruct opts as [[pr sh e]|]; [|discriminate Hepd].
  cbn [optOf optEpd] in Hepd. subst e.
  pose proof (parseFen_makeFen_shown s (Some (mkFenOpts pr sh false)) Hs eq_refl)
    as H.
  rewrite makeFen_clocks, (shownPiece_epd pr sh false true) in H.
  pose proof (carried_halfmoves _ Hs) as Hh.
  pose proof (carried_fullmoves _ Hs) as Hf.
  apply (parseFen_drop_clocks _ _ _ (halfmoves s) (fullmoves s)) in H.
  - exact H.
  - by apply numToString_small.
  - apply numToString_small. lia.
Qed.

Lemma parseFen_makeFen_epd_witness :
  parseFen (makeFen sampleSetup (Some (mkFenOpts false false true)))
  = Returns (Result.ok
      (withClocks
         (withBoard sampleSetup
            (shownPiece (Some (mkFenOpts false false true)) <$> board sampleSetup))
         0 1)).
Proof.
  apply (parseFen_makeFen_epd sampleSetup (Some (mkFenOpts false false true))).
  - exact sampleSetup_carried.
  - reflexivity.
Defined.

(** ** Boards ([fen.ts]) *)

(** X27: a board that [parseBoardFen] returned has its pieces on the
    squares 0..63; written by [makeBoardFen] with the [promoted] option it
    is read back unchanged, and written without options it is read back
    without its promoted marks. *)
Theorem parseBoardFen_makeBoardFen_parseBoardFen (s : JsString)
    (b : gmap Z Piece) :
  parseBoardFen s = Result.ok b →
  (∀ sq, sq ∈ dom b → 0 ≤ sq ≤ 63)
  ∧ parseBoardFen (makeBoardFen b (Some (mkFenOpts true false false)))
    = Result.ok b
  ∧ parseBoardFen (makeBoardFen b None) = Result.ok (shownPiece None <$> b).
Proof.
  intros H. pose proof (parseBoardFen_dom s b H) as Hdom.
  split_and!; [done| |by apply parseBoardFen_makeBoardFen].
  rewrite parseBoardFen_makeBoardFen by done.
  by rewrite shown_noPromoted by (by right).
Qed.

Lemma parseBoardFen_makeBoardFen_parseBoardFen_witness :
  let b : gmap Z Piece :=
    <[56 := mkPiece Pawn Black true]>
      (<[27 := mkPiece Queen White true]>
         (<[28 := mkPiece Knight Black false]>
            (<[7 := mkPiece King White true]> ∅))) in
  (∀ sq, sq ∈ dom b → 0 ≤ sq ≤ 63)
  ∧ parseBoardFen (makeBoardFen b (Some (mkFenOpts true false false)))
    = Result.ok b
  ∧ parseBoardFen (makeBoardFen b None) = Result.ok (shownPiece None <$> b).
Proof.
  apply (parseBoardFen_makeBoardFen_parseBoardFen
           (lit "p~7/8/8/8/3Q~n3/8/8/7K~")).
  vm_compute. reflexivity.
Defined.

(** ** String and array utilities ([util.ts]) *)

Lemma indexOfAux_hit (s : JsString) (c pos from i : Z) :
  indexOfAux s c pos from = i → i ≠ -1 → 0 ≤ pos →
  pos ≤ i ∧ s !! Z.to_nat (i - pos) = Some c.
Proof.
  revert pos. induction s as [|x s IH]; intros pos; cbn [indexOfAux].
  - intros <- Hi. done.
  - destruct ((from <=? pos) && (x =? c)) eqn:E.
    + intros <- _ Hpos. split; [lia|].
      apply andb_true_iff in E as [_ E]. apply Z.eqb_eq in E. subst x.
      by rewrite Z.sub_diag.
    + intros H Hi Hpos. destruct (IH (pos + 1) H Hi ltac:(lia)) as [Hle Hl].
      split; [lia|].
      replace (Z.to_nat (i - pos)) with (S (Z.to_nat (i - (pos + 1)))) by lia.
      exact Hl.
Qed.

Lemma indexOf_hit (s : JsString) (c from : Z) :
  indexOf s c from ≠ -1 → s !! Z.to_nat (indexOf s c from) = Some c.
Proof.
  intros H. unfold indexOf in *.
  destruct (indexOfAux_hit s c 0 from _ eq_refl H ltac:(lia)) as [_ Hl].
  by rewrite Z.sub_0_r in Hl.
Qed.

Lemma nthIndexOfLoop_some (k : nat) (s : JsString) (c idx : Z) :
  0 ≤ idx → s !! Z.to_nat idx = Some c →
  (k ≤ occurrences c (drop (Z.to_nat (idx + 1)) s))%nat →
  ∃ i, UtilFp.nthIndexOfLoop k s c idx = i ∧ 0 ≤ i
       ∧ s !! Z.to_nat i = Some c
       ∧ (occurrences c (drop (Z.to_nat (i + 1)) s) + k
          = occurrences c (drop (Z.to_nat (idx + 1)) s))%nat.
Proof.
  revert idx. induction k as [|k IH]; intros idx Hidx Hc Hk.
  - exists idx. cbn [UtilFp.nthIndexOfLoop]. split_and!; try done; lia.
  - cbn [UtilFp.nthIndexOfLoop].
    rewrite (proj2 (Z.eqb_neq idx (-1))) by lia.
    destruct (indexOf_spec s c (idx + 1) ltac:(lia)) as [[_ H0]|[Hle Hn]];
      [lia|].
    assert (indexOf s c (idx + 1) ≠ -1) as Hne by lia.
    destruct (IH (indexOf s c (idx + 1)) ltac:(lia) (indexOf_hit _ _ _ Hne)
                ltac:(lia)) as (i & Hi & Hpos & Hci & Hcount).
    exists i. split_and!; try done. lia.
Qed.

Lemma occurrences_split (c : Z) (s : JsString) (i : nat) :
  s !! i = Some c →
  occurrences c s
  = (occurrences c (take i s) + 1 + occurrences c (drop (S i) s))%nat.
Proof.
  intros H. rewrite <- (take_drop_middle s i c H) at 1.
  rewrite occurrences_app, occurrences_cons. rewrite decide_True by done. lia.
Qed.

(** X28: [nthIndexOf] counts the needles from zero.  When the haystack has
    more than [n] of them it returns the index of one that has exactly [n]
    others before it; otherwise it returns -1. *)
Theorem nthIndexOf_spec (s : JsString) (c n : Z) :
  ((occurrences c s ≤ Z.to_nat n)%nat → UtilFp.nthIndexOf s c n = -1)
  ∧ ((Z.to_nat n < occurrences c s)%nat →
     ∃ i : nat, UtilFp.nthIndexOf s c n = Z.of_nat i
                ∧ s !! i = Some c
                ∧ occurrences c (take i s) = Z.to_nat n).
Proof.
  split; [apply nthIndexOf_none|]. intros Hn. unfold UtilFp.nthIndexOf.
  destruct (indexOf_spec s c 0 ltac:(lia)) as [[_ H0]|[Hle Hcount]].
  { change (Z.to_nat 0) with 0%nat in H0. rewrite drop_0 in H0. lia. }
  change (Z.to_nat 0) with 0%nat in Hcount. rewrite drop_0 in Hcount.
  assert (indexOf s c 0 ≠ -1) as Hne by lia.
  destruct (nthIndexOfLoop_some (Z.to_nat n) s c (indexOf s c 0) Hle
              (indexOf_hit _ _ _ Hne) ltac:(lia))
    as (i & -> & Hpos & Hci & Hrest).
  exists (Z.to_nat i). split_and!; [lia|done|].
  pose proof (occurrences_split c s (Z.to_nat i) Hci) as Hsplit.
  replace (S (Z.to_nat i)) with (Z.to_nat (i + 1)) in Hsplit by lia.
  lia.
Qed.

Lemma nthIndexOf_spec_witness :
  ∃ i : nat, UtilFp.nthIndexOf (lit "a/b/c/d") (ch "/") 1 = Z.of_nat i
             ∧ lit "a/b/c/d" !! i = Some (ch "/")
             ∧ occurrences (ch "/") (take i (lit "a/b/c/d")) = Z.to_nat 1.
Proof.
  apply (proj2 (nthIndexOf_spec (lit "a/b/c/d") (ch "/") 1)).
  vm_compute. lia.
Defined.

Lemma strRepeatLoop_concat (n : nat) (str r : JsString) :
  UtilFp.strRepeatLoop n str r = r ++ concat (replicate n str).
Proof.
  revert r. induction n as [|n IH]; intros r; cbn [UtilFp.strRepeatLoop].
  - cbn. by rewrite app_nil_r.
  - rewrite IH. cbn [replicate concat]. by rewrite <- app_assoc.
Qed.

(** X29: [strRepeat] returns the given number of copies of the string, one
    after the other; for a number that is not positive it returns the
    empty string. *)
Theorem strRepeat_spec (str : JsString) (num : Z) :
  UtilFp.strRepeat str num = concat (replicate (Z.to_nat num) str)
  ∧ strlen (UtilFp.strRepeat str num) = Z.max 0 num * strlen str
  ∧ (num ≤ 0 → UtilFp.strRepeat str num = []).
Proof.
  assert (UtilFp.strRepeat str num = concat (replicate (Z.to_nat num) str)) as E.
  { unfold UtilFp.strRepeat. by rewrite strRepeatLoop_concat. }
  split_and!; [done| |].
  - rewrite E. unfold strlen.
    assert (∀ k : nat, length (concat (replicate k str)) = (k * length str)%nat)
      as Hlen.
    { induction k as [|k IH]; [done|].
      cbn [replicate concat]. rewrite length_app, IH. lia. }
    rewrite Hlen. lia.
  - intros Hnum. rewrite E.
    replace (Z.to_nat num) with 0%nat by lia. done.
Qed.

Lemma strRepeat_spec_witness : UtilFp.strRepeat (lit "ab") (-2) = [].
Proof. apply (proj2 (proj2 (strRepeat_spec (lit "ab") (-2)))). lia. Defined.

Section ArrayRemove.

Context {A : Type} `{EqDecision A}.

Lemma filter_delete_hit (arr : list A) (element : A) (i : nat) :
  arr !! i = Some element →
  filter (λ x, x ≠ element) (delete i arr) = filter (λ x, x ≠ element) arr.
Proof.
  revert i. induction arr as [|x arr IH]; intros i; [done|].
  destruct i as [|i]; cbn [lookup list_lookup delete list_delete].
  - intros [= ->]. by rewrite filter_cons_False by (intros Hx; by apply Hx).
  - intros Hi. rewrite !filter_cons. rewrite IH by done. done.
Qed.

Lemma arrayIndexOfAux_spec (arr : list A) (element : A) (pos : Z) :
  0 ≤ pos →
  (arrayIndexOfAux arr element pos = -1
   ∧ filter (λ x, x ≠ element) arr = arr)
  ∨ (∃ i : nat, arrayIndexOfAux arr element pos = pos + Z.of_nat i
                ∧ arr !! i = Some element).
Proof.
  revert pos. induction arr as [|x arr IH]; intros pos Hpos;
    cbn [arrayIndexOfAux].
  - by left.
  - destruct (decide (x = element)) as [->|Hx].
    + right. exists 0%nat. split; [lia|done].
    + destruct (IH (pos + 1) ltac:(lia))
        as [[-> Hf]|(i & -> & Hi)].
      * left. split; [done|]. by rewrite filter_cons_True, Hf.
      * right. exists (S i). split; [lia|done].
Qed.

Lemma arrayRemoveLoop_enough (fuel : nat) (arr : list A) (element : A) :
  (length arr < fuel)%nat →
  arrayRemoveLoop fuel arr element = Some (filter (λ x, x ≠ element) arr).
Proof.
  revert arr. induction fuel as [|fuel IH]; intros arr Hlen; [lia|].
  cbn [arrayRemoveLoop]. unfold arrayIndexOf.
  destruct (arrayIndexOfAux_spec arr element 0 ltac:(lia))
    as [[-> Hf]|(i & -> & Hi)].
  - change (negb (-1 =? -1)) with false. cbv iota. by rewrite Hf.
  - rewrite (proj2 (Z.eqb_neq (0 + Z.of_nat i) (-1))) by lia.
    cbn [negb]. unfold splice1.
    replace (Z.to_nat (0 + Z.of_nat i)) with i by lia.
    rewrite IH.
    + by rewrite filter_delete_hit.
    + rewrite length_delete by (by eexists). apply lookup_lt_Some in Hi. lia.
Qed.

End ArrayRemove.

(** X30: [arrayRemove] ends, after at most one round of its loop more
    than the array has elements, and leaves the array without any
    occurrence of the element, the other elements in their order. *)
Theorem arrayRemove_spec {A} `{EqDecision A} (fuel : nat) (arr : list A)
    (element : A) :
  (length arr < fuel)%nat →
  arrayRemove fuel arr element = Some (filter (λ x, x ≠ element) arr)
  ∧ element ∉ filter (λ x, x ≠ element) arr.
Proof.
  intros Hlen. split; [by apply arrayRemoveLoop_enough|].
  rewrite list_elem_of_filter. by intros [Hne _].
Qed.

Lemma arrayRemove_spec_witness :
  arrayRemove 5 [1; 2; 1; 3] 1 = Some (filter (λ x, x ≠ 1) [1; 2; 1; 3])
  ∧ 1 ∉ filter (λ x, x ≠ 1) [1; 2; 1; 3].
Proof. apply (arrayRemove_spec 5 [1; 2; 1; 3] 1). simpl. lia. Defined.
